(** * UK household nutrition chart: a shallow embedding of [script.js]

    The script normalises a CSV table into records, filters them by the
    two controls, and draws a multi-line chart with de-collided end
    labels and a nearest-sample hover overlay.  The definitions below
    follow [script.js] function by function; the closure variables of
    [renderChart] become the fields of the record [chart], and the event
    handlers become functions on that record.

    Conventions.
    - A JavaScript number is a [num]: a finite value, carried exactly as
      a canonical rational, or [NaN].  Rounding of doubles and the two
      infinities are not represented.
    - [undefined] and [null] are [None] of an option type.
    - The d3 functions the script calls are written out after the d3
      sources where a claim depends on what they do ([d3_min],
      [ascending], [scaleLinear], [ordinal_call], [line], [find]), and
      are parameters of the development where it does not ([nice],
      [Delaunay_from], the string-to-number coercion). *)

From Stdlib Require Import QArith Qcanon Qround Lqa Lia ZArith Ascii String.
From stdpp Require Import base option list strings numbers gmap sorting pretty.

Local Open Scope Z_scope.
Local Open Scope Qc_scope.

#[local] Set Warnings "-clear-no-such-hyp".

(** ** JavaScript numbers *)

Module JS.

Inductive num := Num (q : Qc) | NaN.

#[global] Instance num_eq_dec : EqDecision num.
Proof. solve_decision. Defined.

#[global] Instance num_inhabited : Inhabited num := populate NaN.

Definition of_Z (z : Z) : num := Num (Qc_of_Z z).

Definition is_nan (a : num) : bool :=
  match a with NaN => true | Num _ => false end.

Definition lift2 (f : Qc → Qc → Qc) (a b : num) : num :=
  match a, b with
  | Num x, Num y => Num (f x y)
  | _, _ => NaN
  end.

Definition add : num → num → num := lift2 Qcplus.
Definition sub : num → num → num := lift2 Qcminus.
Definition mul : num → num → num := lift2 Qcmult.

(** [a < b], [a > b], [a >= b]: every comparison with [NaN] is false. *)
Definition lt (a b : num) : bool :=
  match a, b with
  | Num x, Num y => bool_decide (x < y)
  | _, _ => false
  end.
Definition gt (a b : num) : bool := lt b a.
Definition ge (a b : num) : bool :=
  match a, b with
  | Num x, Num y => bool_decide (y ≤ x)
  | _, _ => false
  end.

Definition Qc_min (x y : Qc) : Qc := if bool_decide (x ≤ y) then x else y.

(** [Math.min(a, b)]: [NaN] as soon as one argument is. *)
Definition Math_min : num → num → num := lift2 Qc_min.

(** [pow(a, 2)]. *)
Definition pow2 (a : num) : num := mul a a.

(** [+v] for a value that is a number or [undefined]. *)
Definition number (v : option num) : num := default NaN v.

(** [v || fallback] for a number-or-undefined [v]: [undefined], [NaN] and
    zero are falsy. *)
Definition or_else (v : num) (fallback : num) : num :=
  match v with
  | NaN => fallback
  | Num q => if bool_decide (q = 0) then fallback else v
  end.

(** An integer-valued JavaScript number used as an array index, or [NaN]. *)
Inductive jsint := JNaN | JInt (z : Z).

#[global] Instance jsint_eq_dec : EqDecision jsint.
Proof. solve_decision. Defined.

(** [a % b] on integers: the sign follows the dividend, [NaN] for [b = 0]. *)
Definition rem (a b : Z) : jsint :=
  if bool_decide (b = 0%Z) then JNaN else JInt (Z.rem a b).

(** [arr[k]] for an integer [k]: [undefined] outside the array. *)
Definition at_Z {A} (l : list A) (k : Z) : option A :=
  if bool_decide (0 ≤ k)%Z then l !! Z.to_nat k else None.

(** [arr[k]] where [k] itself may be [undefined] or [NaN]. *)
Definition at_opt {A} (l : list A) (k : option Z) : option A :=
  k ≫= at_Z l.

Definition at_jsint {A} (l : list A) (k : jsint) : option A :=
  match k with JNaN => None | JInt z => at_Z l z end.

(** [[...new Set(l)]]: the distinct elements in order of first appearance. *)
Definition dedupe_step (acc : list string) (x : string) : list string :=
  if bool_decide (x ∈ acc) then acc else acc ++ [x].
Definition dedupe (l : list string) : list string :=
  foldl dedupe_step [] l.

(** [arr.indexOf(x)] with [-1] for an absent element. *)
Fixpoint indexOf_from (k : Z) (l : list string) (x : option string) : Z :=
  match l with
  | [] => (-1)%Z
  | y :: l' => if bool_decide (x = Some y) then k else indexOf_from (k + 1)%Z l' x
  end.
Definition indexOf (l : list string) (x : option string) : Z :=
  indexOf_from 0%Z l x.

End JS.
Export JS.

(** ** The data model of [script.js] *)

(** One element of the [data] array built by the top-level [processData]. *)
Record record := Record_ {
  nutrientType : string;
  nutrient : string;
  region : string;
  values : list num;
}.

#[global] Instance record_eq_dec : EqDecision record.
Proof. solve_decision. Defined.

(** The [filters] object of the top-level callback. *)
Record filters := Filters {
  f_nutrientType : string;
  f_regions : list string;
}.

#[global] Instance filters_eq_dec : EqDecision filters.
Proof. solve_decision. Defined.

(** ** [filterData] (script.js 78-84) *)

(** The callback given to [data.filter]. *)
Definition filterData_keep (fs : filters) (d : record) : bool :=
  if negb (bool_decide (f_nutrientType fs = nutrientType d)) then false
  else if negb (bool_decide (region d ∈ f_regions fs)) then false
  else true.

(** [Array.prototype.filter] builds a fresh array from the elements the
    callback accepts, in order. *)
Fixpoint Array_filter {A} (keep : A → bool) (l : list A) : list A :=
  match l with
  | [] => []
  | x :: l' => if keep x then x :: Array_filter keep l' else Array_filter keep l'
  end.

Definition filterData (data : list record) (fs : filters) : list record :=
  Array_filter (filterData_keep fs) data.

(** ** The d3 functions the script calls *)

Module D3.

(** *** d3-array: [min], [max], [ascending] *)

(** One iteration of [d3.min]: a value replaces the running minimum when
    it is not [null] and either is smaller or is the first comparable
    value ([value >= value] fails for [NaN]). *)
Definition min_step (m : option num) (value : option num) : option num :=
  match value with
  | None => m
  | Some v =>
      if match m with
         | Some m' => gt m' v
         | None => ge v v
         end
      then Some v else m
  end.

(** [d3.min(values, valueof)] with the accessor already applied;
    [undefined] when no value is comparable. *)
Definition d3_min (vs : list (option num)) : option num :=
  foldl min_step None vs.

Definition max_step (m : option num) (value : option num) : option num :=
  match value with
  | None => m
  | Some v =>
      if match m with
         | Some m' => lt m' v
         | None => ge v v
         end
      then Some v else m
  end.

Definition d3_max (vs : list (option num)) : option num :=
  foldl max_step None vs.

(** [d3.ascending(a, b)]:
    [a == null || b == null ? NaN : a < b ? -1 : a > b ? 1 : a >= b ? 0 : NaN]. *)
Definition ascending (a b : option num) : num :=
  match a, b with
  | Some x, Some y =>
      if lt x y then of_Z (-1)
      else if gt x y then of_Z 1
      else if ge x y then of_Z 0
      else NaN
  | _, _ => NaN
  end.

(** [Array.prototype.sort(compare)]: a stable sort; [x] goes before [y]
    exactly when [compare(x, y) < 0], and a [NaN] result counts as zero.
    For a comparator that orders the elements consistently this is the
    order of every conforming sort.  For one that does not (a comparator
    that answers [NaN] for some pairs and a sign for others), the
    standard leaves the order to the engine: the definition below is
    then the order of an insertion sort that inserts from the right, and
    nothing is proved from it beyond lists of two elements, where it is
    the order of every stable sort. *)
Definition before {A} (compare : A → A → num) (x y : A) : bool :=
  lt (compare x y) (of_Z 0).

Fixpoint sort_insert {A} (compare : A → A → num) (x : A) (l : list A) : list A :=
  match l with
  | [] => [x]
  | y :: l' =>
      if before compare y x then y :: sort_insert compare x l'
      else x :: y :: l'
  end.

Fixpoint Array_sort {A} (compare : A → A → num) (l : list A) : list A :=
  match l with
  | [] => []
  | x :: l' => sort_insert compare x (Array_sort compare l')
  end.

(** *** d3-scale: linear scales *)

(** [normalize(a, b)]: the position of [x] between [a] and [b]; a
    degenerate domain maps everything to [0.5], a [NaN] span to [NaN]. *)
Definition normalize (a b : num) (x : num) : num :=
  match sub b a with
  | NaN => NaN
  | Num span =>
      if bool_decide (span = 0) then Num (Q2Qc (1 # 2))
      else match sub x a with
           | NaN => NaN
           | Num d => Num (d / span)
           end
  end.

(** [interpolateNumber(a, b)(t) = a * (1 - t) + b * t]. *)
Definition interpolateNumber (a b : num) (t : num) : num :=
  add (mul a (sub (of_Z 1) t)) (mul b t).

(** [bimap]: the two-point piecewise map of a continuous scale. *)
Definition bimap (domain range : num * num) (x : num) : num :=
  let '(d0, d1) := domain in
  let '(r0, r1) := range in
  if lt d1 d0 then interpolateNumber r1 r0 (normalize d1 d0 x)
  else interpolateNumber r0 r1 (normalize d0 d1 x).

(** Calling a linear scale on a number-or-undefined argument.  The
    scale answers [undefined] for [undefined] and [NaN]; every caller in
    the script coerces the answer to a number, so it is returned as
    [NaN]. *)
Definition scaleLinear (domain range : num * num) (x : option num) : num :=
  match x with
  | None | Some NaN => NaN
  | Some v => bimap domain range v
  end.

(** *** d3-scale: ordinal scales *)

(** What an ordinal scale answers for a value outside its domain:
    [scaleImplicit] (the default) or the value given to [.unknown]. *)
Inductive unknown_policy := Implicit | Unknown (color : string).

(** [scale.domain(values)]: duplicates are dropped, first occurrence wins. *)
Definition ordinal_domain (vs : list string) : list string := dedupe vs.

(** [scale(d)]: the range entry at the index of [d] in the domain, modulo
    the range length.  With the implicit policy a new value is appended
    to the domain first; the updated domain is returned with the colour. *)
Definition ordinal_call (policy : unknown_policy) (range : list string)
    (domain : list string) (d : string) : option string * list string :=
  let i := indexOf domain (Some d) in
  if bool_decide (i = (-1)%Z) then
    match policy with
    | Unknown c => (Some c, domain)
    | Implicit =>
        let domain' := domain ++ [d] in
        (range !! (length domain `mod` length range)%nat, domain')
    end
  else (range !! (Z.to_nat i `mod` length range)%nat, domain).

(** *** d3-shape: the line generator *)

(** The calls a line generator makes on its curve. *)
Inductive curve_call :=
  | lineStart
  | point (x y : num)
  | lineEnd.

#[global] Instance curve_call_eq_dec : EqDecision curve_call.
Proof. solve_decision. Defined.

(** The loop of [d3.line()]: for [i] from [0] to [n] inclusive,
    [if (!(i < n && defined(d)) === defined0) { if (defined0 = !defined0)
    lineStart() else lineEnd() }; if (defined0) point(x(d, i), y(d, i))]. *)
Fixpoint line_loop {A} (defined : A → bool) (x y : A → nat → num)
    (i : nat) (defined0 : bool) (data : list A) : list curve_call :=
  match data with
  | [] => if defined0 then [lineEnd] else []
  | d :: data' =>
      let toggle := bool_decide (negb (defined d) = defined0) in
      let defined1 := if toggle then negb defined0 else defined0 in
      (if toggle then (if defined1 then [lineStart] else [lineEnd]) else [])
      ++ (if defined1 then [point (x d i) (y d i)] else [])
      ++ line_loop defined x y (S i) defined1 data'
  end.

Definition line {A} (defined : A → bool) (x y : A → nat → num)
    (data : list A) : list curve_call :=
  line_loop defined x y 0 false data.

(** *** d3-delaunay: the triangulation and [find] *)

(** The arrays of a [Delaunay] object: [points] is the flat coordinate
    array [x0, y0, x1, y1, ...]. *)
Record Delaunay := Delaunay_ {
  points : list num;
  triangles : list Z;
  halfedges : list Z;
  inedges : list Z;
  hull : list Z;
  _hullIndex : list Z;
}.

#[global] Instance Delaunay_eq_dec : EqDecision Delaunay.
Proof. solve_decision. Defined.

(** [points[k]] inside an arithmetic expression: [undefined] makes the
    expression [NaN]. *)
Definition coord (D : Delaunay) (k : option Z) : num :=
  default NaN (at_opt (points D) k).

(** [pow(x - points[t * 2], 2) + pow(y - points[t * 2 + 1], 2)]. *)
Definition dist2 (D : Delaunay) (x y : num) (t : option Z) : num :=
  add (pow2 (sub x (coord D ((λ t, t * 2)%Z <$> t))))
      (pow2 (sub y (coord D ((λ t, t * 2 + 1)%Z <$> t)))).

(** [e % 3 === 2 ? e - 2 : e + 1]. *)
Definition next_halfedge (e : Z) : Z :=
  if bool_decide (Z.rem e 3 = 2)%Z then (e - 2)%Z else (e + 1)%Z.

(** [hull[(_hullIndex[i] + 1) % hull.length]]. *)
Definition hull_next (D : Delaunay) (i : Z) : option Z :=
  match at_Z (_hullIndex D) i with
  | None => None
  | Some h => at_jsint (hull D) (rem (h + 1) (Z.of_nat (length (hull D))))
  end.

(** The [do ... while (e !== e0)] loop of [_step].  [None] stands for a
    loop that does not end: the next [e] depends on [e] alone, so a walk
    longer than the number of halfedges repeats one and never leaves. *)
Fixpoint step_loop (fuel : nat) (D : Delaunay) (i : Z) (x y : num)
    (e0 e : option Z) (c : Z) (dc : num) : option jsint :=
  match fuel with
  | O => None
  | S fuel' =>
      let t := at_opt (triangles D) e in
      let dt := dist2 D x y t in
      let closer := lt dt dc in
      let c := if closer then default c t else c in
      let dc := if closer then dt else dc in
      let e1 := next_halfedge <$> e in
      if negb (bool_decide (at_opt (triangles D) e1 = Some i)) then Some (JInt c)
      else
        let e2 := at_opt (halfedges D) e1 in
        if bool_decide (e2 = Some (-1)%Z) then
          let eh := hull_next D i in
          if negb (bool_decide (eh = t)) && lt (dist2 D x y eh) dc
          then Some (JInt (default c eh))
          else Some (JInt c)
        else if bool_decide (e2 = e0) then Some (JInt c)
        else step_loop fuel' D i x y e0 e2 c dc
  end.

(** [_step(i, x, y)]: the closest to [(x, y)] among [i] and its
    neighbours in the triangulation; for a point without incoming
    halfedge (or an empty triangulation) the next index, cyclically. *)
Definition _step (D : Delaunay) (i : Z) (x y : num) : option jsint :=
  if bool_decide (at_Z (inedges D) i = Some (-1)%Z)
     || bool_decide (length (points D) = 0%nat)
  then Some (rem (i + 1) (Z.of_nat (length (points D)) ≫ 1))
  else step_loop (S (S (length (halfedges D)))) D i x y
         (at_Z (inedges D) i) (at_Z (inedges D) i) i (dist2 D x y (Some i)).

(** The loop of [find]:
    [while ((c = this._step(i, x, y)) >= 0 && c !== i && c !== i0) i = c].
    The next [i] depends on [i] alone, so a walk of more steps than there
    are points repeats one and never leaves; [None] stands for that. *)
Fixpoint find_loop (fuel : nat) (D : Delaunay) (x y : num) (i0 i : Z)
    : option jsint :=
  match fuel with
  | O => None
  | S fuel' =>
      match _step D i x y with
      | None => None
      | Some JNaN => Some JNaN
      | Some (JInt c) =>
          if bool_decide (0 ≤ c)%Z && negb (bool_decide (c = i))
             && negb (bool_decide (c = i0))
          then find_loop fuel' D x y i0 c
          else Some (JInt c)
      end
  end.

(** [delaunay.find(x, y, i)]. *)
Definition find (D : Delaunay) (x y : num) (i : Z) : option jsint :=
  if is_nan x || is_nan y then Some (JInt (-1))
  else find_loop (S (S (length (points D)))) D x y i i.

End D3.
Export D3.

(** ** What the script takes from its platform

    [StringToNumber] is the coercion [+s] of a CSV field, [nice] is the
    [.nice()] rounding of a linear scale's domain, and [Delaunay_from]
    is [d3.Delaunay.from] applied to the pixel positions of the samples. *)
Class Env := {
  StringToNumber : string → num;
  nice : num * num → num * num;
  Delaunay_from : list (num * num) → Delaunay;
}.

(** ** The CSV table and the top-level callback *)

(** A parsed row: the three descriptive columns, and the remaining
    fields by column name. *)
Record row := Row {
  Type_ : string;
  Nutrient : string;
  Region : string;
  cells : gmap string string;
}.

Record table := Table {
  columns : list string;
  rows : list row;
}.

(** The [detail] of a [filterchange] event. *)
Inductive detail :=
  | nutrientType_changed (value : string)
  | regions_changed (value : list string).

(** One flattened sample [[year, value, nutrient]]. *)
Record sample := Sample {
  s_year : option string;
  s_value : num;
  s_nutrient : string;
}.

#[global] Instance sample_eq_dec : EqDecision sample.
Proof. solve_decision. Defined.

(** ** The DOM the chart draws *)

(** A [g.line] element with its bound datum, the text of its label, and
    the attributes the script sets on it. *)
Record line_node := Line_node {
  ln_datum : record;
  ln_text : string;
  ln_stroke : option string;
  ln_d : list curve_call;
  ln_fill : option string;
  ln_y : num;
  ln_opacity : option num;
}.

#[global] Instance line_node_eq_dec : EqDecision line_node.
Proof. solve_decision. Defined.

(** A [g.dot] marker of the overlay. *)
Record dot_node := Dot_node {
  dn_datum : record;
  dn_fill : option string;
  dn_transform : num * num;
  dn_text : option num;
}.

#[global] Instance dot_node_eq_dec : EqDecision dot_node.
Proof. solve_decision. Defined.

Record rect := Rect {
  rect_x : num;
  rect_y : num;
  rect_width : num;
  rect_height : num;
}.

#[global] Instance rect_eq_dec : EqDecision rect.
Proof. solve_decision. Defined.

(** The closure of [renderChart]: its two constants [years] and [width],
    its mutable variables, and the DOM under the [svg] element.
    [gLine] lists the line elements in the order of [data];
    [gLines_order] is the document order of those elements (positions in
    [gLine]), which [selection.sort] changes. *)
Record chart := Chart {
  years : list string;
  width : Qc;
  data : list record;
  regions : list string;
  yDomain : num * num;
  colorDomain : list string;
  flatData : list sample;
  delaunay : Delaunay;
  iDelaunay : option jsint;
  thresholdRect : rect;
  gLine : list line_node;
  gLines_order : list nat;
  gDots_display : option string;
  gDot : list dot_node;
}.

#[global] Instance chart_eq_dec : EqDecision chart.
Proof. solve_decision. Defined.

(** What a handler does: return, throw a [TypeError], or never return.
    The state carried by [Throws] is the one at the point of the throw. *)
Inductive outcome :=
  | Returns (s : chart)
  | Throws (s : chart)
  | Diverges.

#[global] Instance outcome_eq_dec : EqDecision outcome.
Proof. solve_decision. Defined.

(** The state of the top-level callback. *)
Record app := App {
  app_data : list record;
  app_filters : filters;
  filteredData : list record;
  app_chart : chart;
}.

Definition COLOR_SCHEME : list string := ["#1f77b4"; "#ff7f0e"]%string.

(** [margin], [height] and the derived pixel bounds. *)
Definition margin_top : Z := 30.
Definition margin_right : Z := 180.
Definition margin_bottom : Z := 30.
Definition margin_left : Z := 30.
Definition height : Z := 600.

Section Program.
Context `{!Env}.

(** ** The table normaliser: top-level [processData] (script.js 49-73) *)

(** [+d[year]]: a missing field is [undefined], whose coercion is [NaN]. *)
Definition unary_plus (v : option string) : num :=
  match v with
  | Some s => StringToNumber s
  | None => NaN
  end.

Definition row_record (ys : list string) (d : row) : record :=
  {| nutrientType := Type_ d;
     nutrient := Nutrient d;
     region := Region d;
     values := fmap (λ year, unary_plus (cells d !! year)) ys |}.

(** Returns [(data, years, nutrientTypes, regions)]. *)
Definition processData (csv : table)
    : list record * list string * list string * list string :=
  let ys := drop 3 (columns csv) in
  let nutrientTypes := dedupe (fmap Type_ (rows csv)) in
  let rs := dedupe (fmap Region (rows csv)) in
  let data := fmap (row_record ys) (rows csv) in
  (data, ys, nutrientTypes, rs).

(** ** Scales of [renderChart] (script.js 218-240) *)

Definition xDomain (s : chart) : num * num :=
  (unary_plus (years s !! 0%nat), unary_plus (last (years s))).

Definition xRange (s : chart) : num * num :=
  (of_Z margin_left, Num (width s - Qc_of_Z margin_right)).

(** [xScale(year)] for a column label or [undefined]. *)
Definition xScale (s : chart) (year : option string) : num :=
  scaleLinear (xDomain s) (xRange s) (StringToNumber <$> year).

Definition yRange : num * num :=
  (of_Z (height - margin_bottom), of_Z margin_top).

(** [yScale(v)] under the domain currently stored in the chart. *)
Definition yScale (s : chart) (v : option num) : num :=
  scaleLinear (yDomain s) yRange v.

(** [colorScale(region)] for each region in turn, threading the domain
    that an implicit ordinal scale may extend. *)
Fixpoint colorScale_each (domain : list string) (rs : list string)
    : list (option string) * list string :=
  match rs with
  | [] => ([], domain)
  | r :: rs' =>
      let '(c, domain1) := ordinal_call Implicit COLOR_SCHEME domain r in
      let '(cs, domain2) := colorScale_each domain1 rs' in
      (c :: cs, domain2)
  end.

(** [lineGenerator(values)]: no [.defined] accessor is configured, so the
    generator keeps d3's default, which accepts every point. *)
Definition lineGenerator (s : chart) (vs : list num) : list curve_call :=
  line (λ _, true)
       (λ _ i, xScale s (years s !! i))
       (λ d _, yScale s (Some d))
       vs.

(** ** The inner [processData] (script.js 276-308), first half *)

Definition minY (ds : list record) : num :=
  Math_min (of_Z 90)
    (number (d3_min (fmap (λ d, d3_min (fmap Some (values d))) ds))).

Definition maxY (ds : list record) : option num :=
  d3_max (fmap (λ d, d3_max (fmap Some (values d))) ds).

(** [d.values.forEach((v, i) => flatData.push([years[i], v, d.nutrient]))]. *)
Fixpoint push_values (ys : list string) (d : record) (i : nat)
    (vs : list num) (flat : list sample) : list sample :=
  match vs with
  | [] => flat
  | v :: vs' =>
      push_values ys d (S i) vs'
        (flat ++ [{| s_year := ys !! i; s_value := v; s_nutrient := nutrient d |}])
  end.

Definition flatten (ys : list string) (ds : list record) : list sample :=
  foldl (λ flat d, push_values ys d 0 (values d) flat) [] ds.

(** ** [updateChart] (script.js 311-388) *)

Definition threshold (s : chart) : rect :=
  let y100 := yScale s (Some (of_Z 100)) in
  {| rect_x := of_Z margin_left;
     rect_y := or_else y100 (of_Z (height - margin_bottom));
     rect_width := Num (width s - Qc_of_Z margin_left - Qc_of_Z margin_right);
     rect_height := or_else (sub (fst yRange) y100) (of_Z 0) |}.

(** The join key [`${d.region}-${d.nutrient}`]. *)
Definition key (d : record) : string :=
  (region d ++ "-" ++ nutrient d)%string.

(** The first loop of d3's keyed data bind: the first node of each key. *)
Fixpoint nodeByKeyValue (group : list line_node) (seen : list (string * line_node))
    : list (string * line_node) :=
  match group with
  | [] => seen
  | node :: group' =>
      let k := key (ln_datum node) in
      if bool_decide (k ∈ seen.*1) then nodeByKeyValue group' seen
      else nodeByKeyValue group' (seen ++ [(k, node)])
  end.

Fixpoint assoc_take (k : string) (m : list (string * line_node))
    : option (line_node * list (string * line_node)) :=
  match m with
  | [] => None
  | (k', node) :: m' =>
      if bool_decide (k = k') then Some (node, m')
      else '(found, rest) ← assoc_take k m'; Some (found, (k', node) :: rest)
  end.

(** An entering [g.line]: an empty path and a label reading the nutrient. *)
Definition enter_line (d : record) : line_node :=
  {| ln_datum := d; ln_text := nutrient d; ln_stroke := None; ln_d := [];
     ln_fill := None; ln_y := NaN; ln_opacity := None |}.

Definition rebind (node : line_node) (d : record) : line_node :=
  {| ln_datum := d; ln_text := ln_text node; ln_stroke := ln_stroke node;
     ln_d := ln_d node; ln_fill := ln_fill node; ln_y := ln_y node;
     ln_opacity := ln_opacity node |}.

(** The second loop of the bind, merged with [join]: per datum, the node
    of that key if one is left, else an entering node; exiting nodes are
    removed. *)
Fixpoint join_lines (m : list (string * line_node)) (ds : list record)
    : list line_node :=
  match ds with
  | [] => []
  | d :: ds' =>
      match assoc_take (key d) m with
      | Some (node, m') => rebind node d :: join_lines m' ds'
      | None => enter_line d :: join_lines m ds'
      end
  end.

(** [d.values[d.values.length - 1]]. *)
Definition final (d : record) : option num := last (values d).

(** The sort of the label pass: positions in [gLine] with their datum. *)
Definition label_order (ds : list record) : list (nat * record) :=
  Array_sort (λ a b, ascending (final a.2) (final b.2)) (imap pair ds).

(** The walk of the label pass over the sorted elements: each gets
    [currentLabelY = Math.min(currentLabelY - 12, y)]. *)
Fixpoint label_walk (s : chart) (currentLabelY : num)
    (sorted : list (nat * record)) : list (nat * num) :=
  match sorted with
  | [] => []
  | (i, d) :: sorted' =>
      let y := yScale s (final d) in
      let currentLabelY := Math_min (sub currentLabelY (of_Z 12)) y in
      (i, currentLabelY) :: label_walk s currentLabelY sorted'
  end.

Definition label_layout (s : chart) : list (nat * num) :=
  label_walk s (of_Z height) (label_order (data s)).

Definition assoc_nat {A} (i : nat) (l : list (nat * A)) : option A :=
  (λ p, p.2.2) <$> list_find (λ p, p.1 = i) l.

Definition set_stroke_d_fill (s : chart) (node : line_node)
    (stroke fill : option string) : line_node :=
  {| ln_datum := ln_datum node; ln_text := ln_text node; ln_stroke := stroke;
     ln_d := lineGenerator s (values (ln_datum node)); ln_fill := fill;
     ln_y := ln_y node; ln_opacity := ln_opacity node |}.

Definition set_y (node : line_node) (y : num) : line_node :=
  {| ln_datum := ln_datum node; ln_text := ln_text node;
     ln_stroke := ln_stroke node; ln_d := ln_d node; ln_fill := ln_fill node;
     ln_y := y; ln_opacity := ln_opacity node |}.

Definition set_opacity (node : line_node) (o : num) : line_node :=
  {| ln_datum := ln_datum node; ln_text := ln_text node;
     ln_stroke := ln_stroke node; ln_d := ln_d node; ln_fill := ln_fill node;
     ln_y := ln_y node; ln_opacity := Some o |}.

Fixpoint zip3_lines (s : chart) (nodes : list line_node)
    (strokes fills : list (option string)) : list line_node :=
  match nodes, strokes, fills with
  | node :: nodes', st :: strokes', fi :: fills' =>
      set_stroke_d_fill s node st fi :: zip3_lines s nodes' strokes' fills'
  | _, _, _ => []
  end.

Definition updateChart (s : chart) : chart :=
  let group := omap (λ i, gLine s !! i) (gLines_order s) in
  let joined := join_lines (nodeByKeyValue group []) (data s) in
  let rs := fmap (λ node, region (ln_datum node)) joined in
  let '(strokes, domain1) := colorScale_each (colorDomain s) rs in
  let '(fills, domain2) := colorScale_each domain1 rs in
  let drawn := zip3_lines s joined strokes fills in
  let layout := label_layout s in
  let labelled :=
    imap (λ i node, match assoc_nat i layout with
                    | Some y => set_y node y
                    | None => node
                    end) drawn in
  {| years := years s; width := width s; data := data s; regions := regions s;
     yDomain := yDomain s; colorDomain := domain2; flatData := flatData s;
     delaunay := delaunay s; iDelaunay := iDelaunay s;
     thresholdRect := threshold s;
     gLine := labelled; gLines_order := layout.*1;
     gDots_display := gDots_display s; gDot := gDot s |}.

(** ** The inner [processData], second half, and [updateData] (450-453) *)

Definition with_data (s : chart) (newData : list record) : chart :=
  {| years := years s; width := width s; data := newData; regions := regions s;
     yDomain := yDomain s; colorDomain := colorDomain s; flatData := flatData s;
     delaunay := delaunay s; iDelaunay := iDelaunay s;
     thresholdRect := thresholdRect s; gLine := gLine s;
     gLines_order := gLines_order s;
     gDots_display := gDots_display s; gDot := gDot s |}.

(** The pixel position of a sample, as given to [d3.Delaunay.from]. *)
Definition sample_position (s : chart) (d : sample) : num * num :=
  (xScale s (s_year d), yScale s (Some (s_value d))).

Definition processData_chart (s : chart) : chart :=
  let s1 :=
    {| years := years s; width := width s; data := data s;
       regions := dedupe (fmap region (data s));
       yDomain := nice (minY (data s), number (maxY (data s)));
       colorDomain := ordinal_domain (dedupe (fmap region (data s)));
       flatData := flatten (years s) (data s);
       delaunay := delaunay s; iDelaunay := iDelaunay s;
       thresholdRect := thresholdRect s; gLine := gLine s;
       gLines_order := gLines_order s;
       gDots_display := gDots_display s; gDot := gDot s |} in
  let s2 :=
    {| years := years s1; width := width s1; data := data s1;
       regions := regions s1; yDomain := yDomain s1;
       colorDomain := colorDomain s1; flatData := flatData s1;
       delaunay := Delaunay_from (fmap (sample_position s1) (flatData s1));
       iDelaunay := None;
       thresholdRect := thresholdRect s1; gLine := gLine s1;
       gLines_order := gLines_order s1;
       gDots_display := gDots_display s1; gDot := gDot s1 |} in
  updateChart s2.

Definition updateData (s : chart) (newData : list record) : chart :=
  processData_chart (with_data s newData).

(** [renderChart] up to its [return]: nothing is drawn yet and the
    overlay group is hidden.  [gLine], [flatData] and [delaunay] are
    still unassigned there; the script calls [updateData] before any
    event can reach the handlers, so the placeholders below are never
    read. *)
Definition renderChart (w : Qc) (ys : list string) (ds : list record) : chart :=
  {| years := ys; width := w; data := ds; regions := [];
     yDomain := (of_Z 0, of_Z 1); colorDomain := []; flatData := [];
     delaunay := Delaunay_ [] [] [] [] [] []; iDelaunay := None;
     thresholdRect := Rect NaN NaN NaN NaN; gLine := []; gLines_order := [];
     gDots_display := Some "none"%string; gDot := [] |}.

(** ** The pointer handlers (script.js 390-448) *)

Definition with_overlay (s : chart) (i : option jsint) (domain : list string)
    (lines : list line_node) (display : option string) (dots : list dot_node)
    : chart :=
  {| years := years s; width := width s; data := data s; regions := regions s;
     yDomain := yDomain s; colorDomain := domain; flatData := flatData s;
     delaunay := delaunay s; iDelaunay := i;
     thresholdRect := thresholdRect s; gLine := lines;
     gLines_order := gLines_order s;
     gDots_display := display; gDot := dots |}.

(** [gDots.attr("display", null)] removes the attribute. *)
Definition handleMouseEnter (s : chart) : chart :=
  with_overlay s (iDelaunay s) (colorDomain s) (gLine s) None (gDot s).

(** [iDelaunay || 0]: [null], [NaN] and [0] all give [0]. *)
Definition hint (i : option jsint) : Z :=
  match i with
  | Some (JInt z) => z
  | _ => 0%Z
  end.

(** [i !== iDelaunay] for a number [i]: [NaN] differs from everything,
    and so does [null]. *)
Definition differs (i : jsint) (previous : option jsint) : bool :=
  match i, previous with
  | JInt a, Some (JInt b) => negb (bool_decide (a = b))
  | _, _ => true
  end.

Definition highlight (nutrient0 : string) (node : line_node) : line_node :=
  set_opacity node
    (if bool_decide (nutrient (ln_datum node) = nutrient0)
     then of_Z 1 else Num (Q2Qc (1 # 10))).

Definition dot (s : chart) (year : option string) (iYear : Z)
    (fill : option string) (d : record) : dot_node :=
  {| dn_datum := d; dn_fill := fill;
     dn_transform := (xScale s year, yScale s (at_Z (values d) iYear));
     dn_text := at_Z (values d) iYear |}.

Definition handleMouseMove (s : chart) (xm ym : Qc) : outcome :=
  match find (delaunay s) (Num xm) (Num ym) (hint (iDelaunay s)) with
  | None => Diverges
  | Some i =>
      if differs i (iDelaunay s) then
        match at_jsint (flatData s) i with
        | None =>
            Throws (with_overlay s (Some i) (colorDomain s) (gLine s)
                      (gDots_display s) (gDot s))
        | Some {| s_year := year; s_nutrient := nutrient0 |} =>
            let lines := fmap (highlight nutrient0) (gLine s) in
            let highlightedData :=
              Array_filter (λ d, bool_decide (nutrient d = nutrient0)) (data s) in
            let iYear := indexOf (years s) year in
            let '(fills, domain1) :=
              colorScale_each (colorDomain s) (fmap region highlightedData) in
            let dots :=
              zip_with (dot s year iYear) fills highlightedData in
            Returns (with_overlay s (Some i) domain1 lines (gDots_display s) dots)
        end
      else Returns s
  end.

Definition handleMouseLeave (s : chart) : chart :=
  with_overlay s (iDelaunay s) (colorDomain s)
    (fmap (λ node, set_opacity node (of_Z 1)) (gLine s))
    (Some "none"%string) (gDot s).

(** ** Pointer events in sequence

    The browser delivers the events one at a time; a handler that throws
    ends the delivery of that event and leaves the closure as it was at
    the throw. *)
Inductive event :=
  | mouseenter
  | mousemove (xm ym : Qc)
  | mouseleave.

Definition handle (s : chart) (e : event) : outcome :=
  match e with
  | mouseenter => Returns (handleMouseEnter s)
  | mousemove xm ym => handleMouseMove s xm ym
  | mouseleave => Returns (handleMouseLeave s)
  end.

(** The state after a sequence of events, stopping at the first handler
    that does not return. *)
Fixpoint run (s : chart) (es : list event) : outcome :=
  match es with
  | [] => Returns s
  | e :: es' =>
      match handle s e with
      | Returns s' => run s' es'
      | o => o
      end
  end.

(** ** The colour of a region label in [renderRegionsControl] (136-188)

    The control has an ordinal scale of its own, over the same palette,
    whose domain is the list of checked regions and whose unknown value
    is ["currentColor"]. *)
Definition control_colorScale (currentValues : list string) (d : string)
    : option string :=
  (ordinal_call (Unknown "currentColor") COLOR_SCHEME
     (ordinal_domain currentValues) d).1.

(** ** The filter-change handler of the top-level callback (14-19) *)

Definition handleFilterChange (a : app) (ev : detail) : app :=
  let fs :=
    match ev with
    | nutrientType_changed v =>
        {| f_nutrientType := v; f_regions := f_regions (app_filters a) |}
    | regions_changed v =>
        {| f_nutrientType := f_nutrientType (app_filters a); f_regions := v |}
    end in
  let visible := filterData (app_data a) fs in
  {| app_data := app_data a; app_filters := fs; filteredData := visible;
     app_chart := updateData (app_chart a) visible |}.

End Program.

(** ** The two controls (script.js 89-198) *)

(** The template literal [`${prefix}${i + 1}`] for the index [i] of an
    item. *)
Definition numbered (prefix : string) (i : nat) : string :=
  prefix +:+ pretty (i + 1)%nat.

(** A [label] element: its [for] attribute, its text and the [color]
    style, if the script has set one. *)
Record label_node := Label_node {
  lb_for : string;
  lb_text : string;
  lb_color : option string;
}.

(** A radio [input] with the attributes and the style the script sets. *)
Record radio := Radio {
  ra_type : string;
  ra_accent_color : string;
  ra_name : string;
  ra_id : string;
  ra_value : string;
  ra_checked : option string;
}.

(** A checkbox [input]: its attributes, the [accent-color] style, and
    the [checked] property, which the browser keeps and the script reads
    as [this.checked]. *)
Record checkbox := Checkbox {
  cb_type : string;
  cb_name : string;
  cb_id : string;
  cb_value : string;
  cb_checked : option string;
  cb_disabled : option string;
  cb_accent_color : option string;
  checked : bool;
}.

(** A [div.form-control] with its bound datum, and the [fieldset] that
    holds them under its legend. *)
Record item (I : Type) := Item {
  datum : string;
  input : I;
  label : label_node;
}.
Arguments Item {I}.
Arguments datum {I}.
Arguments input {I}.
Arguments label {I}.

Record fieldset (I : Type) := Fieldset {
  legend : string;
  items : list (item I);
}.
Arguments Fieldset {I}.
Arguments legend {I}.
Arguments items {I}.

(** *** [renderNutrientTypeControl] (script.js 89-125) *)

Definition renderNutrientTypeControl (nutrientTypes : list string)
    (initialValue : option string) : fieldset radio :=
  {| legend := "Nutrient Type";
     items :=
       imap (λ i d,
         {| datum := d;
            input :=
              {| ra_type := "radio"; ra_accent_color := "currentColor";
                 ra_name := "nutrientType";
                 ra_id := numbered "nutrientType" i;
                 ra_value := d;
                 ra_checked :=
                   if bool_decide (Some d = initialValue)
                   then Some "checked"%string else None |};
            label :=
              {| lb_for := numbered "nutrientType" i; lb_text := d;
                 lb_color := None |} |})
         nutrientTypes |}.

Module NutrientTypeControl.

(** The [change] listener of the radios: the [detail] of the
    [filterchange] event it dispatches for the radio [event.target]. *)
Definition handleChange (target : radio) : detail :=
  nutrientType_changed (ra_value target).

End NutrientTypeControl.

(** *** [renderRegionsControl] (script.js 130-198) *)

Definition MAX_COUNT : nat := 2.

(** The closure of [renderRegionsControl]: the elements it has drawn and
    the domain of its [colorScale]. *)
Record regions_control := Regions_control {
  rc_fieldset : fieldset checkbox;
  rc_domain : list string;
}.

Definition renderRegionsControl (regions initialValues : list string)
    : regions_control :=
  {| rc_domain := ordinal_domain initialValues;
     rc_fieldset :=
       {| legend := "Region (Up to " +:+ pretty MAX_COUNT +:+ ")";
          items :=
            imap (λ i d,
              {| datum := d;
                 input :=
                   {| cb_type := "checkbox"; cb_name := "regions";
                      cb_id := numbered "region" i;
                      cb_value := d;
                      cb_checked :=
                        if bool_decide (d ∈ initialValues)
                        then Some "checked"%string else None;
                      cb_disabled := None;
                      cb_accent_color := None;
                      checked := bool_decide (d ∈ initialValues) |};
                 label :=
                   {| lb_for := numbered "region" i; lb_text := d;
                      lb_color := control_colorScale initialValues d |} |})
              regions |} |}.

Module RegionsControl.

(** [checkbox.each(function (d) { if (this.checked) currentValues.push(d) })]. *)
Definition currentValues (c : regions_control) : list string :=
  foldl (λ values it, if checked (input it) then values ++ [datum it] else values)
    [] (items (rc_fieldset c)).

(** The [change] listener of the checkboxes: the closure after it, and
    the [detail] of the [filterchange] event it dispatches. *)
Definition handleChange (c : regions_control) : regions_control * detail :=
  let values := currentValues c in
  let disabled (d : string) : option string :=
    if bool_decide (length values = MAX_COUNT)
    then (if bool_decide (d ∈ values) then None else Some "disabled"%string)
    else None in
  let update (it : item checkbox) : item checkbox :=
    {| datum := datum it;
       input :=
         {| cb_type := cb_type (input it); cb_name := cb_name (input it);
            cb_id := cb_id (input it); cb_value := cb_value (input it);
            cb_checked := cb_checked (input it);
            cb_disabled := disabled (datum it);
            cb_accent_color := control_colorScale values (datum it);
            checked := checked (input it) |};
       label :=
         {| lb_for := lb_for (label it); lb_text := lb_text (label it);
            lb_color := control_colorScale values (datum it) |} |} in
  ({| rc_domain := ordinal_domain values;
      rc_fieldset :=
        {| legend := legend (rc_fieldset c);
           items := update <$> items (rc_fieldset c) |} |},
   regions_changed values).

(** What the browser does with a click on the checkbox of item [k]: a
    disabled checkbox ignores it; any other flips its [checked] property
    and then fires [change]. *)
Definition flip (it : item checkbox) : item checkbox :=
  {| datum := datum it;
     input :=
       {| cb_type := cb_type (input it); cb_name := cb_name (input it);
          cb_id := cb_id (input it); cb_value := cb_value (input it);
          cb_checked := cb_checked (input it);
          cb_disabled := cb_disabled (input it);
          cb_accent_color := cb_accent_color (input it);
          checked := negb (checked (input it)) |};
     label := label it |}.

Definition click (k : nat) (c : regions_control)
    : regions_control * option detail :=
  match items (rc_fieldset c) !! k with
  | None => (c, None)
  | Some it =>
      match cb_disabled (input it) with
      | Some _ => (c, None)
      | None =>
          let c1 :=
            {| rc_domain := rc_domain c;
               rc_fieldset :=
                 {| legend := legend (rc_fieldset c);
                    items := <[k := flip it]> (items (rc_fieldset c)) |} |} in
          let '(c2, ev) := handleChange c1 in
          (c2, Some ev)
      end
  end.

End RegionsControl.

(** ** The page: the top-level callback (script.js 3-44) *)

(** What the callback leaves behind: its closure and the two controls. *)
Record page := Page {
  pg_app : app;
  pg_nutrientTypes : fieldset radio;
  pg_regions : regions_control;
}.

(** What the user does with the controls: picks the radio of item [k],
    or clicks the checkbox of item [k]. *)
Inductive control_event :=
  | pick_nutrientType (k : nat)
  | click_region (k : nat).

Section Page.
Context `{!Env}.

(** The callback given to [d3.csv(...).then], for the parsed table and
    the [clientWidth] of the chart container.  The initial filters are
    [nutrientTypes[0]] and [[regions[0]]]; a table without rows has
    neither, both are [undefined] then, a value [filters] does not
    have: [None] stands for that case. *)
Definition main (clientWidth : Qc) (csv : table) : option page :=
  let '(data, years, nutrientTypes, regions) := processData csv in
  nutrientType0 ← nutrientTypes !! 0%nat;
  region0 ← regions !! 0%nat;
  let filters := {| f_nutrientType := nutrientType0; f_regions := [region0] |} in
  let filteredData := filterData data filters in
  let chart := renderChart clientWidth years data in
  Some {| pg_app :=
            {| app_data := data; app_filters := filters;
               filteredData := filteredData;
               app_chart := updateData chart filteredData |};
          pg_nutrientTypes :=
            renderNutrientTypeControl nutrientTypes (Some (f_nutrientType filters));
          pg_regions := renderRegionsControl regions (f_regions filters) |}.

(** [container.dispatch("filterchange", { detail })]: the listener on
    both containers is [handleFilterChange]. *)
Definition dispatch (p : page) (ev : detail) (regions' : regions_control) : page :=
  {| pg_app := handleFilterChange (pg_app p) ev;
     pg_nutrientTypes := pg_nutrientTypes p;
     pg_regions := regions' |}.

Definition control_step (p : page) (e : control_event) : page :=
  match e with
  | pick_nutrientType k =>
      match items (pg_nutrientTypes p) !! k with
      | Some it =>
          dispatch p (NutrientTypeControl.handleChange (input it)) (pg_regions p)
      | None => p
      end
  | click_region k =>
      match RegionsControl.click k (pg_regions p) with
      | (regions', Some ev) => dispatch p ev regions'
      | (_, None) => p
      end
  end.

End Page.

(** ** A concrete platform for the examples

    The three members of [Env] are instantiated so that the properties
    below can be run on small tables.  Each instance follows the
    JavaScript or d3 behaviour on the inputs the examples use, and says
    where it stops doing so. *)

Module Platform.

(** [+s] for a string of decimal digits, and for the empty string (which
    JavaScript reads as zero).  Every other string is read as [NaN] here;
    signs, fractions, exponents, white space and radix prefixes are not
    recognised. *)
Definition digit (c : ascii) : option Z :=
  let n := Z.of_nat (nat_of_ascii c) in
  if bool_decide (48 ≤ n ≤ 57)%Z then Some (n - 48)%Z else None.

Fixpoint digits (acc : Z) (s : string) : option Z :=
  match s with
  | EmptyString => Some acc
  | String c s' => d ← digit c; digits (10 * acc + d)%Z s'
  end.

Definition StringToNumber (s : string) : num :=
  match digits 0 s with
  | Some z => of_Z z
  | None => NaN
  end.

(** [.nice()] of d3-scale for an increasing finite domain and the
    default tick count of ten; every other domain is left as it is. *)
Definition pow10 (p : Z) : Qc :=
  if bool_decide (0 ≤ p)%Z then Qc_of_Z (10 ^ p) else / Qc_of_Z (10 ^ (- p)).

Fixpoint floor_log10 (fuel : nat) (p : Z) (step : Qc) : Z :=
  match fuel with
  | O => p
  | S fuel' =>
      if bool_decide (pow10 (p + 1) ≤ step) then floor_log10 fuel' (p + 1)%Z step
      else if bool_decide (step < pow10 p) then floor_log10 fuel' (p - 1)%Z step
      else p
  end.

(** [tickIncrement(start, stop, 10)]; zero stands for the non-finite
    results d3 gets from an empty or reversed interval. *)
Definition tickIncrement (start stop : Qc) : Qc :=
  let step := (stop - start) / Qc_of_Z 10 in
  if bool_decide (step ≤ 0) then 0
  else
    let power := floor_log10 400 0 step in
    let error := step / pow10 power in
    let factor :=
      if bool_decide (Qc_of_Z 50 ≤ error * error) then Qc_of_Z 10
      else if bool_decide (Qc_of_Z 10 ≤ error * error) then Qc_of_Z 5
      else if bool_decide (Qc_of_Z 2 ≤ error * error) then Qc_of_Z 2
      else 1 in
    if bool_decide (0 ≤ power)%Z then factor * pow10 power
    else - (pow10 (- power) / factor).

Definition floorQc (q : Qc) : Qc := Qc_of_Z (Qfloor q).
Definition ceilQc (q : Qc) : Qc := Qc_of_Z (Qceiling q).

Fixpoint nice_loop (maxIter : nat) (start stop : Qc) (prestep : option Qc)
    : option (Qc * Qc) :=
  match maxIter with
  | O => None
  | S maxIter' =>
      let step := tickIncrement start stop in
      if bool_decide (Some step = prestep) then Some (start, stop)
      else if bool_decide (0 < step) then
        nice_loop maxIter' (floorQc (start / step) * step)
          (ceilQc (stop / step) * step) (Some step)
      else if bool_decide (step < 0) then
        nice_loop maxIter' (ceilQc (start * step) / step)
          (floorQc (stop * step) / step) (Some step)
      else None
  end.

Definition nice (domain : num * num) : num * num :=
  match domain with
  | (Num start, Num stop) =>
      match nice_loop 10 start stop None with
      | Some (a, b) => (Num a, Num b)
      | None => domain
      end
  | _ => domain
  end.

(** [d3.Delaunay.from] for at most two points.  Delaunator finds no
    triangle there and returns the points ordered by [dx] (or [dy] where
    the [dx] is zero) from the first point as the hull, dropping a
    coincident second point; d3-delaunay then fills in its "degenerate
    case: 1 or 2 (distinct) points".  Three or more points are outside
    this instance: it returns them without any triangulation. *)
Definition flat (pts : list (num * num)) : list num :=
  mjoin (fmap (λ p, [p.1; p.2]) pts).

Definition small_hull (pts : list (num * num)) : list Z :=
  match pts with
  | [_] => [0%Z]
  | [(x0, y0); (x1, y1)] =>
      let d := or_else (sub x1 x0) (sub y1 y0) in
      if lt (of_Z 0) d then [0%Z; 1%Z]
      else if lt d (of_Z 0) then [1%Z; 0%Z]
      else [0%Z]
  | _ => []
  end.

Definition Delaunay_from (pts : list (num * num)) : Delaunay :=
  let n := length pts in
  match small_hull pts with
  | [h0] =>
      {| points := flat pts;
         triangles := [h0; -1; -1]%Z;
         halfedges := [-1; -1; -1]%Z;
         inedges := <[Z.to_nat h0 := 1%Z]> (replicate n (-1)%Z);
         hull := [h0];
         _hullIndex := <[Z.to_nat h0 := 0%Z]> (replicate n (-1)%Z) |}
  | [h0; h1] =>
      {| points := flat pts;
         triangles := [h0; h1; h1];
         halfedges := [-1; -1; -1]%Z;
         inedges := <[Z.to_nat h1 := 0%Z]> (<[Z.to_nat h0 := 1%Z]> (replicate n (-1)%Z));
         hull := [h0; h1];
         _hullIndex := <[Z.to_nat h1 := 1%Z]> (<[Z.to_nat h0 := 0%Z]> (replicate n (-1)%Z)) |}
  | _ =>
      {| points := flat pts; triangles := []; halfedges := [];
         inedges := replicate n (-1)%Z; hull := [];
         _hullIndex := replicate n (-1)%Z |}
  end.

#[export] Instance env : Env :=
  Build_Env StringToNumber nice Delaunay_from.

End Platform.

(** ** Vocabulary of the statements *)

(** The numbers among a list of values: [d3.min] and [d3.max] pass over
    [undefined] and [NaN]. *)
Definition numbers_of (vs : list (option num)) : list Qc :=
  omap (λ v, match v with Some (Num q) => Some q | _ => None end) vs.

(** Every number among the values of the visible records. *)
Definition visible_values (ds : list record) : list Qc :=
  numbers_of (fmap Some (mjoin (fmap values ds))).

Definition least (m : Qc) (qs : list Qc) : Prop :=
  m ∈ qs ∧ Forall (λ q, m ≤ q) qs.

Definition greatest (m : Qc) (qs : list Qc) : Prop :=
  m ∈ qs ∧ Forall (λ q, q ≤ m) qs.

#[global] Instance least_dec m qs : Decision (least m qs).
Proof. unfold least. apply _. Defined.

#[global] Instance greatest_dec m qs : Decision (greatest m qs).
Proof. unfold greatest. apply _. Defined.

(** Order on numbers: false as soon as one side is [NaN]. *)
Definition le_num (a b : num) : Prop :=
  match a, b with
  | Num x, Num y => x ≤ y
  | _, _ => False
  end.

#[global] Instance le_num_dec (a b : num) : Decision (le_num a b).
Proof. destruct a, b; simpl; apply _. Defined.

(** Two elements next to each other in a list. *)
Definition adjacent {A} (l : list A) (a b : A) : Prop :=
  ∃ k, l !! k = Some a ∧ l !! S k = Some b.

(** The final value of the series at position [i], and the y-position
    its label has before the de-collision pass. *)
Definition final_at (s : chart) (i : nat) : option num :=
  data s !! i ≫= final.

Definition naturalY `{!Env} (s : chart) (i : nat) : num :=
  yScale s (final_at s i).

(** The y attribute the pass has left on the label of position [i]. *)
Definition renderedY (s : chart) (i : nat) : option num :=
  ln_y <$> gLine s !! i.


(** The stroke colours of the series of one region. *)
Definition strokes_of (s : chart) (r : string) : list (option string) :=
  ln_stroke <$> filter (λ node, region (ln_datum node) = r) (gLine s).

(** The number of points of a triangulation, as [find] computes it. *)
Definition point_count (D : Delaunay) : Z := Z.of_nat (length (points D)) ≫ 1.

Definition in_range (D : Delaunay) (c : Z) : Prop := (0 ≤ c < point_count D)%Z.

(** The samples of one record, year by year. *)
Definition samples_of (ys : list string) (d : record) : list sample :=
  imap (λ j v, Sample (ys !! j) v (nutrient d)) (values d).

(** The invariant of the pointer handlers between two data updates: the
    index counts as many points as there are samples, there is at least
    one, and the remembered match is [null] or the position of a sample. *)
Definition hint_valid (s : chart) : Prop :=
  point_count (delaunay s) = Z.of_nat (length (flatData s))
  ∧ (0 < length (flatData s))%nat
  ∧ (iDelaunay s = None
     ∨ ∃ c, iDelaunay s = Some (JInt c)
            ∧ (0 ≤ c < Z.of_nat (length (flatData s)))%Z).

(** An element of a list that an order puts before all the others. *)
Definition extreme_for (le : Qc → Qc → Prop) (m : Qc) (qs : list Qc) : Prop :=
  m ∈ qs ∧ ∀ q, q ∈ qs → le m q.




(** The coordinate array of the pixel positions of the samples. *)
Definition flat_positions `{!Env} (s : chart) : list num :=
  (sample_position s <$> flatData s) ≫= λ p, [p.1; p.2].


(** The number of points of the index strictly closer to [(x, y)] than
    the point [i]: the measure that decreases along the walk of [find]. *)
Definition closer_count_for (D : Delaunay) (x y : Qc) (i : Z) : nat :=
  length (filter (λ j, lt (dist2 D (Num x) (Num y) (Some j))
                          (dist2 D (Num x) (Num y) (Some i)) = true)
            (seqZ 0 (point_count D))).

(** A loop whose passes are driven by a control state: a pass from [k]
    never ends ([None]), ends the loop ([Some None]) or leads to the pass
    from another control state; the data it carries is updated by [acc]
    and turned into the result by [out].  [passes k p] lists the control
    states of a loop from [k] that ends. *)
Section Loop.
Context {K A R : Type}.
Variables (ctl : K → option (option K)) (acc : K → A → A) (out : K → A → R).

Fixpoint loop (fuel : nat) (k : K) (a : A) : option R :=
  match fuel with
  | O => None
  | S fuel' =>
      match ctl k with
      | None => None
      | Some None => Some (out k a)
      | Some (Some k') => loop fuel' k' (acc k a)
      end
  end.

Inductive passes : K → list K → Prop :=
  | passes_last k : ctl k = Some None → passes k [k]
  | passes_next k k' p : ctl k = Some (Some k') → passes k' p → passes k (k :: p).

End Loop.

(** The loop of [_step] in that form: the control state is the halfedge
    [e], the data are the closest point so far and its distance. *)
Definition ring_ctl (D : Delaunay) (i : Z) (e0 e : option Z)
    : option (option (option Z)) :=
  let e1 := next_halfedge <$> e in
  if negb (bool_decide (at_opt (triangles D) e1 = Some i)) then Some None
  else
    let e2 := at_opt (halfedges D) e1 in
    if bool_decide (e2 = Some (-1)%Z) then Some None
    else if bool_decide (e2 = e0) then Some None
    else Some (Some e2).

Definition ring_acc (D : Delaunay) (x y : num) (e : option Z) (a : Z * num)
    : Z * num :=
  let t := at_opt (triangles D) e in
  if lt (dist2 D x y t) a.2 then (default a.1 t, dist2 D x y t) else a.

Definition ring_out (D : Delaunay) (i : Z) (x y : num) (e : option Z)
    (a : Z * num) : jsint :=
  let t := at_opt (triangles D) e in
  let a' := ring_acc D x y e a in
  let e1 := next_halfedge <$> e in
  if negb (bool_decide (at_opt (triangles D) e1 = Some i)) then JInt a'.1
  else if bool_decide (at_opt (halfedges D) e1 = Some (-1)%Z) then
    let eh := hull_next D i in
    if negb (bool_decide (eh = t)) && lt (dist2 D x y eh) a'.2
    then JInt (default a'.1 eh)
    else JInt a'.1
  else JInt a'.1.

(** The loop of [find] in that form: the control state is the point [i]. *)
Definition walk_ctl (D : Delaunay) (x y : num) (i0 i : Z) : option (option Z) :=
  match _step D i x y with
  | None => None
  | Some JNaN => Some None
  | Some (JInt c) =>
      if bool_decide (0 ≤ c)%Z && negb (bool_decide (c = i))
         && negb (bool_decide (c = i0))
      then Some (Some c) else Some None
  end.

Definition walk_out (D : Delaunay) (x y : num) (i : Z) (_ : unit) : jsint :=
  default JNaN (_step D i x y).

(** The regions whose checkbox is checked, in the order of the control. *)
Definition checked_values (c : regions_control) : list string :=
  datum <$> filter (λ it, checked (input it) = true) (items (rc_fieldset c)).

(** The control after clicks on the checkboxes of the items [ks], in
    turn. *)
Definition clicks (c : regions_control) (ks : list nat) : regions_control :=
  foldl (λ c k, (RegionsControl.click k c).1) c ks.

(** What the listener and the browser keep true of the regions control:
    it lists the regions, no more than [MAX_COUNT] are checked, and a
    checkbox is disabled exactly when it is not checked and [MAX_COUNT]
    others are. *)
Definition limit_kept (regions : list string) (c : regions_control) : Prop :=
  datum <$> items (rc_fieldset c) = regions
  ∧ (length (checked_values c) ≤ MAX_COUNT)%nat
  ∧ ∀ it, it ∈ items (rc_fieldset c) →
      (is_Some (cb_disabled (input it))
       ↔ length (checked_values c) = MAX_COUNT ∧ checked (input it) = false).

(** The page after the control events [es], in turn. *)
Definition control_steps `{!Env} (p : page) (es : list control_event) : page :=
  foldl control_step p es.

(** A region name without a hyphen: the join key
    [`${d.region}-${d.nutrient}`] then tells region and nutrient apart. *)
Definition hyphen_free (r : string) : Prop :=
  "-"%char ∉ list_ascii_of_string r.

(** The points of a path, between its [lineStart] and its [lineEnd]. *)
Definition vertices (path : list curve_call) : list (num * num) :=
  omap (λ c, match c with point x y => Some (x, y) | _ => None end) path.

(** The states of a chart from [s0] on: those the data updates with a
    record set that is [ok], and the pointer events, lead to.  A handler
    that throws leaves the closure as it was at the throw. *)
Inductive reachable `{!Env} (ok : list record → Prop) (s0 : chart)
    : chart → Prop :=
  | reachable_start : reachable ok s0 s0
  | reachable_update s ds :
      reachable ok s0 s → ok ds → reachable ok s0 (updateData s ds)
  | reachable_returns s e s' :
      reachable ok s0 s → handle s e = Returns s' → reachable ok s0 s'
  | reachable_throws s e s' :
      reachable ok s0 s → handle s e = Throws s' → reachable ok s0 s'.

(** The states that pointer events alone lead to. *)
Definition hovered `{!Env} (s0 s : chart) : Prop :=
  reachable (λ _, False) s0 s.

(** Two line elements that differ in their opacity at most. *)
Definition same_drawing (a b : line_node) : Prop :=
  ln_datum a = ln_datum b ∧ ln_text a = ln_text b
  ∧ ln_stroke a = ln_stroke b ∧ ln_d a = ln_d b
  ∧ ln_fill a = ln_fill b ∧ ln_y a = ln_y b.

(** Two states of the chart with the same data, scales, sample index and
    drawing; they may differ in the overlay, the opacities and the
    remembered match. *)
Definition same_chart (s s' : chart) : Prop :=
  years s' = years s ∧ width s' = width s ∧ data s' = data s
  ∧ regions s' = regions s ∧ yDomain s' = yDomain s
  ∧ colorDomain s' = colorDomain s ∧ flatData s' = flatData s
  ∧ delaunay s' = delaunay s ∧ thresholdRect s' = thresholdRect s
  ∧ gLines_order s' = gLines_order s
  ∧ Forall2 same_drawing (gLine s) (gLine s').

(** Every label reads the nutrient of the record its line is bound to,
    and no region of a bound record has a hyphen. *)
Definition labelled (s : chart) : Prop :=
  Forall (λ n, ln_text n = nutrient (ln_datum n)
               ∧ hyphen_free (region (ln_datum n))) (gLine s).

(** What the callback and its listeners keep true of the page made from
    the table [csv]: the filters are what the controls show, the records
    shown are the filtered ones, and the chart has been updated with
    them. *)
Definition in_sync `{!Env} (csv : table) (p : page) : Prop :=
  let '(ds, ys, nts, rs) := processData csv in
  app_data (pg_app p) = ds
  ∧ f_nutrientType (app_filters (pg_app p)) ∈ nts
  ∧ f_regions (app_filters (pg_app p)) = checked_values (pg_regions p)
  ∧ limit_kept rs (pg_regions p)
  ∧ (∀ it, it ∈ items (rc_fieldset (pg_regions p)) →
       lb_color (label it)
       = control_colorScale (checked_values (pg_regions p)) (datum it))
  ∧ pg_nutrientTypes p = renderNutrientTypeControl nts (nts !! 0%nat)
  ∧ filteredData (pg_app p) = filterData ds (app_filters (pg_app p))
  ∧ ∃ s, years s = ys
         ∧ app_chart (pg_app p) = updateData s (filteredData (pg_app p)).

(** ** Tables for the examples *)

Module Scenario.
Import Platform.

Definition years2 : list string := ["2018"; "2019"]%string.
Definition width810 : Qc := Qc_of_Z 810.

(** Two regions, listed south first, with one nutrient each. *)
Definition south : record :=
  Record_ "Vitamin" "Vitamin C" "South" [of_Z 100; of_Z 110].
Definition north : record :=
  Record_ "Vitamin" "Vitamin C" "North" [of_Z 105; of_Z 120].

Definition app0 : app :=
  {| app_data := [south; north];
     app_filters := Filters "Vitamin" ["South"%string];
     filteredData := [south];
     app_chart := updateData (renderChart width810 years2 [south; north]) [south] |}.

Definition app1 : app :=
  handleFilterChange app0 (regions_changed ["South"; "North"]%string).
Definition app2 : app :=
  handleFilterChange app1 (regions_changed ["North"%string]).

(** One region, two nutrients, a single year: two samples one above
    the other. *)
Definition years1 : list string := ["2019"%string].
Definition vitC : record := Record_ "Vitamin" "Vitamin C" "North" [of_Z 100].
Definition vitD : record := Record_ "Vitamin" "Vitamin D" "North" [of_Z 110].
Definition chart2 : chart :=
  updateData (renderChart width810 years1 [vitC; vitD]) [vitC; vitD].

(** Two series that end close to each other, on a domain from 0 to 200. *)
Definition low : record := Record_ "Mineral" "Iron" "North" [of_Z 0; of_Z 100].
Definition high : record := Record_ "Mineral" "Zinc" "North" [of_Z 200; of_Z 104].
Definition chart3 : chart := renderChart width810 years2 [low; high].

(** A series whose last year was not measured, listed before one that
    ends in a number. *)
Definition unmeasured : record :=
  Record_ "Vitamin" "Vitamin C" "South" [of_Z 100; NaN].
Definition chart4 : chart := renderChart width810 years2 [unmeasured; north].

(** A table with a field that is not a number. *)
Definition row1 : row :=
  {| Type_ := "Vitamin"; Nutrient := "Vitamin C"; Region := "North";
     cells := list_to_map [("2018", "100"); ("2019", "n/a");
                           ("2020", "110")]%string |}.
Definition table1 : table :=
  {| columns := ["Type"; "Nutrient"; "Region"; "2018"; "2019"; "2020"]%string;
     rows := [row1] |}.

(** The state a handler has returned, for stating what it is. *)
Definition returned (o : outcome) (otherwise : chart) : chart :=
  match o with
  | Returns s => s
  | _ => otherwise
  end.

End Scenario.

(** ** A table for the page *)

Module Pages.
Import Platform Scenario.

(** Two vitamin rows, south then north, and one mineral row of the
    north, over two years. *)
Definition row_south : row :=
  {| Type_ := "Vitamin"; Nutrient := "Vitamin C"; Region := "South";
     cells := list_to_map [("2018", "100"); ("2019", "110")]%string |}.
Definition row_north : row :=
  {| Type_ := "Vitamin"; Nutrient := "Vitamin C"; Region := "North";
     cells := list_to_map [("2018", "105"); ("2019", "120")]%string |}.
Definition row_iron : row :=
  {| Type_ := "Mineral"; Nutrient := "Iron"; Region := "North";
     cells := list_to_map [("2018", "95"); ("2019", "98")]%string |}.
Definition table2 : table :=
  {| columns := ["Type"; "Nutrient"; "Region"; "2018"; "2019"]%string;
     rows := [row_south; row_north; row_iron] |}.

Definition three_regions : list string := ["North"; "South"; "East"]%string.

(** A record without values, and one whose only value is not a number. *)
Definition bare : record := Record_ "Vitamin" "Vitamin C" "North" [].
Definition blank : record := Record_ "Vitamin" "Vitamin C" "North" [NaN].

(** The chart of [vitC] and [vitD] after a move onto the upper sample. *)
Definition chart2_moved : chart :=
  returned (handleMouseMove chart2 (Qc_of_Z 330) (Qc_of_Z 40)) chart2.

End Pages.

(** * Properties *)

(** Linear arithmetic over [Qc] through [lra] on the underlying [Q]. *)
Lemma Qc_eq_Qeq (x y : Qc) : x = y → (this x == this y)%Q.
Proof. intros ->. reflexivity. Qed.

Ltac qc_unfold :=
  unfold Qcle, Qclt, Qcminus, Qcplus, Qcopp, Qcmult, Q2Qc, Qc_of_Z in *;
  simpl this in *; rewrite ?Qred_correct in *; unfold inject_Z in *.

Ltac qc_lra :=
  repeat match goal with
  | |- @eq Qc _ _ => apply Qc_is_canon
  | H : @eq Qc _ _ |- _ => apply Qc_eq_Qeq in H
  end; qc_unfold; lra.

Section Properties.
Context `{!Env}.

(** ** The filter evaluator *)

Lemma Array_filter_filter {A} (keep : A → bool) (l : list A) :
  Array_filter keep l = filter (λ x, keep x = true) l.
Proof.
  induction l as [|x l IH]; [done|]. simpl.
  rewrite filter_cons. destruct (keep x) eqn:Hx.
  - rewrite decide_True by done. by f_equal.
  - rewrite decide_False by done. done.
Qed.

Lemma filterData_keep_true (fs : filters) (d : record) :
  filterData_keep fs d = true ↔
  nutrientType d = f_nutrientType fs ∧ region d ∈ f_regions fs.
Proof.
  unfold filterData_keep. repeat case_bool_decide; simpl; naive_solver.
Qed.

(** C4. For every record set and filter state, [filterData] returns
    exactly the records whose nutrient type equals the selected one and
    whose region is among the selected regions, in the order of the input
    (the result is a subsequence of it); the filter-change handler, which
    is where the script calls it, leaves the full record set as it was. *)
Theorem filterData_exact_ordered_pure (ds : list record) (fs : filters) :
  filterData ds fs
    = filter (λ d, nutrientType d = f_nutrientType fs ∧ region d ∈ f_regions fs) ds
  ∧ (∀ d, d ∈ filterData ds fs ↔
          d ∈ ds ∧ nutrientType d = f_nutrientType fs ∧ region d ∈ f_regions fs)
  ∧ filterData ds fs `sublist_of` ds
  ∧ filterData (filterData ds fs) fs = filterData ds fs
  ∧ (∀ (a : app) (ev : detail),
       app_data (handleFilterChange a ev) = app_data a
       ∧ filteredData (handleFilterChange a ev)
         = filterData (app_data a) (app_filters (handleFilterChange a ev))).
Proof.
  assert (Hfilter : filterData ds fs
    = filter (λ d, nutrientType d = f_nutrientType fs ∧ region d ∈ f_regions fs) ds).
  { unfold filterData. rewrite Array_filter_filter.
    apply list_filter_iff. intros d. apply filterData_keep_true. }
  split; [exact Hfilter|]. split; [|split; [|split]].
  - intros d. rewrite Hfilter, list_elem_of_filter. naive_solver.
  - rewrite Hfilter. apply sublist_filter.
  - unfold filterData. rewrite !Array_filter_filter.
    apply list_filter_filter_l. done.
  - intros a ev. by destruct ev.
Qed.

(** ** The y-domain rule *)

Section Extremum.
(** [d3.min] and [d3.max] are the same fold for the two directions of
    the order; [le a b] reads "[a] is kept when [b] comes after it". *)
Variable le : Qc → Qc → Prop.
Variable step : option num → option num → option num.
Hypothesis le_refl : ∀ a, le a a.
Hypothesis le_trans : ∀ a b c, le a b → le b c → le a c.
Hypothesis le_total : ∀ a b, le a b ∨ le b a.
Hypothesis step_skip : ∀ acc, step acc None = acc.
Hypothesis step_nan : ∀ acc : option Qc, step (Num <$> acc) (Some NaN) = Num <$> acc.
Hypothesis step_first : ∀ q, step None (Some (Num q)) = Some (Num q).
Hypothesis step_next : ∀ a q,
  step (Some (Num a)) (Some (Num q)) = Some (Num a) ∧ le a q
  ∨ step (Some (Num a)) (Some (Num q)) = Some (Num q) ∧ le q a.

Local Abbreviation extreme := (extreme_for le).

Lemma numbers_of_cons_num q vs :
  numbers_of (Some (Num q) :: vs) = q :: numbers_of vs.
Proof. done. Qed.

Lemma fold_extreme (vs : list (option num)) (acc : option Qc) :
  ∃ r : option Qc,
    foldl step (Num <$> acc) vs = Num <$> r
    ∧ match r with
      | Some m => extreme m (option_list acc ++ numbers_of vs)
      | None => acc = None ∧ numbers_of vs = []
      end.
Proof.
  revert acc. induction vs as [|v vs IH]; intros acc.
  - exists acc. split; [done|]. destruct acc as [a|]; simpl; [|done].
    split; [set_solver|]. intros q Hq.
    assert (q = a) as -> by set_solver. apply le_refl.
  - cbn [foldl]. destruct v as [[q|]|].
    + destruct acc as [a|]; cbn [fmap option_fmap option_map].
      * destruct (step_next a q) as [[-> Hle]|[-> Hle]].
        -- destruct (IH (Some a)) as (r & Hr & Hspec). exists r.
           split; [done|]. destruct r as [m|]; [|naive_solver].
           simpl in Hspec. destruct Hspec as [Hin Hall].
           rewrite numbers_of_cons_num. split; [set_solver|].
           intros q' Hq'. simpl in Hq'.
           apply elem_of_cons in Hq' as [->|Hq']; [apply Hall; set_solver|].
           apply elem_of_cons in Hq' as [->|Hq'].
           ++ apply le_trans with a; [apply Hall; set_solver|done].
           ++ apply Hall. set_solver.
        -- destruct (IH (Some q)) as (r & Hr & Hspec). exists r.
           split; [done|]. destruct r as [m|]; [|naive_solver].
           simpl in Hspec. destruct Hspec as [Hin Hall].
           rewrite numbers_of_cons_num. split; [set_solver|].
           intros q' Hq'. simpl in Hq'.
           apply elem_of_cons in Hq' as [->|Hq'].
           ++ apply le_trans with q; [apply Hall; set_solver|done].
           ++ apply Hall. set_solver.
      * rewrite step_first.
        destruct (IH (Some q)) as (r & Hr & Hspec). exists r.
        split; [done|]. destruct r as [m|]; [|naive_solver]. done.
    + rewrite step_nan. destruct (IH acc) as (r & Hr & Hspec). by exists r.
    + rewrite step_skip. destruct (IH acc) as (r & Hr & Hspec). by exists r.
Qed.

Lemma fold_extreme_nested (ds : list record) :
  ∃ r : option Qc,
    foldl step None (fmap (λ d, foldl step None (fmap Some (values d))) ds)
      = Num <$> r
    ∧ match r with
      | Some m => extreme m (visible_values ds)
      | None => visible_values ds = []
      end.
Proof.
  set (inner := λ d : record, foldl step None (fmap Some (values d))).
  assert (Hinner : ∀ d, ∃ r : option Qc, inner d = Num <$> r
    ∧ match r with
      | Some m => extreme m (numbers_of (fmap Some (values d)))
      | None => numbers_of (fmap Some (values d)) = []
      end).
  { intros d. destruct (fold_extreme (fmap Some (values d)) None) as (r & Hr & Hs).
    exists r. split; [done|]. destruct r; naive_solver. }
  assert (Hvis : ∀ q, q ∈ visible_values ds ↔
    ∃ d, d ∈ ds ∧ q ∈ numbers_of (fmap Some (values d))).
  { intros q. unfold visible_values, numbers_of.
    rewrite !list_elem_of_omap. split.
    - intros (v & Hv & Hq). apply list_elem_of_fmap in Hv as (w & -> & Hw).
      apply list_elem_of_join in Hw as (l & Hw & Hl).
      apply list_elem_of_fmap in Hl as (d & -> & Hd).
      exists d. split; [done|]. apply list_elem_of_omap.
      exists (Some w). split; [|done]. by apply list_elem_of_fmap_2.
    - intros (d & Hd & Hq). apply list_elem_of_omap in Hq as (v & Hv & Hq).
      apply list_elem_of_fmap in Hv as (w & -> & Hw).
      exists (Some w). split; [|done]. apply list_elem_of_fmap_2.
      apply list_elem_of_join. exists (values d). split; [done|].
      by apply list_elem_of_fmap_2. }
  assert (Hout : ∀ q, q ∈ numbers_of (fmap inner ds) ↔
    ∃ d, d ∈ ds ∧ inner d = Some (Num q)).
  { intros q. unfold numbers_of. rewrite list_elem_of_omap. split.
    - intros (v & Hv & Hq). apply list_elem_of_fmap in Hv as (d & -> & Hd).
      exists d. split; [done|]. destruct (inner d) as [[?|]|]; naive_solver.
    - intros (d & Hd & Hq). exists (inner d). rewrite Hq. split; [|done].
      rewrite <- Hq. by apply list_elem_of_fmap_2. }
  destruct (fold_extreme (fmap inner ds) None) as (r & Hr & Hspec).
  exists r. split; [done|]. destruct r as [m|].
  - simpl in Hspec. destruct Hspec as [Hin Hall]. split.
    + apply Hout in Hin as (d & Hd & Hm). apply Hvis. exists d. split; [done|].
      destruct (Hinner d) as ([m'|] & Hr' & Hs'); rewrite Hr' in Hm; [|done].
      simplify_eq/=. apply Hs'.
    + intros q Hq. apply Hvis in Hq as (d & Hd & Hq).
      destruct (Hinner d) as ([m'|] & Hr' & Hs').
      * apply le_trans with m'; [|by apply Hs'].
        apply Hall, Hout. by exists d.
      * rewrite Hs' in Hq. by apply elem_of_nil in Hq.
  - destruct Hspec as [_ Hnone]. apply elem_of_nil_inv. intros q Hq.
    apply Hvis in Hq as (d & Hd & Hq).
    destruct (Hinner d) as ([m'|] & Hr' & Hs').
    + assert (m' ∈ numbers_of (fmap inner ds)) as Hm by (apply Hout; by exists d).
      rewrite Hnone in Hm. by apply elem_of_nil in Hm.
    + rewrite Hs' in Hq. by apply elem_of_nil in Hq.
Qed.

End Extremum.

Lemma d3_min_visible (ds : list record) (lo : Qc) :
  least lo (visible_values ds) →
  d3_min (fmap (λ d, d3_min (fmap Some (values d))) ds) = Some (Num lo).
Proof.
  intros [Hin Hall]. rewrite Forall_forall in Hall.
  destruct (fold_extreme_nested Qcle min_step) with (ds := ds)
    as (r & Hr & Hspec).
  - apply Qcle_refl.
  - apply Qcle_trans.
  - intros a b. destruct (Qclt_le_dec a b); auto using Qclt_le_weak.
  - done.
  - by intros [a|].
  - intros q. unfold min_step, ge. by rewrite bool_decide_true by apply Qcle_refl.
  - intros a q. unfold min_step, gt, lt. case_bool_decide; [right|left].
    + split; [done|]. by apply Qclt_le_weak.
    + split; [done|]. by apply Qcnot_lt_le.
  - unfold d3_min. rewrite Hr. destruct r as [m|].
    + destruct Hspec as [Hm Hmall]. simpl. do 2 f_equal.
      apply Qcle_antisym; [by apply Hmall|by apply Hall].
    + rewrite Hspec in Hin. by apply elem_of_nil in Hin.
Qed.

Lemma d3_max_visible (ds : list record) (hi : Qc) :
  greatest hi (visible_values ds) →
  d3_max (fmap (λ d, d3_max (fmap Some (values d))) ds) = Some (Num hi).
Proof.
  intros [Hin Hall]. rewrite Forall_forall in Hall.
  destruct (fold_extreme_nested (λ a b, b ≤ a) max_step) with (ds := ds)
    as (r & Hr & Hspec).
  - intros a. apply Qcle_refl.
  - intros a b c ??. by apply Qcle_trans with b.
  - intros a b. destruct (Qclt_le_dec a b); auto using Qclt_le_weak.
  - done.
  - by intros [a|].
  - intros q. unfold max_step, ge. by rewrite bool_decide_true by apply Qcle_refl.
  - intros a q. unfold max_step, lt. case_bool_decide; [right|left].
    + split; [done|]. by apply Qclt_le_weak.
    + split; [done|]. by apply Qcnot_lt_le.
  - unfold d3_max. rewrite Hr. destruct r as [m|].
    + destruct Hspec as [Hm Hmall]. simpl. do 2 f_equal.
      apply Qcle_antisym; [by apply Hall|by apply Hmall].
    + rewrite Hspec in Hin. by apply elem_of_nil in Hin.
Qed.

(** [updateChart] redraws; it leaves the closure variables alone, except
    for the colour domain that the scale calls thread. *)
Ltac updateChart_field :=
  intros; unfold updateChart;
  repeat match goal with
  | |- context [colorScale_each ?d ?rs] => destruct (colorScale_each d rs)
  end; reflexivity.

Lemma updateChart_yDomain s : yDomain (updateChart s) = yDomain s.
Proof. updateChart_field. Qed.
Lemma updateChart_data s : data (updateChart s) = data s.
Proof. updateChart_field. Qed.
Lemma updateChart_years s : years (updateChart s) = years s.
Proof. updateChart_field. Qed.
Lemma updateChart_width s : width (updateChart s) = width s.
Proof. updateChart_field. Qed.
Lemma updateChart_flatData s : flatData (updateChart s) = flatData s.
Proof. updateChart_field. Qed.
Lemma updateChart_delaunay s : delaunay (updateChart s) = delaunay s.
Proof. updateChart_field. Qed.
Lemma updateChart_iDelaunay s : iDelaunay (updateChart s) = iDelaunay s.
Proof. updateChart_field. Qed.
Lemma updateChart_gDot s : gDot (updateChart s) = gDot s.
Proof. updateChart_field. Qed.
Lemma updateChart_gDots_display s :
  gDots_display (updateChart s) = gDots_display s.
Proof. updateChart_field. Qed.

Lemma updateData_yDomain (s : chart) (ds : list record) :
  yDomain (updateData s ds) = nice (minY ds, number (maxY ds)).
Proof. unfold updateData, processData_chart. by rewrite updateChart_yDomain. Qed.

(** C3. On a data update whose visible records hold at least one number,
    the y-domain is the nice-rounding of the pair made of
    [min(90, least visible value)] and the greatest visible value; when
    every visible value is at least 95 the lower bound given to the
    rounding is 90, and when the least visible value is 60 it is 60. *)
Theorem yDomain_rule (s : chart) (ds : list record) (lo hi : Qc) :
  least lo (visible_values ds) →
  greatest hi (visible_values ds) →
  yDomain (updateData s ds) = nice (Num (Qc_min (Qc_of_Z 90) lo), Num hi)
  ∧ (Qc_of_Z 95 ≤ lo → yDomain (updateData s ds) = nice (of_Z 90, Num hi))
  ∧ (lo = Qc_of_Z 60 → yDomain (updateData s ds) = nice (of_Z 60, Num hi)).
Proof.
  intros Hlo Hhi.
  assert (Hdom : yDomain (updateData s ds)
                 = nice (Num (Qc_min (Qc_of_Z 90) lo), Num hi)).
  { rewrite updateData_yDomain. unfold minY, maxY.
    rewrite (d3_min_visible ds lo Hlo), (d3_max_visible ds hi Hhi). done. }
  split; [exact Hdom|]. split.
  - intros H95. rewrite Hdom. unfold of_Z, Qc_min.
    rewrite bool_decide_true; [done|]. qc_lra.
  - intros ->. rewrite Hdom. unfold of_Z, Qc_min.
    rewrite bool_decide_false; [done|]. by vm_compute.
Qed.

(** ** The label de-collision pass *)

Section Sorting.
Context {A : Type} (compare : A → A → num) (R : A → A → Prop) (P : A → Prop).
Hypothesis before_R : ∀ x y, before compare x y = true → R x y.
Hypothesis not_before_R : ∀ x y, P x → P y → before compare y x = false → R x y.

Lemma sort_insert_perm (x : A) (l : list A) : sort_insert compare x l ≡ₚ x :: l.
Proof.
  induction l as [|y l IH]; [done|]. simpl.
  destruct (before compare y x); [|done].
  rewrite IH. apply Permutation_swap.
Qed.

Lemma Array_sort_perm (l : list A) : Array_sort compare l ≡ₚ l.
Proof.
  induction l as [|x l IH]; [done|]. simpl.
  by rewrite sort_insert_perm, IH.
Qed.




End Sorting.




Lemma label_order_perm (ds : list record) :
  label_order ds ≡ₚ imap pair ds.
Proof. apply Array_sort_perm. Qed.


Lemma label_order_fst (ds : list record) :
  (label_order ds).*1 ≡ₚ seq 0 (length ds).
Proof.
  rewrite label_order_perm, fmap_imap.
  rewrite (imap_ext _ (λ i _, i)) by done.
  by rewrite imap_seq_0, list_fmap_id.
Qed.


Lemma label_walk_fst s cur srt : (label_walk s cur srt).*1 = srt.*1.
Proof.
  revert cur. induction srt as [|[i d] srt IH]; intros cur; [done|].
  simpl. f_equal. apply IH.
Qed.



Lemma label_walk_elem s cur srt i y :
  (i, y) ∈ label_walk s cur srt →
  ∃ d prev, (i, d) ∈ srt ∧ y = Math_min (sub prev (of_Z 12)) (yScale s (final d)).
Proof.
  revert cur. induction srt as [|[i0 d0] srt IH]; intros cur; simpl.
  - by intros ?%elem_of_nil.
  - intros [Heq|Hin]%elem_of_cons.
    + simplify_eq. exists d0, cur. split; [left|done].
    + destruct (IH _ Hin) as (d & prev & Hd & Hy). exists d, prev.
      split; [by right|done].
Qed.






(** The scales read the closure only through the stored domains. *)
Lemma yScale_ext (s1 s2 : chart) v :
  yDomain s1 = yDomain s2 → yScale s1 v = yScale s2 v.
Proof. unfold yScale. by intros ->. Qed.



(** What the join and the attribute passes leave in [gLine]. *)
Lemma join_lines_length m ds : length (join_lines m ds) = length ds.
Proof.
  revert m. induction ds as [|d ds IH]; intros m; [done|]. simpl.
  destruct (assoc_take (key d) m) as [[node m']|]; simpl; by rewrite IH.
Qed.

Lemma join_lines_lookup m ds i node :
  join_lines m ds !! i = Some node → ds !! i = Some (ln_datum node).
Proof.
  revert m i. induction ds as [|d ds IH]; intros m i; [done|]. simpl.
  destruct (assoc_take (key d) m) as [[node0 m']|];
    (destruct i as [|i]; simpl; [intros ?; by simplify_eq|apply IH]).
Qed.

Lemma colorScale_each_length domain rs :
  length (colorScale_each domain rs).1 = length rs.
Proof.
  revert domain. induction rs as [|r rs IH]; intros domain; [done|]. simpl.
  destruct (ordinal_call Implicit COLOR_SCHEME domain r) as [c domain1].
  specialize (IH domain1). destruct (colorScale_each domain1 rs). simpl in *.
  by rewrite IH.
Qed.

Lemma zip3_lines_lookup s nodes strokes fills i :
  zip3_lines s nodes strokes fills !! i
  = node ← nodes !! i; st ← strokes !! i; fi ← fills !! i;
    Some (set_stroke_d_fill s node st fi).
Proof.
  revert strokes fills i.
  induction nodes as [|node nodes IH]; intros strokes fills i; [done|].
  destruct strokes as [|st strokes].
  { destruct i as [|i]; simpl; [done|]. by destruct (nodes !! i). }
  destruct fills as [|fi fills].
  { destruct i as [|i]; simpl; [done|]. by destruct (nodes !! i), (strokes !! i). }
  destruct i as [|i]; [done|]. simpl. apply IH.
Qed.

Lemma assoc_nat_elem {A} (l : list (nat * A)) (i : nat) (y : A) :
  NoDup l.*1 → (i, y) ∈ l → assoc_nat i l = Some y.
Proof.
  intros Hnd Hin. unfold assoc_nat.
  destruct (list_find_elem_of (λ p : nat * A, p.1 = i) l (i, y) Hin eq_refl)
    as [[k [j z]] Hfind].
  rewrite Hfind. simpl. f_equal.
  apply list_find_Some in Hfind as (Hk & Hj & _). simpl in Hj. subst j.
  apply list_elem_of_lookup in Hin as [k' Hk'].
  assert (k = k') as ->.
  { eapply NoDup_lookup; [exact Hnd| |]; rewrite list_lookup_fmap.
    - by rewrite Hk.
    - by rewrite Hk'. }
  by simplify_eq.
Qed.

Lemma updateChart_gLine_lookup s i d :
  data s !! i = Some d →
  let joined :=
    join_lines (nodeByKeyValue (omap (λ i, gLine s !! i) (gLines_order s)) [])
      (data s) in
  let rs := fmap (λ node, region (ln_datum node)) joined in
  let c1 := colorScale_each (colorDomain s) rs in
  let c2 := colorScale_each c1.2 rs in
  ∃ node st fi,
    joined !! i = Some node
    ∧ ln_datum node = d
    ∧ c1.1 !! i = Some st
    ∧ c2.1 !! i = Some fi
    ∧ gLine (updateChart s) !! i
      = Some (match assoc_nat i (label_layout s) with
              | Some y => set_y (set_stroke_d_fill s node st fi) y
              | None => set_stroke_d_fill s node st fi
              end)
    ∧ colorDomain (updateChart s) = c2.2.
Proof.
  intros Hd joined rs c1 c2. unfold updateChart.
  fold joined. fold rs. fold c1.
  pose proof (colorScale_each_length (colorDomain s) rs) as Hlen1. fold c1 in Hlen1.
  destruct c1 as [strokes domain1] eqn:Hc1.
  pose proof (colorScale_each_length domain1 rs) as Hlen2.
  subst c2. simpl. destruct (colorScale_each domain1 rs) as [fills domain2].
  simpl in *.
  assert (Hlenj : length joined = length (data s)) by apply join_lines_length.
  assert (Hlenr : length rs = length (data s)).
  { unfold rs. by rewrite length_fmap. }
  assert (Hi : (i < length (data s))%nat) by by eapply lookup_lt_Some.
  destruct (lookup_lt_is_Some_2 joined i) as [node Hnode]; [lia|].
  destruct (lookup_lt_is_Some_2 strokes i) as [st Hst]; [lia|].
  destruct (lookup_lt_is_Some_2 fills i) as [fi Hfi]; [lia|].
  exists node, st, fi. split; [done|]. split.
  { apply join_lines_lookup in Hnode. congruence. }
  split; [done|]. split; [done|]. split; [|done].
  rewrite list_lookup_imap, zip3_lines_lookup, Hnode, Hst, Hfi. simpl.
  by destruct (assoc_nat i (label_layout s)).
Qed.

Lemma updateData_data (s : chart) (ds : list record) : data (updateData s ds) = ds.
Proof. unfold updateData, processData_chart. by rewrite updateChart_data. Qed.









(** ** Series colours *)

Lemma dedupe_step_elem acc x y :
  y ∈ dedupe_step acc x ↔ y ∈ acc ∨ y = x.
Proof.
  unfold dedupe_step. case_bool_decide; [|set_solver]. split; [auto|].
  intros [?| ->]; done.
Qed.

Lemma dedupe_fold_spec (l acc : list string) :
  NoDup acc →
  NoDup (foldl dedupe_step acc l)
  ∧ (∀ y, y ∈ foldl dedupe_step acc l ↔ y ∈ acc ∨ y ∈ l)
  ∧ acc `prefix_of` foldl dedupe_step acc l.
Proof.
  revert acc. induction l as [|x l IH]; intros acc Hnd; simpl.
  - split; [done|]. split; [set_solver|done].
  - destruct (IH (dedupe_step acc x)) as (Hnd' & Hel & Hpre).
    { unfold dedupe_step. case_bool_decide; [done|].
      apply NoDup_app. split; [done|]. split; [set_solver|apply NoDup_singleton]. }
    split; [done|]. split.
    + intros y. rewrite Hel, dedupe_step_elem. set_solver.
    + etrans; [|exact Hpre]. unfold dedupe_step.
      case_bool_decide; [done|]. by apply prefix_app_r.
Qed.

Lemma dedupe_NoDup l : NoDup (dedupe l).
Proof. apply dedupe_fold_spec, NoDup_nil_2. Qed.

Lemma dedupe_elem l y : y ∈ dedupe l ↔ y ∈ l.
Proof.
  destruct (dedupe_fold_spec l [] (NoDup_nil_2)) as (_ & Hel & _).
  rewrite Hel. set_solver.
Qed.

Lemma dedupe_fold_NoDup (l acc : list string) :
  NoDup (acc ++ l) → foldl dedupe_step acc l = acc ++ l.
Proof.
  revert acc. induction l as [|x l IH]; intros acc Hnd; simpl.
  - by rewrite app_nil_r.
  - unfold dedupe_step at 2. rewrite bool_decide_false.
    + rewrite IH; rewrite <- app_assoc; done.
    + apply NoDup_app in Hnd as (_ & Hdisj & _). intros Hin.
      apply (Hdisj x Hin). left.
Qed.

Lemma dedupe_idemp l : dedupe (dedupe l) = dedupe l.
Proof. unfold dedupe at 1. apply (dedupe_fold_NoDup _ []), dedupe_NoDup. Qed.

Lemma indexOf_from_lookup (l : list string) (k : Z) (j : nat) (x : string) :
  NoDup l → l !! j = Some x → indexOf_from k l (Some x) = (k + Z.of_nat j)%Z.
Proof.
  revert k j. induction l as [|y l IH]; intros k j Hnd Hj; [done|]. simpl.
  apply NoDup_cons in Hnd as [Hy Hnd]. destruct j as [|j]; simpl in Hj.
  - simplify_eq. rewrite bool_decide_true by done. lia.
  - rewrite bool_decide_false.
    + rewrite (IH _ j) by done. lia.
    + intros ?; simplify_eq. apply Hy. by eapply list_elem_of_lookup_2.
Qed.

Lemma ordinal_call_known (policy : unknown_policy) (domain : list string)
    (r : string) (k : nat) :
  NoDup domain → domain !! k = Some r →
  ordinal_call policy COLOR_SCHEME domain r
  = (COLOR_SCHEME !! (k `mod` 2)%nat, domain).
Proof.
  intros Hnd Hk. unfold ordinal_call, indexOf.
  rewrite (indexOf_from_lookup domain 0 k r Hnd Hk).
  rewrite bool_decide_false by lia.
  by replace (Z.to_nat (0 + Z.of_nat k)) with k by lia.
Qed.

(** The palette entry of a region at a known position of the domain. *)
Lemma colorScale_each_known (domain rs : list string) :
  NoDup domain → Forall (λ r, r ∈ domain) rs →
  (colorScale_each domain rs).2 = domain
  ∧ ∀ i r k, rs !! i = Some r → domain !! k = Some r →
      (colorScale_each domain rs).1 !! i = Some (COLOR_SCHEME !! (k `mod` 2)%nat).
Proof.
  intros Hnd. induction 1 as [|r rs Hr Hrs IH]; simpl; [done|].
  apply list_elem_of_lookup in Hr as [k0 Hk0].
  rewrite (ordinal_call_known Implicit domain r k0 Hnd Hk0).
  destruct IH as [IH2 IH1]. destruct (colorScale_each domain rs) as [cs dom2].
  simpl in *. split; [done|]. intros i r' k Hi Hk.
  destruct i as [|i]; simpl in *.
  - simplify_eq. by assert (k0 = k) as -> by (eapply NoDup_lookup; eauto).
  - by eapply IH1.
Qed.

Lemma updateData_gLine_colours (s : chart) (ds : list record) (i k : nat)
    (d : record) :
  ds !! i = Some d →
  dedupe (region <$> ds) !! k = Some (region d) →
  ∃ node,
    gLine (updateData s ds) !! i = Some node
    ∧ ln_datum node = d
    ∧ ln_stroke node = COLOR_SCHEME !! (k `mod` 2)%nat
    ∧ ln_fill node = COLOR_SCHEME !! (k `mod` 2)%nat
    ∧ colorDomain (updateData s ds) = dedupe (region <$> ds).
Proof.
  intros Hd Hk. unfold updateData, processData_chart.
  set (s2 := {| years := _ |}).
  assert (Hdata : data s2 = ds) by done.
  assert (Hdom : colorDomain s2 = dedupe (region <$> ds)).
  { simpl. unfold ordinal_domain. apply dedupe_idemp. }
  assert (Hd2 : data s2 !! i = Some d) by done.
  destruct (updateChart_gLine_lookup s2 i d Hd2)
    as (node & st & fi & Hnode & Hdatum & Hst & Hfi & Hline & Hcd).
  set (joined := join_lines _ (data s2)) in *.
  set (rs := fmap _ joined) in *.
  assert (Hrs : Forall (λ r, r ∈ colorDomain s2) rs).
  { apply Forall_forall. intros r Hr. rewrite Hdom. apply dedupe_elem.
    apply list_elem_of_fmap in Hr as (n & -> & Hn).
    apply list_elem_of_lookup in Hn as [j Hj].
    apply join_lines_lookup in Hj. rewrite Hdata in Hj.
    apply list_elem_of_fmap. exists (ln_datum n). split; [done|].
    by eapply list_elem_of_lookup_2. }
  assert (Hnd : NoDup (colorDomain s2)) by (rewrite Hdom; apply dedupe_NoDup).
  destruct (colorScale_each_known (colorDomain s2) rs Hnd Hrs) as [Hdom1 Hcol1].
  rewrite Hdom1 in Hfi, Hcd. rewrite Hdom1 in Hcd.
  assert (Hri : rs !! i = Some (region d)).
  { unfold rs. rewrite list_lookup_fmap, Hnode. simpl. by rewrite Hdatum. }
  rewrite <- Hdom in Hk.
  rewrite (Hcol1 i (region d) k Hri Hk) in Hst, Hfi.
  injection Hst as <-. injection Hfi as <-.
  eexists. split; [exact Hline|].
  rewrite Hcd, Hdom.
  by destruct (assoc_nat i (label_layout s2)).
Qed.

Lemma control_colorScale_unknown (currentValues : list string) (r : string) :
  r ∉ currentValues → control_colorScale currentValues r = Some "currentColor"%string.
Proof.
  intros Hr. unfold control_colorScale, ordinal_call, ordinal_domain.
  assert (Hnot : r ∉ dedupe currentValues) by by rewrite dedupe_elem.
  assert (Hidx : ∀ l k, r ∉ l → indexOf_from k l (Some r) = (-1)%Z).
  { induction l as [|y l IH]; intros k Hl; [done|]. simpl.
    rewrite bool_decide_false by (intros ?; simplify_eq; set_solver).
    apply IH. set_solver. }
  unfold indexOf. rewrite Hidx by done. by rewrite bool_decide_true.
Qed.

(** C9, as the script has it.  The stroke and the fill of a series are
    the palette entry at the position of its region among the distinct
    regions of the visible records, taken in order of first appearance,
    modulo the two palette entries; every drawn series therefore has a
    palette colour, and the mapping is recomputed from the visible
    records on each data update.  The neutral ["currentColor"] is what
    the region control's own scale answers for a region that is not
    checked. *)
Theorem series_colour_by_position (s : chart) (ds : list record) (i k : nat)
    (d : record) :
  ds !! i = Some d →
  dedupe (region <$> ds) !! k = Some (region d) →
  (∃ node c,
     gLine (updateData s ds) !! i = Some node
     ∧ ln_datum node = d
     ∧ COLOR_SCHEME !! (k `mod` 2)%nat = Some c
     ∧ ln_stroke node = Some c
     ∧ ln_fill node = Some c)
  ∧ colorDomain (updateData s ds) = dedupe (region <$> ds)
  ∧ (∀ currentValues r, r ∉ currentValues →
       control_colorScale currentValues r = Some "currentColor"%string).
Proof.
  intros Hd Hk.
  destruct (updateData_gLine_colours s ds i k d Hd Hk)
    as (node & Hnode & Hdatum & Hst & Hfi & Hdom).
  split; [|split; [done|apply control_colorScale_unknown]].
  assert (Hc : is_Some (COLOR_SCHEME !! (k `mod` 2)%nat)).
  { apply lookup_lt_is_Some. change (length COLOR_SCHEME) with 2%nat.
    apply Nat.mod_upper_bound. lia. }
  destruct Hc as [c Hc]. exists node, c. by rewrite Hst, Hfi.
Qed.

(** ** Non-numeric fields *)

Lemma line_loop_defined {A} (x y : A → nat → num) (i : nat) (data : list A) :
  line_loop (λ _, true) x y i true data
  = imap (λ j d, point (x d (i + j)%nat) (y d (i + j)%nat)) data ++ [lineEnd].
Proof.
  revert i. induction data as [|d data IH]; intros i; [done|]. simpl.
  rewrite IH. rewrite Nat.add_0_r. do 2 f_equal.
  apply imap_ext. intros j d' _. simpl. by rewrite Nat.add_succ_r.
Qed.

(** A generator that accepts every point emits one unbroken segment. *)
Lemma line_all_defined {A} (x y : A → nat → num) (d : A) (data : list A) :
  line (λ _, true) x y (d :: data)
  = lineStart :: imap (λ j d, point (x d j) (y d j)) (d :: data) ++ [lineEnd].
Proof.
  unfold line. simpl. rewrite line_loop_defined. done.
Qed.

Lemma processData_values (csv : table) (k i : nat) (d : row) (year : string) :
  rows csv !! k = Some d →
  drop 3 (columns csv) !! i = Some year →
  ∃ r, (processData csv).1.1.1 !! k = Some r
       ∧ values r !! i = Some (unary_plus (cells d !! year)).
Proof.
  intros Hk Hi. exists (row_record (drop 3 (columns csv)) d). simpl. split.
  - by rewrite list_lookup_fmap, Hk.
  - by rewrite list_lookup_fmap, Hi.
Qed.

(** Every record of the normaliser has one value per year, and filtering
    keeps that. *)
Lemma processData_values_length (csv : table) :
  Forall (λ d, length (values d) = length (processData csv).1.1.2)
    (processData csv).1.1.1.
Proof.
  simpl. apply Forall_fmap, Forall_forall. intros d _. simpl.
  by rewrite length_fmap.
Qed.

Lemma filterData_Forall (P : record → Prop) (ds : list record) (fs : filters) :
  Forall P ds → Forall P (filterData ds fs).
Proof.
  rewrite !Forall_forall. intros HP d Hd. apply HP.
  unfold filterData in Hd. rewrite Array_filter_filter in Hd.
  by apply list_elem_of_filter in Hd as [_ Hd].
Qed.

(** C7, as the script has it.  A year field that the coercion does not
    read as a number (or that is missing) becomes [NaN] at its place in
    the record's values, and building the records never fails.  The line
    generator has no [defined] test: whatever chart draws the record, the
    path is one unbroken segment through every value, and the sample of
    that year is passed to the curve with a [NaN] y-coordinate. *)
Theorem non_numeric_field_is_NaN_and_is_drawn (csv : table) (k i : nat)
    (d : row) (year : string) :
  rows csv !! k = Some d →
  drop 3 (columns csv) !! i = Some year →
  unary_plus (cells d !! year) = NaN →
  ∃ r, (processData csv).1.1.1 !! k = Some r
       ∧ values r !! i = Some NaN
       ∧ ∀ s : chart,
           lineGenerator s (values r)
           = lineStart
             :: imap (λ j v, point (xScale s (years s !! j)) (yScale s (Some v)))
                  (values r)
             ++ [lineEnd]
           ∧ point (xScale s (years s !! i)) NaN ∈ lineGenerator s (values r).
Proof.
  intros Hk Hi Hnan.
  destruct (processData_values csv k i d year Hk Hi) as (r & Hr & Hv).
  rewrite Hnan in Hv. exists r. split; [done|]. split; [done|]. intros s.
  assert (Hgen : lineGenerator s (values r)
    = lineStart
      :: imap (λ j v, point (xScale s (years s !! j)) (yScale s (Some v)))
           (values r)
      ++ [lineEnd]).
  { unfold lineGenerator. destruct (values r) as [|v vs] eqn:Hvs; [done|].
    apply line_all_defined. }
  split; [exact Hgen|]. rewrite Hgen. right. apply elem_of_app. left.
  apply elem_of_lookup_imap. exists i, NaN. split; [|done]. done.
Qed.

(** ** The nearest-sample walk *)

Lemma at_Z_Some {A} (l : list A) (k : Z) (a : A) :
  at_Z l k = Some a → (0 ≤ k < Z.of_nat (length l))%Z.
Proof.
  unfold at_Z. case_bool_decide; [|done]. intros Hl%lookup_lt_Some. lia.
Qed.

Lemma coord_Num (D : Delaunay) (k : option Z) (q : Qc) :
  coord D k = Num q →
  ∃ z, k = Some z ∧ (0 ≤ z < Z.of_nat (length (points D)))%Z.
Proof.
  unfold coord, at_opt. destruct k as [z|]; [|done]. simpl.
  destruct (at_Z (points D) z) eqn:Hz; [|done]. intros _.
  exists z. split; [done|]. by eapply at_Z_Some.
Qed.

(** A distance that is a number was measured to a point of the array. *)
Lemma dist2_Num (D : Delaunay) (x y : num) (t : option Z) (q : Qc) :
  dist2 D x y t = Num q → ∃ z, t = Some z ∧ in_range D z.
Proof.
  unfold dist2, add, pow2, mul, sub, lift2.
  destruct x as [x|]; [|done]. destruct y as [y|].
  2:{ by destruct (coord D _). }
  destruct (coord D ((λ t, t * 2)%Z <$> t)) as [a|] eqn:Ha; [|done].
  destruct (coord D ((λ t, t * 2 + 1)%Z <$> t)) as [b|] eqn:Hb; [|done].
  intros _. apply coord_Num in Hb as (z & Hz & Hrange).
  destruct t as [t|]; [|done]. simpl in Hz. simplify_eq.
  exists t. split; [done|]. unfold in_range, point_count.
  rewrite Z.shiftr_div_pow2 by lia. change (2 ^ 1)%Z with 2%Z.
  assert (t + 1 ≤ Z.of_nat (length (points D)) `div` 2)%Z
    by (apply Z.div_le_lower_bound; lia).
  lia.
Qed.

Lemma lt_Num_l (a b : num) : lt a b = true → ∃ q, a = Num q.
Proof. destruct a; [eauto|done]. Qed.

Lemma step_loop_in_range fuel D i x y e0 e c dc r :
  in_range D c →
  step_loop fuel D i x y e0 e c dc = Some (JInt r) → in_range D r.
Proof.
  revert e c dc. induction fuel as [|fuel IH]; intros e c dc Hc; [done|].
  simpl.
  set (t := at_opt (triangles D) e).
  set (c' := if lt (dist2 D x y t) dc then default c t else c).
  set (dc' := if lt (dist2 D x y t) dc then dist2 D x y t else dc).
  assert (Hc' : in_range D c').
  { unfold c'. destruct (lt (dist2 D x y t) dc) eqn:Hlt; [|done].
    apply lt_Num_l in Hlt as [q Hq].
    apply dist2_Num in Hq as (z & -> & Hz). done. }
  destruct (negb _); [intros ?; by simplify_eq|].
  case_bool_decide.
  - destruct (negb _ && lt (dist2 D x y (hull_next D i)) dc') eqn:Hh.
    + apply andb_true_iff in Hh as [_ Hlt].
      apply lt_Num_l in Hlt as [q Hq].
      apply dist2_Num in Hq as (z & -> & Hz). intros ?; by simplify_eq.
    + intros ?; by simplify_eq.
  - case_bool_decide; [intros ?; by simplify_eq|]. by apply IH.
Qed.

Lemma step_in_range D i x y r :
  in_range D i → _step D i x y = Some (JInt r) → in_range D r.
Proof.
  intros Hi. unfold _step. destruct (_ || _).
  - unfold rem. fold (point_count D). case_bool_decide; [done|].
    intros ?; simplify_eq. unfold in_range in *.
    pose proof (Z.rem_bound_pos (i + 1) (point_count D)). lia.
  - by apply step_loop_in_range.
Qed.

Lemma step_loop_not_NaN fuel D i x y e0 e c dc :
  step_loop fuel D i x y e0 e c dc ≠ Some JNaN.
Proof.
  revert e c dc. induction fuel as [|fuel IH]; intros e c dc; [done|]. simpl.
  repeat (case_match; try done).
Qed.

(** On a triangulation with at least one point, a step from a point
    index gives a point index. *)
Lemma step_not_NaN D i x y : (0 < point_count D)%Z → _step D i x y ≠ Some JNaN.
Proof.
  intros Hn. unfold _step. destruct (_ || _).
  - unfold rem. fold (point_count D). rewrite bool_decide_false by lia. done.
  - apply step_loop_not_NaN.
Qed.

Lemma find_loop_in_range fuel D x y i0 i r :
  in_range D i → find_loop fuel D x y i0 i = Some r →
  ∃ c, r = JInt c ∧ in_range D c.
Proof.
  revert i. induction fuel as [|fuel IH]; intros i Hi; [done|]. simpl.
  destruct (_step D i x y) as [[|c]|] eqn:Hstep; [| |done].
  - exfalso. apply (step_not_NaN D i x y); [|done]. unfold in_range in Hi. lia.
  - pose proof (step_in_range D i x y c Hi Hstep) as Hc.
    destruct (_ && _); [by apply IH|]. intros ?; simplify_eq. eauto.
Qed.

Lemma find_Num D (x y : Qc) i :
  find D (Num x) (Num y) i
  = find_loop (S (S (length (points D)))) D (Num x) (Num y) i i.
Proof. reflexivity. Qed.

Lemma find_in_range D (x y : Qc) i r :
  in_range D i → find D (Num x) (Num y) i = Some r →
  ∃ c, r = JInt c ∧ in_range D c.
Proof. rewrite find_Num. apply find_loop_in_range. Qed.

(** Where the walk stops: at its starting point, or at a point from
    which a step goes nowhere. *)
Lemma find_loop_exit fuel D x y i0 i c :
  find_loop fuel D x y i0 i = Some (JInt c) → (0 ≤ c)%Z →
  c = i0 ∨ _step D c x y = Some (JInt c).
Proof.
  revert i. induction fuel as [|fuel IH]; intros i; [done|]. simpl.
  destruct (_step D i x y) as [[|c']|] eqn:Hstep; [done| |done].
  destruct (bool_decide (0 ≤ c')%Z && negb (bool_decide (c' = i))
            && negb (bool_decide (c' = i0))) eqn:Hcond; [apply IH|].
  intros ? Hc; simplify_eq.
  rewrite !andb_false_iff, !negb_false_iff, !bool_decide_eq_false,
    !bool_decide_eq_true in Hcond.
  destruct Hcond as [[?| ->]| ->]; [lia|by right|by left].
Qed.

(** Asking again from the answer gives the answer again. *)
Lemma find_again D (x y : Qc) i0 c :
  find D (Num x) (Num y) i0 = Some (JInt c) → (0 ≤ c)%Z →
  find D (Num x) (Num y) c = Some (JInt c).
Proof.
  intros Hfind Hc. assert (Hfind' := Hfind). rewrite find_Num in Hfind |- *.
  apply find_loop_exit in Hfind as [->|Hstep]; [by rewrite <- find_Num| |done].
  cbn [find_loop]. rewrite Hstep.
  by rewrite (bool_decide_true (c = c)), andb_false_r by done.
Qed.

(** ** Repeated pointer positions *)

Lemma differs_false (i : jsint) (previous : option jsint) :
  differs i previous = false ↔ ∃ c, i = JInt c ∧ previous = Some (JInt c).
Proof.
  unfold differs. destruct i as [|a]; [naive_solver|].
  destruct previous as [[|b]|]; try naive_solver.
  rewrite negb_false_iff, bool_decide_eq_true. naive_solver.
Qed.

Lemma at_jsint_Some {A} (l : list A) (i : jsint) (a : A) :
  at_jsint l i = Some a →
  ∃ c, i = JInt c ∧ (0 ≤ c < Z.of_nat (length l))%Z.
Proof.
  destruct i as [|c]; [done|]. simpl. intros Hc%at_Z_Some. eauto.
Qed.

(** What a pointer move leaves in place, whatever it finds. *)
Lemma handleMouseMove_Returns (s s1 : chart) (xm ym : Qc) :
  handleMouseMove s xm ym = Returns s1 →
  s1 = s
  ∨ ∃ c, find (delaunay s) (Num xm) (Num ym) (hint (iDelaunay s)) = Some (JInt c)
         ∧ (0 ≤ c < Z.of_nat (length (flatData s)))%Z
         ∧ iDelaunay s1 = Some (JInt c)
         ∧ delaunay s1 = delaunay s
         ∧ flatData s1 = flatData s
         ∧ data s1 = data s
         ∧ years s1 = years s.
Proof.
  unfold handleMouseMove.
  destruct (find _ _ _ _) as [i|] eqn:Hfind; [|done].
  destruct (differs i (iDelaunay s)); [|intros ?; simplify_eq; by left].
  destruct (at_jsint (flatData s) i) as [[year value nutrient0]|] eqn:Hat; [|done].
  apply at_jsint_Some in Hat as (c & -> & Hc).
  destruct (colorScale_each _ _) as [fills domain1].
  intros ?; simplify_eq. right. exists c. done.
Qed.

(** C8. When a pointer move has returned, the same move again returns
    the same state: nothing of the overlay, of the series opacities or
    of the remembered index changes.  More generally the state is left
    as it is whenever the query gives the remembered index. *)
Theorem same_position_no_update (s s1 : chart) (xm ym : Qc) :
  handleMouseMove s xm ym = Returns s1 →
  handleMouseMove s1 xm ym = Returns s1
  ∧ (∀ c, iDelaunay s = Some (JInt c) →
          find (delaunay s) (Num xm) (Num ym) (hint (iDelaunay s))
            = Some (JInt c) →
          s1 = s).
Proof.
  intros Hmove. split.
  - destruct (handleMouseMove_Returns s s1 xm ym Hmove)
      as [->|(c & Hfind & Hc & Hi & HD & _)]; [done|].
    unfold handleMouseMove. rewrite HD, Hi. cbn [hint].
    rewrite (find_again _ _ _ _ _ Hfind) by lia.
    replace (differs (JInt c) (Some (JInt c))) with false; [done|].
    symmetry. apply differs_false. eauto.
  - intros c Hi Hfind. unfold handleMouseMove in Hmove.
    rewrite Hfind in Hmove.
    replace (differs (JInt c) (iDelaunay s)) with false in Hmove;
      [by simplify_eq|].
    symmetry. apply differs_false. eauto.
Qed.

(** ** The flattened samples and the index over them *)

Lemma push_values_spec ys d i vs flat :
  push_values ys d i vs flat
  = flat ++ imap (λ j v, Sample (ys !! (i + j)%nat) v (nutrient d)) vs.
Proof.
  revert i flat. induction vs as [|v vs IH]; intros i flat; simpl.
  - by rewrite app_nil_r.
  - rewrite IH, <- app_assoc. simpl. rewrite Nat.add_0_r. do 2 f_equal.
    apply imap_ext. intros j v' _. simpl. by rewrite Nat.add_succ_r.
Qed.

Lemma flatten_spec ys ds : flatten ys ds = ds ≫= samples_of ys.
Proof.
  unfold flatten.
  assert (Hgen : ∀ acc,
    foldl (λ flat d, push_values ys d 0 (values d) flat) acc ds
    = acc ++ (ds ≫= samples_of ys)).
  { induction ds as [|d ds IH]; intros acc.
    - simpl. by rewrite app_nil_r.
    - cbn [foldl]. rewrite IH, push_values_spec, bind_cons, <- app_assoc. done. }
  apply (Hgen []).
Qed.

Lemma bind_blocks_length {A B} (g : A → list B) (l : list A) (m : nat) :
  Forall (λ a, length (g a) = m) l → length (l ≫= g) = (length l * m)%nat.
Proof.
  induction 1 as [|a l Ha Hl IH]; [done|].
  rewrite bind_cons, length_app, IH, Ha. done.
Qed.

Lemma bind_blocks_lookup {A B} (g : A → list B) (l : list A) (m k i : nat)
    (a : A) (b : B) :
  Forall (λ a, length (g a) = m) l →
  l !! k = Some a → g a !! i = Some b →
  (l ≫= g) !! (k * m + i)%nat = Some b.
Proof.
  intros Hl. revert k. induction Hl as [|a0 l Ha0 Hl IH]; intros k Hk Hi; [done|].
  rewrite bind_cons. destruct k as [|k]; simpl in Hk |- *.
  - simplify_eq. by apply lookup_app_l_Some.
  - rewrite lookup_app_r by lia.
    replace (m + k * m + i - length (g a0))%nat with (k * m + i)%nat by lia.
    by apply IH.
Qed.

Lemma updateData_flatData s ds :
  flatData (updateData s ds) = flatten (years s) ds.
Proof. unfold updateData, processData_chart. by rewrite updateChart_flatData. Qed.

Lemma updateData_years s ds : years (updateData s ds) = years s.
Proof. unfold updateData, processData_chart. by rewrite updateChart_years. Qed.

Lemma updateData_width s ds : width (updateData s ds) = width s.
Proof. unfold updateData, processData_chart. by rewrite updateChart_width. Qed.

Lemma updateData_iDelaunay s ds : iDelaunay (updateData s ds) = None.
Proof. unfold updateData, processData_chart. by rewrite updateChart_iDelaunay. Qed.

Lemma sample_position_ext (s1 s2 : chart) :
  years s1 = years s2 → width s1 = width s2 → yDomain s1 = yDomain s2 →
  sample_position s1 = sample_position s2.
Proof.
  intros Hy Hw Hd. unfold sample_position, xScale, yScale, xDomain, xRange.
  by rewrite Hy, Hw, Hd.
Qed.

Lemma updateData_delaunay s ds :
  delaunay (updateData s ds)
  = Delaunay_from
      (sample_position (updateData s ds) <$> flatData (updateData s ds)).
Proof.
  rewrite updateData_flatData.
  unfold updateData, processData_chart.
  rewrite updateChart_delaunay. cbn [delaunay flatData]. f_equal.
  f_equal. apply sample_position_ext.
  - by rewrite updateChart_years.
  - by rewrite updateChart_width.
  - by rewrite updateChart_yDomain.
Qed.

Lemma handleMouseMove_valid (s : chart) (xm ym : Qc) :
  hint_valid s →
  match handleMouseMove s xm ym with
  | Throws _ => False
  | Diverges => True
  | Returns s1 =>
      hint_valid s1 ∧ flatData s1 = flatData s ∧ delaunay s1 = delaunay s
  end.
Proof.
  intros (Hcount & Hpos & Hhint).
  assert (Hin : in_range (delaunay s) (hint (iDelaunay s))).
  { unfold in_range. rewrite Hcount.
    destruct Hhint as [->|(c & -> & Hc)]; simpl; lia. }
  destruct (handleMouseMove s xm ym) as [s1|s1|] eqn:Hmove; [| |done].
  - destruct (handleMouseMove_Returns s s1 xm ym Hmove)
      as [->|(c & Hfind & Hc & Hi & HD & HF & _)]; [done|].
    split; [|done]. unfold hint_valid. rewrite HD, HF, Hi.
    split; [done|]. split; [done|]. right. eauto.
  - unfold handleMouseMove in Hmove.
    destruct (find _ _ _ _) as [i|] eqn:Hfind; [|done].
    destruct (find_in_range _ _ _ _ _ Hin Hfind) as (c & -> & Hc).
    destruct (differs _ _); [|done].
    unfold in_range in Hc. rewrite Hcount in Hc.
    destruct (at_jsint (flatData s) (JInt c)) as [[? ? ?]|] eqn:Hat.
    + by destruct (colorScale_each _ _).
    + simpl in Hat. unfold at_Z in Hat. rewrite bool_decide_true in Hat by lia.
      apply lookup_ge_None in Hat. lia.
Qed.

Lemma handle_valid (s : chart) (e : event) :
  hint_valid s →
  match handle s e with
  | Throws _ => False
  | Diverges => True
  | Returns s1 =>
      hint_valid s1 ∧ flatData s1 = flatData s ∧ delaunay s1 = delaunay s
  end.
Proof.
  intros Hv. destruct e as [|xm ym|]; simpl; [done| |done].
  by apply handleMouseMove_valid.
Qed.

Lemma run_valid (s : chart) (es : list event) :
  hint_valid s →
  match run s es with
  | Throws _ => False
  | Diverges => True
  | Returns s1 =>
      hint_valid s1 ∧ flatData s1 = flatData s ∧ delaunay s1 = delaunay s
  end.
Proof.
  revert s. induction es as [|e es IH]; intros s Hv; simpl; [done|].
  pose proof (handle_valid s e Hv) as He.
  destruct (handle s e) as [s1| |]; [|done|done].
  destruct He as (Hv1 & HF & HD). specialize (IH s1 Hv1).
  destruct (run s1 es); [|done|done].
  destruct IH as (? & ? & ?). split; [done|]. split; congruence.
Qed.

Lemma bind_length_elem {A B} (g : A → list B) (l : list A) (a : A) :
  a ∈ l → (length (g a) ≤ length (l ≫= g))%nat.
Proof.
  induction 1 as [a l|a a0 l Ha IH]; rewrite bind_cons, length_app; lia.
Qed.

(** C10. After a data update in which some visible record holds a
    value: the sample list is the records' samples in turn, record by
    record and year by year within a record (with one value per year,
    the sample of record [k] and year [i] is at [k * |years| + i], and
    there are [|records| * |years|] of them); the index is built from the
    pixel positions of exactly those samples; the remembered match is
    [null]; and whatever pointer events follow, no handler throws and
    the remembered match is always [null] or the position of a sample of
    that same list. *)
Theorem samples_index_and_hint (s : chart) (ds : list record) :
  let s' := updateData s ds in
  (∃ d, d ∈ ds ∧ values d ≠ []) →
  (∀ pts, length (points (Delaunay_from pts)) = (2 * length pts)%nat) →
  flatData s' = ds ≫= samples_of (years s)
  ∧ (Forall (λ d, length (values d) = length (years s)) ds →
     length (flatData s') = (length ds * length (years s))%nat
     ∧ ∀ k i d y, ds !! k = Some d → years s !! i = Some y →
         ∃ v, values d !! i = Some v
              ∧ flatData s' !! (k * length (years s) + i)%nat
                = Some (Sample (Some y) v (nutrient d)))
  ∧ delaunay s' = Delaunay_from (sample_position s' <$> flatData s')
  ∧ iDelaunay s' = None
  ∧ (∀ es, match run s' es with
           | Throws _ => False
           | Diverges => True
           | Returns s'' =>
               flatData s'' = flatData s'
               ∧ delaunay s'' = delaunay s'
               ∧ (iDelaunay s'' = None
                  ∨ ∃ c sample, iDelaunay s'' = Some (JInt c)
                                ∧ at_Z (flatData s'') c = Some sample)
           end).
Proof.
  intros s' (d0 & Hd0 & Hvalues) Hpoints.
  assert (Hflat : flatData s' = ds ≫= samples_of (years s)).
  { unfold s'. by rewrite updateData_flatData, flatten_spec. }
  split; [exact Hflat|]. split; [|split; [apply updateData_delaunay|]].
  { intros Hlen.
    assert (Hblocks : Forall (λ d, length (samples_of (years s) d)
                                   = length (years s)) ds).
    { eapply Forall_impl; [exact Hlen|]. intros d Hd.
      unfold samples_of. by rewrite length_imap. }
    split; [rewrite Hflat; by apply bind_blocks_length|].
    intros k i d y Hk Hi.
    rewrite Forall_lookup in Hlen. specialize (Hlen k d Hk).
    destruct (lookup_lt_is_Some_2 (values d) i) as [v Hv].
    { rewrite Hlen. by eapply lookup_lt_Some. }
    exists v. split; [done|]. rewrite Hflat.
    apply bind_blocks_lookup with d; [done|done|].
    unfold samples_of. by rewrite list_lookup_imap, Hv, Hi. }
  split; [apply updateData_iDelaunay|].
  intros es.
  assert (Hvalid : hint_valid s').
  { unfold hint_valid. split; [|split].
    - unfold point_count. unfold s' at 1. rewrite updateData_delaunay.
      rewrite Hpoints, length_fmap. fold s'.
      rewrite Z.shiftr_div_pow2 by lia. change (2 ^ 1)%Z with 2%Z.
      rewrite Nat2Z.inj_mul. rewrite Z.mul_comm, Z.div_mul by lia. done.
    - rewrite Hflat.
      pose proof (bind_length_elem (samples_of (years s)) ds d0 Hd0) as Hle.
      unfold samples_of at 1 in Hle. rewrite length_imap in Hle.
      destruct (values d0); [done|]. simpl in Hle. lia.
    - left. apply updateData_iDelaunay. }
  pose proof (run_valid s' es Hvalid) as Hrun.
  destruct (run s' es) as [s''| |]; [|done|done].
  destruct Hrun as ((_ & _ & Hhint) & HF & HD).
  split; [done|]. split; [done|].
  destruct Hhint as [?|(c & Hc & Hrange)]; [by left|right].
  destruct (lookup_lt_is_Some_2 (flatData s'') (Z.to_nat c)) as [sample Hs]; [lia|].
  exists c, sample. split; [done|]. unfold at_Z.
  by rewrite bool_decide_true by lia.
Qed.

(** ** The nearest sample *)





Section Walk.
Variables (D : Delaunay) (x y : Qc).

Local Abbreviation d c := (dist2 D (Num x) (Num y) (Some c)).



Local Abbreviation closer_count := (closer_count_for D x y).



Hypothesis vertices : ∀ i, in_range D i → at_Z (inedges D) i ≠ Some (-1)%Z.
Hypothesis steps : ∀ i, in_range D i → is_Some (_step D i (Num x) (Num y)).



End Walk.


Lemma pairs_length (l : list (num * num)) :
  length (l ≫= λ p, [p.1; p.2]) = (length l * 2)%nat.
Proof. apply bind_blocks_length. by apply Forall_forall. Qed.

Section Nearest.
Variables (s : chart) (xm ym : Qc).
Hypothesis Hpoints : points (delaunay s) = flat_positions s.

Lemma point_count_samples :
  point_count (delaunay s) = Z.of_nat (length (flatData s)).
Proof.
  unfold point_count. rewrite Hpoints. unfold flat_positions.
  rewrite pairs_length, length_fmap, Z.shiftr_div_pow2 by lia.
  change (2 ^ 1)%Z with 2%Z. rewrite Nat2Z.inj_mul, Z.div_mul by lia. done.
Qed.

Lemma in_range_sample (j : Z) :
  in_range (delaunay s) j ↔ is_Some (at_Z (flatData s) j).
Proof.
  unfold in_range, at_Z. rewrite point_count_samples. case_bool_decide.
  - rewrite lookup_lt_is_Some. lia.
  - split; [lia|]. by intros [? ?].
Qed.



End Nearest.





(** ** Entering and leaving the chart *)

Lemma handleMouseLeave_restores (s : chart) :
  Forall (λ node, ln_opacity node = Some (of_Z 1)) (gLine (handleMouseLeave s))
  ∧ gDots_display (handleMouseLeave s) = Some "none"%string.
Proof.
  split; [|done]. simpl. apply Forall_fmap, Forall_forall. done.
Qed.

(** Leaving keeps the markers in the hidden group and the remembered
    index. *)
Lemma handleMouseLeave_keeps (s : chart) :
  gDot (handleMouseLeave s) = gDot s
  ∧ iDelaunay (handleMouseLeave s) = iDelaunay s.
Proof. done. Qed.

(** Entering shows the overlay group and touches nothing else: the
    markers of the last match and the remembered index stay. *)
Lemma handleMouseEnter_keeps (s : chart) :
  gDots_display (handleMouseEnter s) = None
  ∧ gDot (handleMouseEnter s) = gDot s
  ∧ iDelaunay (handleMouseEnter s) = iDelaunay s
  ∧ gLine (handleMouseEnter s) = gLine s.
Proof. done. Qed.

(** ** An empty visible subset *)

Lemma updateData_gLine_nil (s : chart) : gLine (updateData s []) = [].
Proof. unfold updateData, processData_chart, updateChart. by simpl. Qed.

(** C6, what the script does.  After an update with no visible record
    the y-domain is the rounding of [[NaN, NaN]], nothing is drawn and
    there is no sample; the index then has no point, [find] answers
    [NaN], and the handler, which reads [flatData[NaN]] without a test,
    throws on any pointer move. *)
Theorem empty_subset_pointer_move_throws (s : chart) (xm ym : Qc) :
  points (Delaunay_from []) = [] →
  yDomain (updateData s []) = nice (NaN, NaN)
  ∧ flatData (updateData s []) = []
  ∧ gLine (updateData s []) = []
  ∧ ∃ s1, handleMouseMove (updateData s []) xm ym = Throws s1
          ∧ iDelaunay s1 = Some JNaN.
Proof.
  intros Hpoints.
  assert (Hflat : flatData (updateData s []) = []) by by rewrite updateData_flatData.
  split; [by rewrite updateData_yDomain|].
  split; [done|]. split; [apply updateData_gLine_nil|].
  unfold handleMouseMove.
  rewrite updateData_iDelaunay, updateData_delaunay, Hflat. simpl fmap.
  rewrite find_Num, Hpoints. cbn [find_loop length hint].
  unfold _step. rewrite Hpoints.
  rewrite (bool_decide_true (length [] = 0%nat)), orb_true_r by done.
  simpl. eauto.
Qed.


(** ** The bounded loops of [_step] and [find]

    Both loops are given a number of passes in the embedding.  The
    lemmas of this section show that the number is enough: with more
    passes the result is the same, so a [None] stands for a loop that
    goes through a control state twice and therefore never ends. *)

Section Loop_facts.
Context {K A R : Type}.
Variables (ctl : K → option (option K)) (acc : K → A → A) (out : K → A → R).

Local Abbreviation loop := (loop ctl acc out).
Local Abbreviation passes := (passes ctl).

Lemma loop_passes fuel k a r :
  loop fuel k a = Some r → ∃ p, passes k p ∧ (length p ≤ fuel)%nat.
Proof.
  revert k a. induction fuel as [|fuel IH]; intros k a; [done|]. simpl.
  destruct (ctl k) as [[k'|]|] eqn:Hk; [| |done].
  - intros (p & Hp & Hlen)%IH. exists (k :: p). split; [by econstructor|].
    simpl. lia.
  - intros _. exists [k]. split; [by constructor|]. simpl. lia.
Qed.

Lemma passes_loop k p :
  passes k p →
  ∀ fuel a, (length p ≤ fuel)%nat →
    is_Some (loop fuel k a) ∧ loop fuel k a = loop (length p) k a.
Proof.
  induction 1 as [k Hk|k k' p Hk Hp IH]; intros fuel a Hlen;
    (destruct fuel as [|fuel]; [simpl in Hlen; lia|]); simpl; rewrite Hk.
  - eauto.
  - apply IH. simpl in Hlen. lia.
Qed.

Lemma passes_det k p p' : passes k p → passes k p' → p = p'.
Proof.
  intros Hp. revert p'. induction Hp as [k Hk|k k' p Hk Hp IH]; intros p' Hp';
    inversion Hp'; simplify_eq; [done|]. f_equal. by apply IH.
Qed.

Lemma passes_suffix k p j :
  passes k p → j ∈ p → ∃ p', passes j p' ∧ p' `suffix_of` p.
Proof.
  induction 1 as [k Hk|k k' p Hk Hp IH]; intros Hj.
  - apply list_elem_of_singleton in Hj as ->. exists [k].
    split; [by constructor|done].
  - apply elem_of_cons in Hj as [->|Hj].
    + exists (k :: p). split; [by econstructor|done].
    + destruct (IH Hj) as (p' & Hp' & Hsuf). exists p'.
      split; [done|]. by apply suffix_cons_r.
Qed.

(** A loop that ends goes through each control state once. *)
Lemma passes_NoDup k p : passes k p → NoDup p.
Proof.
  induction 1 as [k Hk|k k' p Hk Hp IH]; [apply NoDup_singleton|].
  apply NoDup_cons. split; [|done]. intros Hin.
  destruct (passes_suffix k' p k Hp Hin) as (p' & Hp' & Hsuf).
  assert (p' = k :: p) as -> by (eapply passes_det; [done|by econstructor]).
  apply suffix_length in Hsuf. simpl in Hsuf. lia.
Qed.

Lemma passes_tail k p (U : list K) :
  (∀ k k', ctl k = Some (Some k') → k' ∈ U) →
  passes k p → ∀ j, j ∈ tail p → j ∈ U.
Proof.
  intros HU. induction 1 as [k Hk|k k' p Hk Hp IH]; intros j Hj; simpl in Hj.
  - by apply elem_of_nil in Hj.
  - inversion Hp; simplify_eq.
    + apply list_elem_of_singleton in Hj as ->. by eapply HU.
    + apply elem_of_cons in Hj as [->|Hj]; [by eapply HU|]. by apply IH.
Qed.

(** When every control state a pass can lead to is in the list [U], one
    pass more than the length of [U] is as good as any larger number. *)
Lemma loop_fuel_enough (U : list K) fuel k a :
  (∀ k k', ctl k = Some (Some k') → k' ∈ U) →
  (S (length U) ≤ fuel)%nat →
  loop fuel k a = loop (S (length U)) k a.
Proof.
  intros HU Hfuel.
  assert (Hbound : ∀ p, passes k p → (length p ≤ S (length U))%nat).
  { intros p Hp. pose proof (passes_NoDup k p Hp) as Hnd.
    pose proof (passes_tail k p U HU Hp) as Htail.
    destruct p as [|k0 p]; [simpl; lia|]. simpl in *.
    apply NoDup_cons in Hnd as [_ Hnd].
    pose proof (submseteq_length _ _ (NoDup_submseteq _ _ Hnd Htail)). lia. }
  destruct (loop fuel k a) as [r|] eqn:Hr.
  - apply loop_passes in Hr as Hp. destruct Hp as (p & Hp & _).
    specialize (Hbound p Hp).
    destruct (passes_loop k p Hp fuel a) as [_ H1]; [lia|].
    destruct (passes_loop k p Hp (S (length U)) a) as [_ H2]; [lia|].
    congruence.
  - destruct (loop (S (length U)) k a) as [r|] eqn:Hr'; [|done].
    apply loop_passes in Hr' as Hp. destruct Hp as (p & Hp & Hlen).
    destruct (passes_loop k p Hp fuel a) as [[r' Hsome] _]; [lia|]. congruence.
Qed.

End Loop_facts.

Lemma at_opt_elem {B} (l : list B) (k : option Z) (b : B) :
  at_opt l k = Some b → b ∈ l.
Proof.
  destruct k as [z|]; [|done]. unfold at_opt, at_Z. simpl.
  destruct (bool_decide (0 ≤ z)%Z); [|done]. apply list_elem_of_lookup_2.
Qed.

Lemma step_loop_loop fuel D i x y e0 e c dc :
  step_loop fuel D i x y e0 e c dc
  = loop (ring_ctl D i e0) (ring_acc D x y) (ring_out D i x y) fuel e (c, dc).
Proof.
  revert e c dc. induction fuel as [|fuel IH]; intros e c dc; [done|].
  cbn [step_loop loop]. unfold ring_ctl, ring_out, ring_acc. cbn [fst snd].
  destruct (negb (bool_decide (at_opt (triangles D) (next_halfedge <$> e) = Some i))).
  { by destruct (lt _ dc). }
  destruct (bool_decide (at_opt (halfedges D) (next_halfedge <$> e) = Some (-1)%Z)).
  { destruct (lt _ dc); cbn [fst snd]; by destruct (_ && _). }
  destruct (bool_decide (at_opt (halfedges D) (next_halfedge <$> e) = e0)).
  { by destruct (lt _ dc). }
  rewrite IH. by destruct (lt _ dc).
Qed.

(** The passes given to the loop of [_step] are enough. *)
Lemma step_loop_fuel fuel D i x y e0 e c dc :
  (S (S (length (halfedges D))) ≤ fuel)%nat →
  step_loop fuel D i x y e0 e c dc
  = step_loop (S (S (length (halfedges D)))) D i x y e0 e c dc.
Proof.
  intros Hfuel. rewrite !step_loop_loop.
  set (U := None :: (Some <$> halfedges D)).
  assert (HU : ∀ k k', ring_ctl D i e0 k = Some (Some k') → k' ∈ U).
  { intros k k'. unfold ring_ctl. repeat case_match; try done.
    intros ?; simplify_eq.
    destruct (at_opt (halfedges D) (next_halfedge <$> k)) as [h|] eqn:Hh;
      [|left].
    right. apply list_elem_of_fmap_2. by eapply at_opt_elem. }
  assert (Hlen : length U = S (length (halfedges D))).
  { unfold U. simpl. by rewrite length_fmap. }
  rewrite (loop_fuel_enough _ _ _ U fuel) by (done || lia).
  by rewrite Hlen.
Qed.

Lemma step_loop_successor fuel D i x y e0 e c dc r :
  step_loop fuel D i x y e0 e c dc = Some (JInt r) → r = c ∨ in_range D r.
Proof.
  revert e c dc. induction fuel as [|fuel IH]; intros e c dc; [done|].
  simpl.
  set (t := at_opt (triangles D) e).
  set (c' := if lt (dist2 D x y t) dc then default c t else c).
  set (dc' := if lt (dist2 D x y t) dc then dist2 D x y t else dc).
  assert (Hc' : c' = c ∨ in_range D c').
  { unfold c'. destruct (lt (dist2 D x y t) dc) eqn:Hlt; [|by left].
    apply lt_Num_l in Hlt as [q Hq].
    apply dist2_Num in Hq as (z & -> & Hz). by right. }
  destruct (negb _); [intros ?; by simplify_eq|].
  case_bool_decide.
  - destruct (negb _ && lt (dist2 D x y (hull_next D i)) dc') eqn:Hh.
    + apply andb_true_iff in Hh as [_ Hlt].
      apply lt_Num_l in Hlt as [q Hq].
      apply dist2_Num in Hq as (z & -> & Hz). intros ?; simplify_eq. by right.
    + intros ?; by simplify_eq.
  - case_bool_decide; [intros ?; by simplify_eq|].
    intros [->|Hr]%IH; [done|by right].
Qed.

(** A step leads to a point of the index, or nowhere. *)
Lemma step_successor D i x y r :
  _step D i x y = Some (JInt r) → r = i ∨ in_range D r.
Proof.
  assert (Hcount : (0 ≤ point_count D)%Z).
  { unfold point_count. rewrite Z.shiftr_div_pow2 by lia.
    apply Z.div_pos; lia. }
  unfold _step. fold (point_count D).
  destruct (bool_decide (at_Z (inedges D) i = Some (-1)%Z)) eqn:Hi.
  - apply bool_decide_eq_true in Hi. apply at_Z_Some in Hi. cbn [orb].
    unfold rem. case_bool_decide; [done|]. intros ?; simplify_eq.
    pose proof (Z.rem_bound_pos (i + 1) (point_count D)).
    right. unfold in_range. lia.
  - cbn [orb]. destruct (bool_decide (length (points D) = 0%nat)) eqn:Hn.
    + apply bool_decide_eq_true in Hn. unfold point_count, rem. rewrite Hn.
      done.
    + apply step_loop_successor.
Qed.

Lemma find_loop_loop fuel D x y i0 i :
  find_loop fuel D x y i0 i
  = loop (walk_ctl D x y i0) (λ _ a, a) (walk_out D x y) fuel i ().
Proof.
  revert i. induction fuel as [|fuel IH]; intros i; [done|].
  cbn [find_loop loop]. unfold walk_ctl, walk_out.
  destruct (_step D i x y) as [[|c]|]; [done| |done].
  destruct (_ && _); [apply IH|done].
Qed.

(** The passes given to the loop of [find] are enough. *)
Lemma find_loop_fuel fuel D x y i0 i :
  (S (S (length (points D))) ≤ fuel)%nat →
  find_loop fuel D x y i0 i
  = find_loop (S (S (length (points D)))) D x y i0 i.
Proof.
  intros Hfuel. rewrite !find_loop_loop.
  set (U := seqZ 0 (point_count D)).
  assert (HU : ∀ k k', walk_ctl D x y i0 k = Some (Some k') → k' ∈ U).
  { intros k k'. unfold walk_ctl.
    destruct (_step D k x y) as [[|c]|] eqn:Hstep; [done| |done].
    destruct (bool_decide (0 ≤ c)%Z && negb (bool_decide (c = k))
              && negb (bool_decide (c = i0))) eqn:Hcond; [|done].
    intros ?; simplify_eq.
    rewrite !andb_true_iff, !negb_true_iff, !bool_decide_eq_false in Hcond.
    destruct Hcond as [[_ Hne] _].
    apply step_successor in Hstep as [?|Hin]; [done|].
    apply elem_of_seqZ. unfold in_range in Hin. lia. }
  assert (Hlen : (length U ≤ length (points D))%nat).
  { unfold U. rewrite length_seqZ. unfold point_count.
    rewrite Z.shiftr_div_pow2 by lia. change (2 ^ 1)%Z with 2%Z.
    assert (Z.of_nat (length (points D)) `div` 2 ≤ Z.of_nat (length (points D)))%Z
      by (apply Z.div_le_upper_bound; lia).
    lia. }
  rewrite (loop_fuel_enough _ _ _ U fuel) by (done || lia).
  rewrite (loop_fuel_enough _ _ _ U (S (S (length (points D))))) by (done || lia).
  done.
Qed.

End Properties.

(** * Further properties

    The controls, the page the callback makes of a table, the scales,
    and what the line elements and the overlay hold after data updates
    and pointer events. *)

Section Further.
Context `{!Env}.

(** ** The table normaliser and the initial view *)

Lemma dedupe_cons_head (x : string) (l : list string) :
  dedupe (x :: l) !! 0%nat = Some x.
Proof.
  unfold dedupe. cbn [foldl]. unfold dedupe_step at 2.
  rewrite bool_decide_eq_false_2 by apply not_elem_of_nil. simpl.
  destruct (dedupe_fold_spec l [x]) as (_ & _ & [k ->]).
  { apply NoDup_singleton. }
  done.
Qed.

Lemma dedupe_head (l : list string) : dedupe l !! 0%nat = l !! 0%nat.
Proof. destruct l as [|x l]; [done|]. apply dedupe_cons_head. Qed.

Lemma filterData_filter (ds : list record) (fs : filters) :
  filterData ds fs
  = filter (λ d, nutrientType d = f_nutrientType fs ∧ region d ∈ f_regions fs) ds.
Proof.
  unfold filterData. rewrite Array_filter_filter.
  apply list_filter_iff. intros d. apply filterData_keep_true.
Qed.

Lemma processData_heads (csv : table) :
  (processData csv).1.2 !! 0%nat = Type_ <$> rows csv !! 0%nat
  ∧ (processData csv).2 !! 0%nat = Region <$> rows csv !! 0%nat.
Proof.
  unfold processData. simpl. by rewrite !dedupe_head, !list_lookup_fmap.
Qed.

(** X1. The normaliser returns one record per row, in the order of the
    rows: the record at a position carries the type, the nutrient and
    the region of the row at that position, and its values are the
    coerced fields of that row under the year columns, in column order.
    Each record has one value per year column (the columns after the
    third; none for a table of three columns or fewer); the two option
    lists are free of duplicates, start with the type and the region of
    the first row, and hold exactly the types and the regions that occur
    in the records. *)
Theorem processData_shape (csv : table) :
  let '(ds, ys, nts, rs) := processData csv in
  ys = drop 3 (columns csv)
  ∧ length ds = length (rows csv)
  ∧ (∀ k d, rows csv !! k = Some d →
       ∃ r, ds !! k = Some r
            ∧ nutrientType r = Type_ d
            ∧ nutrient r = Nutrient d
            ∧ region r = Region d
            ∧ ∀ i, values r !! i
                   = (λ year, unary_plus (cells d !! year)) <$> ys !! i)
  ∧ Forall (λ r, length (values r) = length ys) ds
  ∧ ((length (columns csv) ≤ 3)%nat → Forall (λ r, values r = []) ds)
  ∧ NoDup nts ∧ NoDup rs
  ∧ nts !! 0%nat = Type_ <$> rows csv !! 0%nat
  ∧ rs !! 0%nat = Region <$> rows csv !! 0%nat
  ∧ (∀ t, t ∈ nts ↔ ∃ r, r ∈ ds ∧ nutrientType r = t)
  ∧ (∀ g, g ∈ rs ↔ ∃ r, r ∈ ds ∧ region r = g).
Proof.
  unfold processData. cbv zeta.
  split; [done|]. split; [by rewrite length_fmap|].
  split.
  { intros k d Hk. exists (row_record (drop 3 (columns csv)) d).
    split; [by rewrite list_lookup_fmap, Hk|]. split; [done|].
    split; [done|]. split; [done|]. intros i. simpl.
    by rewrite list_lookup_fmap. }
  split.
  { apply Forall_fmap, Forall_forall. intros d _. simpl. by rewrite length_fmap. }
  split.
  { intros Hcols. apply Forall_fmap, Forall_forall. intros d _. simpl.
    rewrite drop_ge by done. done. }
  split; [apply dedupe_NoDup|]. split; [apply dedupe_NoDup|].
  split; [by rewrite dedupe_head, list_lookup_fmap|].
  split; [by rewrite dedupe_head, list_lookup_fmap|].
  split.
  - intros t. rewrite dedupe_elem, list_elem_of_fmap. split.
    + intros (d & -> & Hd). exists (row_record (drop 3 (columns csv)) d).
      split; [|done]. by apply list_elem_of_fmap_2.
    + intros (r & (d & -> & Hd)%list_elem_of_fmap & <-). by exists d.
  - intros g. rewrite dedupe_elem, list_elem_of_fmap. split.
    + intros (d & -> & Hd). exists (row_record (drop 3 (columns csv)) d).
      split; [|done]. by apply list_elem_of_fmap_2.
    + intros (r & (d & -> & Hd)%list_elem_of_fmap & <-). by exists d.
Qed.

(** X2. For a table with at least one row the callback starts with the
    type and the region of the first row as filters.  The records shown
    are those of that type and region, the record of the first row among
    them, so the initial chart is never empty; they are the data of the
    chart, and each has one value per year.  A table without rows is the
    only one for which there are no initial filters. *)
Theorem main_initial_view (clientWidth : Qc) (csv : table) :
  match rows csv with
  | [] => main clientWidth csv = None
  | d0 :: _ =>
      ∃ p, main clientWidth csv = Some p
        ∧ app_data (pg_app p) = (processData csv).1.1.1
        ∧ app_filters (pg_app p)
          = {| f_nutrientType := Type_ d0; f_regions := [Region d0] |}
        ∧ filteredData (pg_app p)
          = filter (λ r, nutrientType r = Type_ d0 ∧ region r = Region d0)
              (app_data (pg_app p))
        ∧ row_record (drop 3 (columns csv)) d0 ∈ filteredData (pg_app p)
        ∧ data (app_chart (pg_app p)) = filteredData (pg_app p)
        ∧ years (app_chart (pg_app p)) = drop 3 (columns csv)
        ∧ Forall (λ r, length (values r) = length (drop 3 (columns csv)))
            (filteredData (pg_app p))
  end.
Proof.
  destruct (rows csv) as [|d0 l] eqn:Hrows.
  { unfold main, processData. cbv zeta. by rewrite Hrows. }
  pose proof (processData_values_length csv) as Hlen.
  unfold main, processData in *. cbv zeta in *. rewrite Hrows in *.
  rewrite !fmap_cons, !dedupe_cons_head in *. simpl in Hlen.
  cbn [mbind option_bind].
  eexists. split; [reflexivity|]. cbn [pg_app app_data app_filters filteredData app_chart].
  rewrite updateData_data, updateData_years, filterData_filter.
  assert (Hfilter : ∀ ds : list record,
    filter (λ d, nutrientType d = Type_ d0 ∧ region d ∈ [Region d0]) ds
    = filter (λ r, nutrientType r = Type_ d0 ∧ region r = Region d0) ds).
  { intros ds. apply list_filter_iff. intros r.
    by rewrite list_elem_of_singleton. }
  cbn [f_nutrientType f_regions]. rewrite Hfilter.
  split; [done|]. split; [done|]. split; [done|].
  split.
  { apply list_elem_of_filter. split; [done|]. left. }
  split; [done|]. split; [done|].
  apply Forall_forall. intros r [_ Hr]%list_elem_of_filter.
  by eapply Forall_forall in Hlen.
Qed.

(** ** The regions control *)

Lemma currentValues_fold (l : list (item checkbox)) (acc : list string) :
  foldl (λ values it, if checked (input it) then values ++ [datum it] else values)
    acc l
  = acc ++ (datum <$> filter (λ it, checked (input it) = true) l).
Proof.
  revert acc. induction l as [|it l IH]; intros acc; simpl.
  { by rewrite app_nil_r. }
  rewrite IH, filter_cons. destruct (checked (input it)).
  - rewrite decide_True by done. by rewrite <- app_assoc.
  - rewrite decide_False by done. done.
Qed.

Lemma currentValues_checked (c : regions_control) :
  RegionsControl.currentValues c = checked_values c.
Proof. apply currentValues_fold. Qed.

Lemma checked_fmap (g : item checkbox → item checkbox) (l : list (item checkbox)) :
  (∀ it, datum (g it) = datum it ∧ checked (input (g it)) = checked (input it)) →
  datum <$> filter (λ it, checked (input it) = true) (g <$> l)
  = datum <$> filter (λ it, checked (input it) = true) l.
Proof.
  intros Hg. induction l as [|it l IH]; [done|].
  rewrite fmap_cons, !filter_cons. destruct (Hg it) as [Hd Hc].
  rewrite Hc. case_decide; [|done]. rewrite !fmap_cons. by f_equal.
Qed.

Lemma handleChange_checked (c : regions_control) :
  checked_values (RegionsControl.handleChange c).1 = checked_values c.
Proof. unfold checked_values. simpl. by apply checked_fmap. Qed.

Lemma handleChange_datum (c : regions_control) :
  datum <$> items (rc_fieldset (RegionsControl.handleChange c).1)
  = datum <$> items (rc_fieldset c).
Proof. simpl. rewrite <- list_fmap_compose. done. Qed.

(** With distinct regions, a region is among the checked values exactly
    when its own checkbox is checked. *)
Lemma checked_values_elem (c : regions_control) (it : item checkbox) :
  NoDup (datum <$> items (rc_fieldset c)) →
  it ∈ items (rc_fieldset c) →
  datum it ∈ checked_values c ↔ checked (input it) = true.
Proof.
  unfold checked_values. generalize (items (rc_fieldset c)). intros l Hnd Hit.
  rewrite list_elem_of_fmap. split.
  - intros (it' & Hd & [Hc Hit']%list_elem_of_filter).
    assert (it' = it) as <-; [|done].
    apply list_elem_of_lookup in Hit as [i Hi], Hit' as [j Hj].
    assert (i = j) as ->.
    { eapply NoDup_lookup; [exact Hnd| |]; rewrite list_lookup_fmap.
      - by rewrite Hi.
      - rewrite Hj. simpl. by rewrite Hd. }
    congruence.
  - intros Hc. exists it. split; [done|]. by apply list_elem_of_filter.
Qed.

Lemma checked_values_insert (c : regions_control) (k : nat) (it : item checkbox) :
  items (rc_fieldset c) !! k = Some it →
  let c1 :=
    {| rc_domain := rc_domain c;
       rc_fieldset :=
         {| legend := legend (rc_fieldset c);
            items := <[k := RegionsControl.flip it]> (items (rc_fieldset c)) |} |} in
  datum <$> items (rc_fieldset c1) = datum <$> items (rc_fieldset c)
  ∧ if checked (input it)
    then S (length (checked_values c1)) = length (checked_values c)
    else length (checked_values c1) = S (length (checked_values c)).
Proof.
  intros Hk. simpl. unfold checked_values. simpl.
  generalize dependent (items (rc_fieldset c)). intros l Hk.
  rewrite insert_take_drop by by eapply lookup_lt_Some.
  pose proof (take_drop_middle l k it Hk) as Hl.
  revert Hl. generalize (take k l) (drop (S k) l). intros l1 l2 <-.
  split.
  { rewrite !fmap_app, !fmap_cons. done. }
  rewrite !filter_app, !filter_cons, !fmap_app, !length_app. simpl.
  destruct (checked (input it)); simpl; repeat case_decide; try done;
    simpl; lia.
Qed.

Lemma handleChange_limit (regions : list string) (c : regions_control) :
  NoDup regions →
  datum <$> items (rc_fieldset c) = regions →
  (length (checked_values c) ≤ MAX_COUNT)%nat →
  limit_kept regions (RegionsControl.handleChange c).1.
Proof.
  intros Hnd Hdatum Hcount. unfold limit_kept.
  rewrite handleChange_checked, handleChange_datum.
  split; [done|]. split; [done|].
  intros it'. simpl. intros (it & -> & Hit)%list_elem_of_fmap. simpl.
  rewrite currentValues_checked.
  pose proof (checked_values_elem c it) as Helem.
  rewrite Hdatum in Helem. specialize (Helem Hnd Hit).
  case_bool_decide as Hlen.
  - case_bool_decide as Hin.
    + apply Helem in Hin. rewrite Hin. split; [by intros []|by intros [_ ?]].
    + split; [|by eauto]. intros _. split; [done|].
      destruct (checked (input it)); [|done]. by destruct Hin; apply Helem.
  - split; [by intros []|]. by intros [? _].
Qed.

Lemma click_limit (regions : list string) (c : regions_control) (k : nat) :
  NoDup regions → limit_kept regions c →
  limit_kept regions (RegionsControl.click k c).1.
Proof.
  intros Hnd (Hdatum & Hcount & Hdis). unfold RegionsControl.click.
  destruct (items (rc_fieldset c) !! k) as [it|] eqn:Hk; [|done].
  destruct (cb_disabled (input it)) as [dis|] eqn:Hd; [done|].
  destruct (checked_values_insert c k it Hk) as [Hdatum1 Hcount1].
  destruct (RegionsControl.handleChange _) as [c2 ev] eqn:Hc2.
  change c2 with (c2, ev).1. rewrite <- Hc2.
  apply handleChange_limit; [done|congruence|].
  destruct (checked (input it)) eqn:Hc; [lia|].
  rewrite Hcount1.
  destruct (decide (length (checked_values c) = MAX_COUNT)) as [Hfull|]; [|lia].
  destruct (Hdis it) as [_ Hdis'].
  { by eapply list_elem_of_lookup_2. }
  destruct Hdis' as [? ?]; [done|]. congruence.
Qed.

Lemma checked_imap (f : nat → string → item checkbox) (P : string → Prop)
    `{!∀ d, Decision (P d)} (l : list string) :
  (∀ i d, datum (f i d) = d ∧ checked (input (f i d)) = bool_decide (P d)) →
  datum <$> filter (λ it, checked (input it) = true) (imap f l) = filter P l.
Proof.
  revert f. induction l as [|d l IH]; intros f Hf; [done|].
  cbn [imap]. rewrite !filter_cons. destruct (Hf 0%nat d) as [Hd Hc].
  rewrite Hc. case_bool_decide.
  - rewrite decide_True by done. rewrite decide_True by done.
    rewrite fmap_cons, Hd. f_equal. apply IH. intros i x. apply Hf.
  - rewrite decide_False by done. rewrite decide_False by done.
    apply IH. intros i x. apply Hf.
Qed.

Lemma render_limit (regions initialValues : list string) :
  NoDup regions → (length initialValues < MAX_COUNT)%nat →
  limit_kept regions (renderRegionsControl regions initialValues)
  ∧ checked_values (renderRegionsControl regions initialValues)
    = filter (λ d, d ∈ initialValues) regions.
Proof.
  intros Hnd Hlen.
  assert (Hchecked : checked_values (renderRegionsControl regions initialValues)
    = filter (λ d, d ∈ initialValues) regions).
  { unfold checked_values. simpl. apply checked_imap. by intros i d. }
  split; [|done]. unfold limit_kept.
  assert (Hcount : (length (filter (λ d, d ∈ initialValues) regions)
                    ≤ length initialValues)%nat).
  { apply submseteq_length, NoDup_submseteq.
    - by apply NoDup_filter.
    - by intros d [? _]%list_elem_of_filter. }
  rewrite Hchecked. split; [|split; [lia|]].
  - simpl. rewrite fmap_imap. simpl.
    rewrite (imap_ext _ (λ _ d, d)) by done.
    clear. generalize regions. intros l. rewrite (imap_const id). by rewrite list_fmap_id.
  - intros it. simpl. intros [i Hi]%list_elem_of_lookup_1.
    apply list_lookup_imap_Some in Hi as (d & _ & ->). simpl. split; [by intros []|]. unfold MAX_COUNT in *. lia.
Qed.

(** X4. The regions control keeps to its limit.  Starting from a list of
    distinct regions with fewer than [MAX_COUNT] initial values, whatever
    checkboxes the user clicks: at most [MAX_COUNT] are checked; a
    checkbox is disabled exactly when it is unchecked and [MAX_COUNT]
    others are checked; and every [filterchange] event a click dispatches
    carries the checked regions, in the order of the control, without
    duplicates and no more than [MAX_COUNT] of them.  A click on a
    disabled checkbox, or beside the list, dispatches nothing. *)
Theorem regions_limit (regions initialValues : list string) (ks : list nat) :
  NoDup regions →
  (length initialValues < MAX_COUNT)%nat →
  let c := clicks (renderRegionsControl regions initialValues) ks in
  limit_kept regions c
  ∧ ∀ k,
      match RegionsControl.click k c with
      | (c', Some ev) =>
          ev = regions_changed (checked_values c')
          ∧ NoDup (checked_values c')
          ∧ (length (checked_values c') ≤ MAX_COUNT)%nat
          ∧ checked_values c' `sublist_of` regions
          ∧ ∃ it, items (rc_fieldset c) !! k = Some it
                  ∧ cb_disabled (input it) = None
      | (c', None) =>
          c' = c
          ∧ ∀ it, items (rc_fieldset c) !! k = Some it →
                  is_Some (cb_disabled (input it))
      end.
Proof.
  intros Hnd Hlen c.
  assert (Hinv : limit_kept regions c).
  { unfold c, clicks. generalize (proj1 (render_limit regions initialValues Hnd Hlen)).
    generalize (renderRegionsControl regions initialValues).
    induction ks as [|k ks IH]; intros c0 Hc0; [done|].
    cbn [foldl]. apply IH. by apply click_limit. }
  split; [exact Hinv|]. intros k.
  pose proof (click_limit regions c k Hnd Hinv) as Hinv'.
  unfold RegionsControl.click in *.
  destruct (items (rc_fieldset c) !! k) as [it|] eqn:Hk; [|done].
  destruct (cb_disabled (input it)) as [dis|] eqn:Hd.
  { split; [done|]. intros ? [= <-]. by rewrite Hd. }
  destruct (RegionsControl.handleChange _) as [c2 ev] eqn:Hc2.
  simpl in Hinv'. destruct Hinv' as (Hdatum & Hcount & _).
  assert (Hev : ev = regions_changed (checked_values c2)).
  { change c2 with (c2, ev).1. rewrite <- Hc2, handleChange_checked.
    unfold RegionsControl.handleChange in Hc2. injection Hc2 as _ <-.
    by rewrite currentValues_checked. }
  assert (Hsub : checked_values c2 `sublist_of` regions).
  { rewrite <- Hdatum. unfold checked_values. apply fmap_sublist, sublist_filter. }
  split; [done|]. split; [|split; [done|split; [done|by eauto]]].
  by eapply sublist_NoDup.
Qed.

Lemma control_colorScale_known (currentValues : list string) (d : string) (k : nat) :
  NoDup currentValues → currentValues !! k = Some d →
  control_colorScale currentValues d = COLOR_SCHEME !! (k `mod` 2)%nat.
Proof.
  intros Hnd Hk. unfold control_colorScale, ordinal_domain.
  assert (Hdedupe : dedupe currentValues = currentValues).
  { unfold dedupe. by rewrite dedupe_fold_NoDup. }
  rewrite Hdedupe. by rewrite (ordinal_call_known _ _ _ k).
Qed.

(** X5. The legend of the regions control.  After a change, with
    distinct regions in the control: the label of a region and the
    accent of its checkbox have the same colour; it is [currentColor]
    for a region that is not checked, and the palette entry [k mod 2]
    for the [k]-th checked region, counted in the order of the control;
    the domain of the scale is the list of checked regions.  The event
    dispatched carries that list. *)
Theorem regions_legend (c : regions_control) :
  NoDup (datum <$> items (rc_fieldset c)) →
  let c' := (RegionsControl.handleChange c).1 in
  (RegionsControl.handleChange c).2 = regions_changed (checked_values c)
  ∧ checked_values c' = checked_values c
  ∧ rc_domain c' = checked_values c
  ∧ ∀ it, it ∈ items (rc_fieldset c') →
      cb_accent_color (input it) = lb_color (label it)
      ∧ (checked (input it) = false →
         lb_color (label it) = Some "currentColor"%string)
      ∧ (∀ k, checked_values c !! k = Some (datum it) →
              lb_color (label it) = COLOR_SCHEME !! (k `mod` 2)%nat).
Proof.
  intros Hnd c'.
  assert (Hcv : NoDup (checked_values c)).
  { eapply sublist_NoDup; [exact Hnd|].
    unfold checked_values. apply fmap_sublist, sublist_filter. }
  split; [simpl; by rewrite currentValues_checked|].
  split; [apply handleChange_checked|].
  split.
  { simpl. rewrite currentValues_checked. unfold ordinal_domain, dedupe.
    by rewrite dedupe_fold_NoDup. }
  intros it'. simpl. intros (it & -> & Hit)%list_elem_of_fmap. simpl.
  rewrite currentValues_checked. split; [done|]. split.
  - intros Hc. apply control_colorScale_unknown.
    rewrite (checked_values_elem c it Hnd Hit). congruence.
  - intros k Hk. by apply control_colorScale_known.
Qed.

(** ** The nutrient type control *)

Lemma numbered_inj (prefix : string) : Inj (=) (=) (numbered prefix).
Proof.
  intros i j Hij. unfold numbered in Hij.
  apply (inj (String.app prefix)), (inj pretty) in Hij. lia.
Qed.

(** X3. The nutrient type control, for distinct nutrient types: one
    radio per type, in order, whose value is the type; the ids of the
    radios are distinct and each label points to its own radio and reads
    its type; at most one radio is checked, the one of the initial value
    if that is among the types, none otherwise; and a change of any radio
    dispatches one of the types. *)
Theorem nutrientType_radios (nutrientTypes : list string)
    (initialValue : option string) :
  NoDup nutrientTypes →
  let c := renderNutrientTypeControl nutrientTypes initialValue in
  datum <$> items c = nutrientTypes
  ∧ NoDup ((λ it, ra_id (input it)) <$> items c)
  ∧ Forall (λ it, ra_value (input it) = datum it
                  ∧ lb_for (label it) = ra_id (input it)
                  ∧ lb_text (label it) = datum it) (items c)
  ∧ (∀ i j a b, items c !! i = Some a → items c !! j = Some b →
       is_Some (ra_checked (input a)) → is_Some (ra_checked (input b)) → i = j)
  ∧ (∀ i v, nutrientTypes !! i = Some v → initialValue = Some v →
       ∃ it, items c !! i = Some it
             ∧ ra_checked (input it) = Some "checked"%string)
  ∧ ((∀ v, initialValue = Some v → v ∉ nutrientTypes) →
     Forall (λ it, ra_checked (input it) = None) (items c))
  ∧ (∀ it, it ∈ items c →
       ∃ t, t ∈ nutrientTypes
            ∧ NutrientTypeControl.handleChange (input it) = nutrientType_changed t).
Proof.
  intros Hnd c.
  assert (Hitem : ∀ i it, items c !! i = Some it →
    ∃ d, nutrientTypes !! i = Some d ∧ datum it = d ∧ ra_value (input it) = d
         ∧ ra_id (input it) = numbered "nutrientType" i
         ∧ lb_for (label it) = numbered "nutrientType" i
         ∧ lb_text (label it) = d
         ∧ ra_checked (input it)
           = if bool_decide (Some d = initialValue)
             then Some "checked"%string else None).
  { intros i it Hi. apply list_lookup_imap_Some in Hi as (d & Hd & ->).
    by exists d. }
  split.
  { simpl. rewrite fmap_imap. simpl. rewrite (imap_const id). apply list_fmap_id. }
  split.
  { simpl. rewrite fmap_imap.
    rewrite (imap_ext _ (λ j _, numbered "nutrientType" j)) by done.
    rewrite (imap_seq_0 nutrientTypes (numbered "nutrientType")).
    apply NoDup_fmap_2; [apply numbered_inj|apply NoDup_seq]. }
  split.
  { apply Forall_forall. intros it [i Hi]%list_elem_of_lookup_1.
    destruct (Hitem i it Hi) as (d & _ & -> & -> & -> & -> & -> & _). done. }
  split.
  { intros i j a b Ha Hb Hca Hcb.
    destruct (Hitem i a Ha) as (d & Hd & _ & _ & _ & _ & _ & Hcd).
    destruct (Hitem j b Hb) as (e & He & _ & _ & _ & _ & _ & Hce).
    rewrite Hcd in Hca. rewrite Hce in Hcb.
    case_bool_decide; [|by destruct Hca]. case_bool_decide; [|by destruct Hcb].
    eapply NoDup_lookup; [exact Hnd|exact Hd|]. congruence. }
  split.
  { intros i v Hi ->. simpl. rewrite list_lookup_imap, Hi. simpl.
    eexists. split; [done|]. simpl. by rewrite bool_decide_eq_true_2. }
  split.
  { intros Hout. apply Forall_forall. intros it [i Hi]%list_elem_of_lookup_1.
    destruct (Hitem i it Hi) as (d & Hd & _ & _ & _ & _ & _ & ->).
    case_bool_decide as Hv; [|done]. destruct (Hout d); [done|].
    by eapply list_elem_of_lookup_2. }
  intros it [i Hi]%list_elem_of_lookup_1.
  destruct (Hitem i it Hi) as (d & Hd & _ & Hv & _).
  exists d. split; [by eapply list_elem_of_lookup_2|].
  unfold NutrientTypeControl.handleChange. by rewrite Hv.
Qed.

(** ** The line elements after a data update *)

Lemma updateChart_gLine_node (s : chart) (i : nat) (node : line_node) :
  gLine (updateChart s) !! i = Some node →
  ∃ n0,
    join_lines (nodeByKeyValue (omap (λ i, gLine s !! i) (gLines_order s)) [])
      (data s) !! i = Some n0
    ∧ data s !! i = Some (ln_datum node)
    ∧ ln_datum node = ln_datum n0
    ∧ ln_text node = ln_text n0
    ∧ ln_opacity node = ln_opacity n0
    ∧ ln_d node = lineGenerator s (values (ln_datum node)).
Proof.
  unfold updateChart.
  set (joined := join_lines _ (data s)).
  destruct (colorScale_each (colorDomain s) _) as [strokes domain1].
  destruct (colorScale_each domain1 _) as [fills domain2]. simpl.
  rewrite list_lookup_imap, zip3_lines_lookup.
  destruct (joined !! i) as [n0|] eqn:Hn0; [|done]. simpl.
  destruct (strokes !! i) as [st|]; [|done]. simpl.
  destruct (fills !! i) as [fi|]; [|done]. simpl.
  pose proof (join_lines_lookup _ _ _ _ Hn0) as Hd.
  intros [= <-]. exists n0. split; [done|].
  by destruct (assoc_nat i (label_layout s)).
Qed.

Lemma lineGenerator_ext (s1 s2 : chart) (vs : list num) :
  years s1 = years s2 → width s1 = width s2 → yDomain s1 = yDomain s2 →
  lineGenerator s1 vs = lineGenerator s2 vs.
Proof.
  intros Hy Hw Hd. unfold lineGenerator, xScale, yScale, xDomain, xRange.
  by rewrite Hy, Hw, Hd.
Qed.

Lemma updateData_gLine_node (s : chart) (ds : list record) (i : nat)
    (node : line_node) :
  gLine (updateData s ds) !! i = Some node →
  ds !! i = Some (ln_datum node)
  ∧ ln_d node = lineGenerator (updateData s ds) (values (ln_datum node)).
Proof.
  unfold updateData, processData_chart.
  set (s2 := {| years := _ |}). intros Hnode.
  destruct (updateChart_gLine_node s2 i node Hnode)
    as (n0 & _ & Hd & _ & _ & _ & Hpath).
  split; [done|]. rewrite Hpath. apply lineGenerator_ext.
  - by rewrite updateChart_years.
  - by rewrite updateChart_width.
  - by rewrite updateChart_yDomain.
Qed.

Lemma updateData_gLine_datum (s : chart) (ds : list record) :
  ln_datum <$> gLine (updateData s ds) = ds.
Proof.
  apply list_eq. intros i. rewrite list_lookup_fmap.
  destruct (gLine (updateData s ds) !! i) as [node|] eqn:Hnode.
  - apply updateData_gLine_node in Hnode as [-> _]. done.
  - destruct (ds !! i) as [d|] eqn:Hd; [|done].
    unfold updateData, processData_chart in Hnode.
    set (s2 := {| years := _ |}) in Hnode.
    destruct (updateChart_gLine_lookup s2 i d Hd)
      as (n & st & fi & _ & _ & _ & _ & Hline & _).
    congruence.
Qed.

Lemma updateData_gLines_order (s : chart) (ds : list record) :
  gLines_order (updateData s ds) ≡ₚ seq 0 (length ds).
Proof.
  unfold updateData, processData_chart.
  set (s2 := {| years := _ |}).
  assert (gLines_order (updateChart s2) = (label_layout s2).*1) as ->.
  { unfold updateChart. by repeat destruct (colorScale_each _ _). }
  unfold label_layout. rewrite label_walk_fst. apply label_order_fst.
Qed.

Lemma vertices_points {A} (f g : nat → A → num) (l : list A) :
  vertices (imap (λ j v, point (f j v) (g j v)) l) = imap (λ j v, (f j v, g j v)) l.
Proof.
  revert f g. induction l as [|v l IH]; intros f g; [done|].
  cbn [imap]. unfold vertices in *. simpl. f_equal.
  apply (IH (λ j, f (S j)) (λ j, g (S j))).
Qed.

Lemma vertices_lineGenerator (s : chart) (vs : list num) :
  vertices (lineGenerator s vs)
  = imap (λ j v, (xScale s (years s !! j), yScale s (Some v))) vs.
Proof.
  unfold lineGenerator. destruct vs as [|v vs]; [done|].
  rewrite line_all_defined.
  change (vertices (lineStart :: ?l)) with (vertices l).
  unfold vertices at 1. rewrite omap_app. fold (@vertices).
  change (omap _ [lineEnd]) with (@nil (num * num)). rewrite app_nil_r.
  apply (vertices_points (λ j _, xScale s (years s !! j))
           (λ _ v, yScale s (Some v)) (v :: vs)).
Qed.

Lemma vertices_samples (s : chart) (d : record) :
  vertices (lineGenerator s (values d))
  = sample_position s <$> samples_of (years s) d.
Proof.
  rewrite vertices_lineGenerator. unfold samples_of. rewrite fmap_imap. done.
Qed.

(** X13. A data update draws one line element per visible record, in
    the order of the records and bound to them, whatever was drawn
    before; the document order the label pass leaves is a permutation of
    them; the path of each is the line generator's, under the updated
    scales, for the values of its record: no curve call for a record
    without values, and one point per value between [lineStart] and
    [lineEnd] otherwise. *)
Theorem lines_follow_data (s : chart) (ds : list record) :
  let s' := updateData s ds in
  ln_datum <$> gLine s' = ds
  ∧ gLines_order s' ≡ₚ seq 0 (length ds)
  ∧ Forall (λ n,
      ln_d n = lineGenerator s' (values (ln_datum n))
      ∧ match values (ln_datum n) with
        | [] => ln_d n = []
        | vs =>
            ln_d n
            = lineStart
              :: imap (λ j v, point (xScale s' (years s !! j)) (yScale s' (Some v))) vs
              ++ [lineEnd]
        end) (gLine s').
Proof.
  intros s'. split; [apply updateData_gLine_datum|].
  split; [apply updateData_gLines_order|].
  apply Forall_forall. intros n [i Hi]%list_elem_of_lookup_1.
  apply updateData_gLine_node in Hi as [_ Hpath]. fold s' in Hpath.
  split; [done|]. rewrite Hpath. unfold lineGenerator.
  destruct (values (ln_datum n)) as [|v vs]; [done|].
  rewrite line_all_defined. unfold s'. by rewrite updateData_years.
Qed.

(** X14. What is hovered is what is drawn: after a data update the
    vertices of the paths, taken line by line, are the pixel positions
    of the flattened samples, in the same order, and the nearest-sample
    index is built from exactly those positions. *)
Theorem index_over_path_vertices (s : chart) (ds : list record) :
  let s' := updateData s ds in
  mjoin ((λ n, vertices (ln_d n)) <$> gLine s') = sample_position s' <$> flatData s'
  ∧ delaunay s'
    = Delaunay_from (mjoin ((λ n, vertices (ln_d n)) <$> gLine s')).
Proof.
  intros s'.
  assert (Hv : mjoin ((λ n, vertices (ln_d n)) <$> gLine s')
               = sample_position s' <$> flatData s').
  { assert (Hn : (λ n, vertices (ln_d n)) <$> gLine s'
               = (λ d, sample_position s' <$> samples_of (years s') d)
                 <$> (ln_datum <$> gLine s')).
    { rewrite <- list_fmap_compose. apply list_fmap_ext.
      intros i n Hi. simpl.
      apply updateData_gLine_node in Hi as [_ ->]. apply vertices_samples. }
    rewrite Hn. subst s'. rewrite updateData_gLine_datum.
    rewrite updateData_flatData, flatten_spec, updateData_years.
    generalize (updateData s ds) (years s). intros s' ys. clear.
    induction ds as [|d ds IH]; [done|].
    rewrite bind_cons, fmap_app, fmap_cons. simpl. by rewrite IH. }
  split; [exact Hv|]. rewrite Hv. apply updateData_delaunay.
Qed.

(** ** The keyed join and the labels *)

Lemma append_hyphen_inj (r1 r2 n1 n2 : string) :
  hyphen_free r1 → hyphen_free r2 →
  (r1 ++ "-" ++ n1)%string = (r2 ++ "-" ++ n2)%string → r1 = r2 ∧ n1 = n2.
Proof.
  unfold hyphen_free. revert r2.
  induction r1 as [|c1 r1 IH]; intros [|c2 r2] H1 H2 Heq.
  - change (String "-" n1 = String "-" n2) in Heq. by injection Heq.
  - change (String "-" n1 = String c2 (r2 ++ "-" ++ n2)%string) in Heq.
    injection Heq as <- _. simpl in H2. by apply not_elem_of_cons in H2 as [? _].
  - change (String c1 (r1 ++ "-" ++ n1)%string = String "-" n2) in Heq.
    injection Heq as -> _. simpl in H1. by apply not_elem_of_cons in H1 as [? _].
  - change (String c1 (r1 ++ "-" ++ n1)%string
            = String c2 (r2 ++ "-" ++ n2)%string) in Heq.
    injection Heq as -> Heq. simpl in H1, H2.
    apply not_elem_of_cons in H1 as [_ H1]. apply not_elem_of_cons in H2 as [_ H2].
    destruct (IH r2 H1 H2 Heq) as [-> ->]. done.
Qed.

Lemma key_inj (d1 d2 : record) :
  hyphen_free (region d1) → hyphen_free (region d2) → key d1 = key d2 →
  region d1 = region d2 ∧ nutrient d1 = nutrient d2.
Proof. apply append_hyphen_inj. Qed.

Lemma assoc_take_Some (k : string) (m m' : list (string * line_node))
    (n : line_node) :
  assoc_take k m = Some (n, m') → (k, n) ∈ m ∧ ∀ x, x ∈ m' → x ∈ m.
Proof.
  revert m'. induction m as [|[k' n'] m IH]; intros m'; [done|]. simpl.
  case_bool_decide as Hk.
  - intros [= <- <-]. subst k'. split; [left|]. intros x Hx. by right.
  - destruct (assoc_take k m) as [[found rest]|]; [|done]. simpl.
    intros [= <- <-]. destruct (IH rest eq_refl) as [Hin Hrest].
    split; [by right|]. intros x [->|Hx]%elem_of_cons; [left|right; auto].
Qed.

Lemma nodeByKeyValue_elem (group : list line_node)
    (seen : list (string * line_node)) (k : string) (n : line_node) :
  (k, n) ∈ nodeByKeyValue group seen →
  (k, n) ∈ seen ∨ (n ∈ group ∧ k = key (ln_datum n)).
Proof.
  revert seen. induction group as [|n0 group IH]; intros seen; [by left|].
  simpl. case_bool_decide.
  - intros [?|[? ?]]%IH; [by left|]. right. split; [by right|done].
  - intros [[?|[= -> ->]%list_elem_of_singleton]%elem_of_app|[? ?]]%IH.
    + by left.
    + right. split; [left|done].
    + right. split; [by right|done].
Qed.

Lemma join_lines_node (m : list (string * line_node)) (ds : list record)
    (i : nat) (n : line_node) :
  join_lines m ds !! i = Some n →
  ∃ d, ds !! i = Some d
       ∧ (n = enter_line d ∨ ∃ n0, (key d, n0) ∈ m ∧ n = rebind n0 d).
Proof.
  revert m i. induction ds as [|d ds IH]; intros m i; [done|]. simpl.
  destruct (assoc_take (key d) m) as [[n0 m']|] eqn:Htake.
  - apply assoc_take_Some in Htake as [Hin Hsub].
    destruct i as [|i]; simpl.
    + intros [= <-]. exists d. split; [done|]. right. by exists n0.
    + intros (d' & Hd' & [->|(n1 & Hn1 & ->)])%IH; exists d'; split; try done.
      * by left.
      * right. exists n1. split; [auto|done].
  - destruct i as [|i]; simpl.
    + intros [= <-]. exists d. split; [done|]. by left.
    + apply IH.
Qed.

Lemma updateData_labelled (s : chart) (ds : list record) :
  labelled s → Forall (λ d, hyphen_free (region d)) ds →
  labelled (updateData s ds).
Proof.
  intros Hs Hds. unfold labelled. apply Forall_forall.
  intros n [i Hi]%list_elem_of_lookup_1.
  unfold updateData, processData_chart in Hi.
  set (s2 := {| years := _ |}) in Hi.
  destruct (updateChart_gLine_node s2 i n Hi)
    as (n0 & Hn0 & Hd & Hdatum & Htext & _ & _).
  rewrite Forall_forall in Hds.
  assert (Hfree : hyphen_free (region (ln_datum n))).
  { apply Hds. by eapply list_elem_of_lookup_2. }
  split; [|done]. rewrite Htext.
  apply join_lines_node in Hn0 as (d & Hd' & Hcase).
  assert (d = ln_datum n) as -> by (simpl in Hd, Hd'; congruence).
  destruct Hcase as [->|(n1 & Hn1 & ->)]; [done|]. simpl.
  apply nodeByKeyValue_elem in Hn1 as [Hn1|[Hn1 Hkey]].
  { by apply not_elem_of_nil in Hn1. }
  apply list_elem_of_omap in Hn1 as (j & _ & Hj). simpl in Hj.
  unfold labelled in Hs. rewrite Forall_forall in Hs.
  destruct (Hs n1) as [-> Hfree1]; [by eapply list_elem_of_lookup_2|].
  symmetry in Hkey. by destruct (key_inj _ _ Hfree1 Hfree Hkey).
Qed.

Lemma Forall2_same_drawing_fmap (g : line_node → line_node) (l : list line_node) :
  (∀ n, same_drawing n (g n)) → Forall2 same_drawing l (g <$> l).
Proof.
  intros Hg. apply Forall2_fmap_r, Forall2_same_length_lookup.
  split; [done|]. intros i a b Ha Hb. assert (a = b) as -> by congruence.
  apply Hg.
Qed.

Lemma same_chart_refl (s : chart) : same_chart s s.
Proof.
  unfold same_chart. repeat (split; [done|]).
  rewrite <- (list_fmap_id (gLine s)) at 2.
  apply Forall2_same_drawing_fmap. by intros n.
Qed.

Lemma same_chart_trans (s1 s2 s3 : chart) :
  same_chart s1 s2 → same_chart s2 s3 → same_chart s1 s3.
Proof.
  unfold same_chart.
  intros (-> & -> & -> & -> & -> & -> & -> & -> & -> & -> & H12)
         (-> & -> & -> & -> & -> & -> & -> & -> & -> & -> & H23).
  repeat (split; [done|]).
  clear -H12 H23. revert H23. generalize (gLine s3).
  induction H12 as [|a b l1 l2 Hab _ IH]; intros l3 H23.
  - by inversion H23.
  - inversion H23 as [|b' c l2' l3' Hbc H23']; subst.
    constructor; [|by apply IH].
    unfold same_drawing in *. naive_solver congruence.
Qed.

Lemma handle_same_chart (s s' : chart) (e : event) :
  NoDup (colorDomain s) →
  (∀ d, d ∈ data s → region d ∈ colorDomain s) →
  handle s e = Returns s' ∨ handle s e = Throws s' →
  same_chart s s'.
Proof.
  intros Hnd Hregions He.
  assert (Hopacity : ∀ g : line_node → num,
    Forall2 same_drawing (gLine s) ((λ n, set_opacity n (g n)) <$> gLine s)).
  { intros g. apply Forall2_same_drawing_fmap. by intros n. }
  destruct e as [|xm ym|]; simpl in He.
  - destruct He as [[= <-]|[=]]. unfold same_chart. simpl.
    repeat (split; [done|]). apply same_chart_refl.
  - unfold handleMouseMove in He.
    destruct (find _ _ _ _) as [i|]; [|by destruct He].
    destruct (differs i (iDelaunay s)).
    2:{ destruct He as [[= <-]|[=]]. apply same_chart_refl. }
    destruct (at_jsint (flatData s) i) as [[year value nutrient0]|].
    2:{ destruct He as [[=]|[= <-]]. unfold same_chart. simpl.
        repeat (split; [done|]). apply same_chart_refl. }
    set (highlightedData := Array_filter _ (data s)) in He.
    destruct (colorScale_each_known (colorDomain s) (region <$> highlightedData))
      as [Hdom _]; [done| |].
    { apply Forall_forall. intros r (d & -> & Hd)%list_elem_of_fmap.
      apply Hregions. unfold highlightedData in Hd.
      rewrite Array_filter_filter in Hd. by apply list_elem_of_filter in Hd as [_ ?]. }
    destruct (colorScale_each _ _) as [fills domain1]. simpl in Hdom. subst domain1.
    destruct He as [[= <-]|[=]]. unfold same_chart. simpl.
    repeat (split; [done|]).
    apply (Hopacity (λ n, if bool_decide (nutrient (ln_datum n) = nutrient0)
                          then of_Z 1 else Num (Q2Qc (1 # 10)))).
  - destruct He as [[= <-]|[=]]. unfold same_chart. simpl.
    repeat (split; [done|]). apply (Hopacity (λ _, of_Z 1)).
Qed.

Lemma handle_labelled (s s' : chart) (e : event) :
  labelled s → handle s e = Returns s' ∨ handle s e = Throws s' → labelled s'.
Proof.
  intros Hs He.
  assert (Hopacity : ∀ g : line_node → line_node,
    (∀ n, ln_text (g n) = ln_text n ∧ ln_datum (g n) = ln_datum n) →
    Forall (λ n, ln_text n = nutrient (ln_datum n)
                 ∧ hyphen_free (region (ln_datum n))) (g <$> gLine s)).
  { intros g Hg. apply Forall_fmap. eapply Forall_impl; [exact Hs|].
    intros n [? ?]. simpl. destruct (Hg n) as [-> ->]. done. }
  destruct e as [|xm ym|]; simpl in He.
  - by destruct He as [[= <-]|[=]].
  - unfold handleMouseMove in He.
    destruct (find _ _ _ _) as [i|]; [|by destruct He].
    destruct (differs i (iDelaunay s)).
    2:{ by destruct He as [[= <-]|[=]]. }
    destruct (at_jsint (flatData s) i) as [[year value nutrient0]|].
    2:{ by destruct He as [[=]|[= <-]]. }
    destruct (colorScale_each _ _) as [fills domain1].
    destruct He as [[= <-]|[=]]. unfold labelled. simpl.
    by apply Hopacity.
  - destruct He as [[= <-]|[=]]. unfold labelled. simpl. by apply Hopacity.
Qed.

(** X15. Every label reads the nutrient of its series.  The text of a
    label is set when its line element enters and is kept when the keyed
    join binds the element to another record of the same key
    [`${d.region}-${d.nutrient}`]; as long as no region name of a record
    given to the chart has a hyphen, the key tells the nutrient, and
    after any data updates and pointer events the text of every label is
    the nutrient of the record its line is bound to. *)
Theorem labels_read_nutrient (w : Qc) (ys : list string) (ds0 ds : list record)
    (s : chart) :
  Forall (λ d, hyphen_free (region d)) ds →
  reachable (Forall (λ d, hyphen_free (region d)))
    (updateData (renderChart w ys ds0) ds) s →
  Forall (λ n, ln_text n = nutrient (ln_datum n)) (gLine s).
Proof.
  intros Hds Hs.
  assert (Hlab : labelled s).
  { induction Hs as [|s ds' _ IH Hok|s e s' _ IH He|s e s' _ IH He].
    - apply updateData_labelled; [|done]. unfold labelled. simpl. constructor.
    - by apply updateData_labelled.
    - eapply handle_labelled; [exact IH|by left].
    - eapply handle_labelled; [exact IH|by right]. }
  eapply Forall_impl; [exact Hlab|]. by intros n [? _].
Qed.

(** ** Pointer events between two data updates *)

Lemma updateChart_colorDomain (s : chart) :
  NoDup (colorDomain s) →
  (∀ d, d ∈ data s → region d ∈ colorDomain s) →
  colorDomain (updateChart s) = colorDomain s.
Proof.
  intros Hnd Hregions. unfold updateChart.
  set (joined := join_lines _ (data s)).
  set (rs := (λ node, region (ln_datum node)) <$> joined).
  assert (Hrs : Forall (λ r, r ∈ colorDomain s) rs).
  { apply Forall_forall. intros r (n & -> & [j Hj]%list_elem_of_lookup_1)%list_elem_of_fmap.
    apply join_lines_lookup in Hj. apply Hregions.
    by eapply list_elem_of_lookup_2. }
  destruct (colorScale_each_known (colorDomain s) rs Hnd Hrs) as [Hdom1 _].
  destruct (colorScale_each (colorDomain s) rs) as [strokes domain1].
  simpl in Hdom1. subst domain1.
  destruct (colorScale_each_known (colorDomain s) rs Hnd Hrs) as [Hdom2 _].
  destruct (colorScale_each (colorDomain s) rs) as [fills domain2].
  simpl in Hdom2. by subst domain2.
Qed.

Lemma updateData_colorDomain (s : chart) (ds : list record) :
  colorDomain (updateData s ds) = dedupe (region <$> ds).
Proof.
  unfold updateData, processData_chart.
  set (s2 := {| years := _ |}).
  assert (Hdom : colorDomain s2 = dedupe (region <$> ds)).
  { simpl. unfold ordinal_domain. apply dedupe_idemp. }
  rewrite updateChart_colorDomain; [done| |].
  - rewrite Hdom. apply dedupe_NoDup.
  - intros d Hd. rewrite Hdom. apply dedupe_elem. by apply list_elem_of_fmap_2.
Qed.

Lemma hovered_same_chart (s0 : chart) (ds : list record) (s : chart) :
  hovered (updateData s0 ds) s → same_chart (updateData s0 ds) s.
Proof.
  intros Hs.
  induction Hs as [|s ds' _ _ []|s e s' _ IH He|s e s' _ IH He].
  - apply same_chart_refl.
  - eapply same_chart_trans; [exact IH|].
    destruct IH as (_ & _ & Hdata & _ & _ & Hdom & _).
    apply (handle_same_chart s s' e); [| |by left].
    + rewrite Hdom, updateData_colorDomain. apply dedupe_NoDup.
    + intros d. rewrite Hdata, Hdom, updateData_data, updateData_colorDomain.
      intros Hd. apply dedupe_elem. by apply list_elem_of_fmap_2.
  - eapply same_chart_trans; [exact IH|].
    destruct IH as (_ & _ & Hdata & _ & _ & Hdom & _).
    apply (handle_same_chart s s' e); [| |by right].
    + rewrite Hdom, updateData_colorDomain. apply dedupe_NoDup.
    + intros d. rewrite Hdata, Hdom, updateData_data, updateData_colorDomain.
      intros Hd. apply dedupe_elem. by apply list_elem_of_fmap_2.
Qed.

Lemma Forall2_same_drawing_datum (l1 l2 : list line_node) :
  Forall2 same_drawing l1 l2 → ln_datum <$> l2 = ln_datum <$> l1.
Proof.
  induction 1 as [|a b l1 l2 Hab _ IH]; [done|].
  rewrite !fmap_cons, IH. by destruct Hab as [-> _].
Qed.

(** X16. Hovering never redraws.  Between two data updates, whatever
    pointer events are delivered (a handler that throws included), the
    chart keeps its data, its scales, its colour domain, its samples and
    index, the threshold rectangle, the document order of the lines, and
    for every line its record, label, colours, path and label position:
    the handlers change opacities, the overlay and the remembered match
    only. *)
Theorem hover_keeps_the_drawing (s0 : chart) (ds : list record) (s : chart) :
  hovered (updateData s0 ds) s →
  same_chart (updateData s0 ds) s
  ∧ data s = ds
  ∧ years s = years s0
  ∧ flatData s = ds ≫= samples_of (years s0)
  ∧ colorDomain s = dedupe (region <$> ds)
  ∧ ln_datum <$> gLine s = ds
  ∧ Forall (λ n, ln_d n = lineGenerator s (values (ln_datum n))) (gLine s).
Proof.
  intros Hs. pose proof (hovered_same_chart s0 ds s Hs) as Hsame.
  split; [exact Hsame|].
  destruct Hsame as (Hy & Hw & Hdata & _ & Hyd & Hdom & Hflat & _ & _ & _ & Hlines).
  split; [by rewrite Hdata, updateData_data|].
  split; [by rewrite Hy, updateData_years|].
  split; [by rewrite Hflat, updateData_flatData, flatten_spec|].
  split; [by rewrite Hdom, updateData_colorDomain|].
  split.
  { rewrite (Forall2_same_drawing_datum _ _ Hlines). apply updateData_gLine_datum. }
  apply Forall_forall. intros n [i Hi]%list_elem_of_lookup_1.
  destruct (Forall2_lookup_r _ _ _ _ _ Hlines Hi) as (n0 & Hn0 & Hdraw).
  apply updateData_gLine_node in Hn0 as [_ Hpath].
  destruct Hdraw as (Hdatum & _ & _ & Hd & _). rewrite <- Hd, Hpath, Hdatum.
  by apply lineGenerator_ext.
Qed.

Lemma bind_blocks_lookup_inv {A B} (g : A → list B) (l : list A) (m c : nat)
    (b : B) :
  Forall (λ a, length (g a) = m) l →
  (l ≫= g) !! c = Some b →
  ∃ k i a, c = (k * m + i)%nat ∧ (i < m)%nat ∧ l !! k = Some a ∧ g a !! i = Some b.
Proof.
  intros Hl. revert c. induction Hl as [|a l Ha _ IH]; intros c; [done|].
  rewrite bind_cons. destruct (decide (c < m)%nat) as [Hc|Hc].
  - rewrite lookup_app_l by lia. intros Hb. exists 0%nat, c, a. done.
  - rewrite lookup_app_r by lia. rewrite Ha.
    intros (k & i & a' & Hk & Hi & Ha' & Hb)%IH.
    exists (S k), i, a'. repeat split; [lia|done|done|done].
Qed.

Lemma zip_with_dot_datum (g : option string → record → dot_node)
    (fills : list (option string)) (ds : list record) :
  (∀ f d, dn_datum (g f d) = d) → length fills = length ds →
  dn_datum <$> zip_with g fills ds = ds.
Proof.
  intros Hg. revert fills. induction ds as [|d ds IH]; intros [|f fills] Hlen;
    try done.
  simpl. rewrite Hg. f_equal. apply IH. by injection Hlen.
Qed.

Lemma at_Z_of_nat {A} (l : list A) (i : nat) : at_Z l (Z.of_nat i) = l !! i.
Proof.
  unfold at_Z. rewrite bool_decide_eq_true_2 by lia. by rewrite Nat2Z.id.
Qed.

(** X17. What a pointer move shows.  Take a chart whose years are
    distinct and whose visible records have one value per year, in a
    state that pointer events have led to since the last data update.  A
    pointer move that returns with a new match [c] has matched the
    sample of year [i] of record [k], with [c = k * |years| + i]; the
    overlay then holds one marker per visible record of the nutrient of
    that record, in the order of the records, each at the x of the
    matched year and the y of its own value for that year, reading that
    value, and the marker of the matched record sits on the matched
    sample; and every line is drawn as before, at opacity 1 if it is of
    that nutrient and 0.1 if not. *)
Theorem pointer_move_overlay (s0 : chart) (ds : list record) (s s1 : chart)
    (xm ym : Qc) :
  NoDup (years s0) →
  Forall (λ d, length (values d) = length (years s0)) ds →
  hovered (updateData s0 ds) s →
  handleMouseMove s xm ym = Returns s1 →
  iDelaunay s1 ≠ iDelaunay s →
  ∃ k i d y v,
    ds !! k = Some d ∧ years s0 !! i = Some y ∧ values d !! i = Some v
    ∧ iDelaunay s1 = Some (JInt (Z.of_nat (k * length (years s0) + i)))
    ∧ flatData s !! (k * length (years s0) + i)%nat
      = Some (Sample (Some y) v (nutrient d))
    ∧ dn_datum <$> gDot s1 = filter (λ d', nutrient d' = nutrient d) ds
    ∧ Forall (λ m, dn_transform m
                   = (xScale s (Some y), yScale s (values (dn_datum m) !! i))
                   ∧ dn_text m = values (dn_datum m) !! i) (gDot s1)
    ∧ (∃ m, m ∈ gDot s1 ∧ dn_datum m = d ∧ dn_text m = Some v
            ∧ dn_transform m = sample_position s (Sample (Some y) v (nutrient d)))
    ∧ Forall2 (λ n n1,
        same_drawing n n1
        ∧ ln_opacity n1
          = Some (if decide (nutrient (ln_datum n) = nutrient d)
                  then of_Z 1 else Num (Q2Qc (1 # 10)))) (gLine s) (gLine s1).
Proof.
  intros Hnd Hlen Hs Hmove Hnew.
  destruct (hovered_same_chart s0 ds s Hs)
    as (Hy & _ & Hdata & _ & _ & _ & Hflat & _).
  rewrite updateData_years in Hy. rewrite updateData_data in Hdata.
  rewrite updateData_flatData, flatten_spec in Hflat.
  unfold handleMouseMove in Hmove.
  destruct (find _ _ _ _) as [j|]; [|done].
  destruct (differs j (iDelaunay s)); [|by injection Hmove as <-].
  destruct (at_jsint (flatData s) j) as [smp|] eqn:Hsmp; [|done].
  apply at_jsint_Some in Hsmp as Hc. destruct Hc as (c & -> & Hc).
  simpl in Hsmp. unfold at_Z in Hsmp.
  rewrite bool_decide_eq_true_2 in Hsmp by lia.
  pose proof Hsmp as Hsmp'. rewrite Hflat in Hsmp'.
  apply (bind_blocks_lookup_inv _ _ (length (years s0))) in Hsmp'
    as (k & i & d & Hki & Hi & Hd & Hsample).
  2:{ eapply Forall_impl; [exact Hlen|]. intros d Hd. unfold samples_of.
      by rewrite length_imap. }
  unfold samples_of in Hsample. apply list_lookup_imap_Some in Hsample
    as (v & Hv & ->).
  destruct (lookup_lt_is_Some_2 (years s0) i Hi) as [y Hyi].
  rewrite Hyi in Hsmp, Hmove. rewrite Hki in Hsmp.
  assert (Hc' : c = Z.of_nat (k * length (years s0) + i)) by lia.
  subst c. clear Hki Hc.
  cbv beta iota zeta in Hmove. unfold indexOf in Hmove.
  rewrite Hy, Hdata in Hmove.
  rewrite (indexOf_from_lookup (years s0) 0 i y Hnd Hyi) in Hmove.
  change (0 + Z.of_nat i)%Z with (Z.of_nat i) in Hmove.
  set (highlightedData := Array_filter _ ds) in Hmove.
  pose proof (colorScale_each_length (colorDomain s) (region <$> highlightedData))
    as Hfills.
  destruct (colorScale_each _ _) as [fills domain1]. simpl in Hfills.
  rewrite length_fmap in Hfills.
  injection Hmove as <-. simpl.
  assert (Hhl : highlightedData = filter (λ d', nutrient d' = nutrient d) ds).
  { unfold highlightedData. rewrite Array_filter_filter.
    apply list_filter_iff. intros d'. apply bool_decide_eq_true. }
  assert (Hdatum : dn_datum <$> zip_with (dot s (Some y) (Z.of_nat i)) fills
                                  highlightedData = highlightedData).
  { by apply zip_with_dot_datum. }
  assert (Hdots : Forall (λ m,
    dn_transform m = (xScale s (Some y), yScale s (values (dn_datum m) !! i))
    ∧ dn_text m = values (dn_datum m) !! i)
    (zip_with (dot s (Some y) (Z.of_nat i)) fills highlightedData)).
  { apply Forall_forall. intros m (f & d' & -> & _ & _)%elem_of_zip_with.
    simpl. by rewrite at_Z_of_nat. }
  exists k, i, d, y, v.
  split; [done|]. split; [done|]. split; [done|]. split; [done|].
  split; [done|]. split; [by rewrite Hdatum|]. split; [exact Hdots|].
  split.
  - assert (Hin : d ∈ dn_datum <$> zip_with (dot s (Some y) (Z.of_nat i)) fills
                                     highlightedData).
    { rewrite Hdatum, Hhl. apply list_elem_of_filter. split; [done|].
      by eapply list_elem_of_lookup_2. }
    apply list_elem_of_fmap in Hin as (m & -> & Hm). exists m.
    rewrite Forall_forall in Hdots. destruct (Hdots m Hm) as [Htr Htx].
    split; [done|]. split; [done|]. split; [by rewrite Htx|].
    rewrite Htr, Hv. done.
  - apply Forall2_fmap_r, Forall2_same_length_lookup. split; [done|].
    intros j n n' Hn Hn'. assert (n = n') as <- by congruence.
    split; [done|]. simpl. by destruct (decide _); [rewrite bool_decide_eq_true_2|rewrite bool_decide_eq_false_2].
Qed.

(** ** The two linear scales *)

Ltac qc_arith :=
  repeat match goal with
  | |- @eq Qc _ _ => apply Qc_is_canon
  | H : @eq Qc _ _ |- _ => apply Qc_eq_Qeq in H
  end; qc_unfold; nra.

(** A linear scale over an increasing domain: the position [t] of the
    value in the domain, and the point of the range at [t]. *)
Lemma scaleLinear_increasing (lo hi r0 r1 v : Qc) :
  lo < hi →
  ∃ t, t * (hi - lo) = v - lo
       ∧ scaleLinear (Num lo, Num hi) (Num r0, Num r1) (Some (Num v))
         = Num (r0 * (1 - t) + r1 * t).
Proof.
  intros Hlt. exists ((v - lo) / (hi - lo)).
  assert (Hspan : hi - lo ≠ 0).
  { intros Hz. assert (hi = lo) as -> by (rewrite <- (Qcplus_0_l lo), <- Hz; ring).
    by apply (irreflexivity Qclt) in Hlt. }
  split.
  { rewrite Qcmult_comm. by apply Qcmult_div_r. }
  unfold scaleLinear, bimap, lt.
  rewrite bool_decide_eq_false_2 by (apply Qcle_not_lt; by apply Qclt_le_weak).
  unfold normalize. simpl. rewrite bool_decide_eq_false_2 by done. done.
Qed.

Lemma scaleLinear_decreasing (lo hi r0 r1 v : Qc) :
  hi < lo →
  ∃ t, t * (lo - hi) = v - hi
       ∧ scaleLinear (Num lo, Num hi) (Num r0, Num r1) (Some (Num v))
         = Num (r1 * (1 - t) + r0 * t).
Proof.
  intros Hlt. exists ((v - hi) / (lo - hi)).
  assert (Hspan : lo - hi ≠ 0).
  { intros Hz. assert (lo = hi) as -> by (rewrite <- (Qcplus_0_l hi), <- Hz; ring).
    by apply (irreflexivity Qclt) in Hlt. }
  split.
  { rewrite Qcmult_comm. by apply Qcmult_div_r. }
  unfold scaleLinear, bimap, lt.
  rewrite bool_decide_eq_true_2 by done.
  unfold normalize. simpl. rewrite bool_decide_eq_false_2 by done. done.
Qed.

Lemma scaleLinear_degenerate (a r0 r1 v : Qc) :
  scaleLinear (Num a, Num a) (Num r0, Num r1) (Some (Num v))
  = Num (r0 * (1 - Q2Qc (1 # 2)) + r1 * Q2Qc (1 # 2)).
Proof.
  unfold scaleLinear, bimap, lt.
  rewrite bool_decide_eq_false_2 by apply (irreflexivity Qclt).
  unfold normalize. simpl.
  rewrite bool_decide_eq_true_2; [done|]. apply Qcplus_opp_r.
Qed.

Lemma scaleLinear_NaN_domain (domain range : num * num) (v : option num) :
  is_nan domain.1 || is_nan domain.2 = true →
  scaleLinear domain range v = NaN.
Proof.
  destruct domain as [d0 d1], range as [r0 r1]. simpl. intros Hnan.
  destruct v as [[v|]|]; [|done|done].
  unfold scaleLinear, bimap.
  assert (lt d1 d0 = false) as -> by (destruct d0, d1; simpl in *; congruence).
  unfold normalize. destruct d0, d1, r0, r1; simpl in *; try congruence; done.
Qed.

Lemma position_zero (t span : Qc) : span ≠ 0 → t * span = 0 → t = 0.
Proof. intros Hspan [?|?]%Qcmult_integral; done. Qed.

Lemma position_one (t span : Qc) : span ≠ 0 → t * span = span → t = 1.
Proof.
  intros Hspan Ht. assert (Hz : (t - 1) * span = 0).
  { replace ((t - 1) * span) with (t * span - span) by ring. rewrite Ht. ring. }
  apply position_zero in Hz; [|done].
  rewrite <- (Qcplus_0_l 1), <- Hz. ring.
Qed.

Lemma Qclt_minus_ne (x y : Qc) : x < y → y - x ≠ 0.
Proof.
  intros Hlt Hz. assert (y = x) as -> by (rewrite <- (Qcplus_0_l x), <- Hz; ring).
  by apply (irreflexivity Qclt) in Hlt.
Qed.

(** X9. The x scale spreads the years over the width.  With the first
    and the last year read as the numbers [a] and [b]: if they differ,
    the first year is at the left margin and the last at the right one;
    if [a < b] and the container is wider than the two margins, later
    years are further right and a year between the two lies between the
    margins; if they are equal (a single year column), every year is at
    the middle between the margins.  A year that is not read as a number,
    or is missing, has no position ([NaN]). *)
Theorem xScale_spreads_years (s : chart) (first final_ : string) (a b : Qc) :
  years s !! 0%nat = Some first →
  last (years s) = Some final_ →
  StringToNumber first = Num a →
  StringToNumber final_ = Num b →
  (a ≠ b →
     xScale s (Some first) = of_Z margin_left
     ∧ xScale s (Some final_) = Num (width s - Qc_of_Z margin_right))
  ∧ (a < b → Qc_of_Z (margin_left + margin_right) < width s →
     ∀ y1 y2 n1 n2,
       StringToNumber y1 = Num n1 → StringToNumber y2 = Num n2 →
       ∃ x1 x2,
         xScale s (Some y1) = Num x1 ∧ xScale s (Some y2) = Num x2
         ∧ (n1 < n2 → x1 < x2)
         ∧ (a ≤ n1 → n1 ≤ b →
            Qc_of_Z margin_left ≤ x1 ∧ x1 ≤ width s - Qc_of_Z margin_right))
  ∧ (a = b →
     ∀ y n, StringToNumber y = Num n →
       ∃ x, xScale s (Some y) = Num x
            ∧ x + x = Qc_of_Z margin_left + (width s - Qc_of_Z margin_right))
  ∧ (∀ y, StringToNumber y = NaN → xScale s (Some y) = NaN)
  ∧ xScale s None = NaN.
Proof.
  intros Hfirst Hlast Ha Hb.
  assert (Hx : ∀ y, xScale s (Some y)
    = scaleLinear (Num a, Num b)
        (of_Z margin_left, Num (width s - Qc_of_Z margin_right))
        (Some (StringToNumber y))).
  { intros y. unfold xScale, xDomain, xRange. rewrite Hfirst, Hlast. simpl.
    by rewrite Ha, Hb. }
  split; [|split; [|split; [|split]]].
  - intros Hab. rewrite !Hx, Ha, Hb. unfold of_Z.
    destruct (Qclt_le_dec a b) as [Hlt|Hle].
    + destruct (scaleLinear_increasing a b (Qc_of_Z margin_left)
                  (width s - Qc_of_Z margin_right) a Hlt) as (t & Ht & ->).
      destruct (scaleLinear_increasing a b (Qc_of_Z margin_left)
                  (width s - Qc_of_Z margin_right) b Hlt) as (u & Hu & ->).
      assert (t = 0) as ->.
      { apply (position_zero t (b - a)); [by apply Qclt_minus_ne|].
        rewrite Ht. ring. }
      assert (u = 1) as -> by (apply (position_one u (b - a)); [by apply Qclt_minus_ne|done]).
      split; f_equal; ring.
    + assert (Hlt : b < a).
      { destruct (Qcle_lt_or_eq _ _ Hle) as [?|?]; [done|]. by destruct Hab. }
      destruct (scaleLinear_decreasing a b (Qc_of_Z margin_left)
                  (width s - Qc_of_Z margin_right) a Hlt) as (t & Ht & ->).
      destruct (scaleLinear_decreasing a b (Qc_of_Z margin_left)
                  (width s - Qc_of_Z margin_right) b Hlt) as (u & Hu & ->).
      assert (t = 1) as -> by (apply (position_one t (a - b)); [by apply Qclt_minus_ne|done]).
      assert (u = 0) as ->.
      { apply (position_zero u (a - b)); [by apply Qclt_minus_ne|].
        rewrite Hu. ring. }
      split; f_equal; ring.
  - intros Hab Hwide y1 y2 n1 n2 Hn1 Hn2. rewrite !Hx, Hn1, Hn2. unfold of_Z.
    destruct (scaleLinear_increasing a b (Qc_of_Z margin_left)
                (width s - Qc_of_Z margin_right) n1 Hab) as (t & Ht & ->).
    destruct (scaleLinear_increasing a b (Qc_of_Z margin_left)
                (width s - Qc_of_Z margin_right) n2 Hab) as (u & Hu & ->).
    eexists _, _. split; [done|]. split; [done|]. clear Hx.
    change (margin_left + margin_right)%Z with 210%Z in Hwide.
    unfold margin_left, margin_right in *. generalize dependent (width s).
    intros w Hwide. split.
    + intros Hn. assert (t < u) by qc_arith. qc_arith.
    + intros H1 H2. assert (0 ≤ t) by qc_arith. assert (t ≤ 1) by qc_arith.
      split; qc_arith.
  - intros <- y n Hn. rewrite Hx, Hn. unfold of_Z.
    rewrite scaleLinear_degenerate. eexists. split; [done|].
    unfold margin_left, margin_right. generalize (width s). intros w. qc_arith.
  - intros y Hy. rewrite Hx, Hy. done.
  - done.
Qed.

Lemma yScale_increasing_domain (s : chart) (lo hi v : Qc) :
  yDomain s = (Num lo, Num hi) → lo < hi →
  ∃ t, t * (hi - lo) = v - lo
       ∧ yScale s (Some (Num v))
         = Num (Qc_of_Z (height - margin_bottom) * (1 - t) + Qc_of_Z margin_top * t).
Proof.
  intros Hd Hlt. unfold yScale, yRange, of_Z. rewrite Hd.
  by apply scaleLinear_increasing.
Qed.

(** X10. The y scale puts greater values higher.  Under a domain from
    [lo] to a greater [hi], the lower end is drawn on the bottom axis
    ([height - margin.bottom]) and the upper end at the top margin; a
    greater value has a smaller y; and a value within the domain is
    drawn between the top margin and the bottom axis. *)
Theorem yScale_orientation (s : chart) (lo hi : Qc) :
  yDomain s = (Num lo, Num hi) → lo < hi →
  yScale s (Some (Num lo)) = of_Z (height - margin_bottom)
  ∧ yScale s (Some (Num hi)) = of_Z margin_top
  ∧ ∀ v1 v2, ∃ y1 y2,
      yScale s (Some (Num v1)) = Num y1 ∧ yScale s (Some (Num v2)) = Num y2
      ∧ (v1 < v2 → y2 < y1)
      ∧ (lo ≤ v1 → v1 ≤ hi →
         Qc_of_Z margin_top ≤ y1 ∧ y1 ≤ Qc_of_Z (height - margin_bottom)).
Proof.
  intros Hd Hlt. split; [|split].
  - destruct (yScale_increasing_domain s lo hi lo Hd Hlt) as (t & Ht & ->).
    assert (t = 0) as ->.
    { apply (position_zero t (hi - lo)); [by apply Qclt_minus_ne|].
      rewrite Ht. ring. }
    unfold of_Z. f_equal. ring.
  - destruct (yScale_increasing_domain s lo hi hi Hd Hlt) as (t & Ht & ->).
    assert (t = 1) as ->
      by (apply (position_one t (hi - lo)); [by apply Qclt_minus_ne|done]).
    unfold of_Z. f_equal. ring.
  - intros v1 v2.
    destruct (yScale_increasing_domain s lo hi v1 Hd Hlt) as (t & Ht & ->).
    destruct (yScale_increasing_domain s lo hi v2 Hd Hlt) as (u & Hu & ->).
    eexists _, _. split; [done|]. split; [done|].
    change (height - margin_bottom)%Z with 570%Z. unfold margin_top. split.
    + intros Hv. assert (t < u) by qc_arith. qc_arith.
    + intros H1 H2. assert (0 ≤ t) by qc_arith. assert (t ≤ 1) by qc_arith.
      split; qc_arith.
Qed.

(** ** The threshold band *)

Lemma threshold_ext (s1 s2 : chart) :
  width s1 = width s2 → yDomain s1 = yDomain s2 → threshold s1 = threshold s2.
Proof. intros Hw Hd. unfold threshold, yScale. by rewrite Hw, Hd. Qed.

Lemma updateData_thresholdRect (s : chart) (ds : list record) :
  thresholdRect (updateData s ds) = threshold (updateData s ds).
Proof.
  unfold updateData, processData_chart.
  set (s2 := {| years := _ |}).
  assert (thresholdRect (updateChart s2) = threshold s2) as ->.
  { unfold updateChart. by repeat destruct (colorScale_each _ _). }
  apply threshold_ext.
  - by rewrite updateChart_width.
  - by rewrite updateChart_yDomain.
Qed.

(** X11. The band below 100.  After a data update whose domain goes
    from [lo] to a greater [hi], with [lo] below 100: the line of 100 is
    at some [y] above the bottom axis, and the rectangle spans the plot
    from [y] down to the bottom axis: its height is
    [height - margin.bottom - y], positive.  If the domain reaches 100
    the band starts at or below the top margin.  The one exception is
    [y = 0]: the fallback [||] of the script then takes the [y] of the
    rectangle for missing and puts it on the bottom axis, while the
    height stays [height - margin.bottom]. *)
Theorem threshold_band (s : chart) (ds : list record) (lo hi : Qc) :
  let s' := updateData s ds in
  yDomain s' = (Num lo, Num hi) → lo < hi → lo < Qc_of_Z 100 →
  ∃ y, yScale s' (Some (of_Z 100)) = Num y
    ∧ y < Qc_of_Z (height - margin_bottom)
    ∧ (Qc_of_Z 100 ≤ hi → Qc_of_Z margin_top ≤ y)
    ∧ rect_x (thresholdRect s') = of_Z margin_left
    ∧ rect_width (thresholdRect s')
      = Num (width s - Qc_of_Z margin_left - Qc_of_Z margin_right)
    ∧ rect_height (thresholdRect s') = Num (Qc_of_Z (height - margin_bottom) - y)
    ∧ (y ≠ 0 → rect_y (thresholdRect s') = Num y)
    ∧ (y = 0 → rect_y (thresholdRect s') = of_Z (height - margin_bottom)).
Proof.
  intros s' Hd Hlt Hlo.
  destruct (yScale_increasing_domain s' lo hi (Qc_of_Z 100) Hd Hlt)
    as (t & Ht & Hy).
  eexists. split; [exact Hy|].
  assert (Hpos : 0 < t) by qc_arith.
  assert (Hbelow : Qc_of_Z (height - margin_bottom) * (1 - t) + Qc_of_Z margin_top * t
                   < Qc_of_Z (height - margin_bottom)).
  { change (height - margin_bottom)%Z with 570%Z. unfold margin_top. qc_arith. }
  split; [exact Hbelow|]. split.
  { intros Hhi. assert (t ≤ 1) by qc_arith.
    change (height - margin_bottom)%Z with 570%Z. unfold margin_top. qc_arith. }
  unfold s' at 1 2 3 4 5. rewrite updateData_thresholdRect. fold s'.
  change (Some (Num (Qc_of_Z 100))) with (Some (of_Z 100)) in Hy.
  unfold threshold. rewrite Hy.
  cbn [rect_x rect_y rect_width rect_height]. unfold yRange, of_Z.
  cbn [fst sub lift2].
  split; [done|]. split; [by unfold s'; rewrite updateData_width|].
  assert (Hheight : Qc_of_Z (height - margin_bottom)
    - (Qc_of_Z (height - margin_bottom) * (1 - t) + Qc_of_Z margin_top * t) ≠ 0).
  { by apply Qclt_minus_ne. }
  split.
  { unfold or_else. by rewrite bool_decide_eq_false_2. }
  split.
  - intros Hnz. unfold or_else. by rewrite bool_decide_eq_false_2.
  - intros Hz. unfold or_else. by rewrite bool_decide_eq_true_2.
Qed.

(** ** Records without a number, records without a value *)

Lemma d3_min_none (ds : list record) :
  visible_values ds = [] →
  d3_min (fmap (λ d, d3_min (fmap Some (values d))) ds) = None.
Proof.
  intros Hnone.
  destruct (fold_extreme_nested Qcle min_step) with (ds := ds)
    as (r & Hr & Hspec).
  - apply Qcle_refl.
  - apply Qcle_trans.
  - intros a b. destruct (Qclt_le_dec a b); auto using Qclt_le_weak.
  - done.
  - by intros [a|].
  - intros q. unfold min_step, ge. by rewrite bool_decide_true by apply Qcle_refl.
  - intros a q. unfold min_step, gt, lt. case_bool_decide; [right|left].
    + split; [done|]. by apply Qclt_le_weak.
    + split; [done|]. by apply Qcnot_lt_le.
  - unfold d3_min. rewrite Hr. destruct r as [m|]; [|done].
    destruct Hspec as [Hm _]. rewrite Hnone in Hm. by apply elem_of_nil in Hm.
Qed.

Lemma d3_max_none (ds : list record) :
  visible_values ds = [] →
  d3_max (fmap (λ d, d3_max (fmap Some (values d))) ds) = None.
Proof.
  intros Hnone.
  destruct (fold_extreme_nested (λ a b, b ≤ a) max_step) with (ds := ds)
    as (r & Hr & Hspec).
  - intros a. apply Qcle_refl.
  - intros a b c ??. by apply Qcle_trans with b.
  - intros a b. destruct (Qclt_le_dec a b); auto using Qclt_le_weak.
  - done.
  - by intros [a|].
  - intros q. unfold max_step, ge. by rewrite bool_decide_true by apply Qcle_refl.
  - intros a q. unfold max_step, lt. case_bool_decide; [right|left].
    + split; [done|]. by apply Qclt_le_weak.
    + split; [done|]. by apply Qcnot_lt_le.
  - unfold d3_max. rewrite Hr. destruct r as [m|]; [|done].
    destruct Hspec as [Hm _]. rewrite Hnone in Hm. by apply elem_of_nil in Hm.
Qed.

Lemma Math_min_NaN_r (a : num) : Math_min a NaN = NaN.
Proof. by destruct a. Qed.

(** X12. Visible records without a single number.  When no value of the
    visible records is a number (no record, no year column, or fields
    that are not numbers only), the domain given to the rounding is
    [[NaN, NaN]]; if the rounding leaves it so, as d3's does, the y scale
    answers [NaN] for every value, the threshold rectangle falls back to
    the bottom axis with height zero, and every line that is drawn has
    [NaN] as the y of each point of its path and as the y of its label. *)
Theorem no_number_no_scale (s : chart) (ds : list record) :
  let s' := updateData s ds in
  visible_values ds = [] →
  nice (NaN, NaN) = (NaN, NaN) →
  yDomain s' = (NaN, NaN)
  ∧ (∀ v, yScale s' v = NaN)
  ∧ thresholdRect s'
    = {| rect_x := of_Z margin_left;
         rect_y := of_Z (height - margin_bottom);
         rect_width := Num (width s - Qc_of_Z margin_left - Qc_of_Z margin_right);
         rect_height := of_Z 0 |}
  ∧ Forall (λ n,
      ln_y n = NaN
      ∧ Forall (λ c, match c with point _ y => y = NaN | _ => True end) (ln_d n))
      (gLine s').
Proof.
  intros s' Hnone Hnice.
  assert (Hd : yDomain s' = (NaN, NaN)).
  { unfold s'. rewrite updateData_yDomain. unfold minY, maxY.
    rewrite d3_min_none, d3_max_none by done. exact Hnice. }
  assert (Hy : ∀ v, yScale s' v = NaN).
  { intros v. unfold yScale. rewrite Hd. by apply scaleLinear_NaN_domain. }
  split; [exact Hd|]. split; [exact Hy|]. split.
  { unfold s' at 1. rewrite updateData_thresholdRect. fold s'.
    unfold threshold. rewrite Hy. unfold s'. by rewrite updateData_width. }
  apply Forall_forall. intros n [i Hi]%list_elem_of_lookup_1. split.
  - unfold s', updateData, processData_chart in Hi.
    set (s2 := {| years := _ |}) in Hi.
    assert (Hy2 : ∀ v, yScale s2 v = NaN).
    { intros v. rewrite <- (Hy v). apply yScale_ext.
      unfold s', updateData, processData_chart. by rewrite updateChart_yDomain. }
    destruct (updateChart_gLine_node s2 i n Hi) as (_ & _ & Hdi & _).
    destruct (updateChart_gLine_lookup s2 i _ Hdi)
      as (n1 & st & fi & _ & _ & _ & _ & Hline & _).
    rewrite Hi in Hline. injection Hline as ->.
    assert (Hperm : (label_layout s2).*1 ≡ₚ seq 0 (length ds)).
    { unfold label_layout. rewrite label_walk_fst. apply label_order_fst. }
    assert (Hin : i ∈ (label_layout s2).*1).
    { rewrite Hperm. apply elem_of_seq. apply lookup_lt_Some in Hdi.
      simpl in Hdi. lia. }
    apply list_elem_of_fmap in Hin as ([i' y] & -> & Hin).
    rewrite (assoc_nat_elem _ _ y); [|by rewrite Hperm; apply NoDup_seq|done].
    simpl. unfold label_layout in Hin.
    apply label_walk_elem in Hin as (d & prev & _ & ->).
    rewrite Hy2. apply Math_min_NaN_r.
  - apply updateData_gLine_node in Hi as [_ ->]. fold s'.
    unfold lineGenerator. destruct (values (ln_datum n)) as [|v vs]; [done|].
    rewrite line_all_defined. constructor; [done|].
    apply Forall_app. split; [|by repeat constructor].
    apply Forall_forall. intros c [j Hj]%list_elem_of_lookup_1.
    apply list_lookup_imap_Some in Hj as (v' & _ & ->). apply Hy.
Qed.

Lemma samples_of_no_values (ys : list string) (ds : list record) :
  Forall (λ d, values d = []) ds → ds ≫= samples_of ys = [].
Proof.
  induction 1 as [|d ds Hd _ IH]; [done|].
  rewrite bind_cons, IH. unfold samples_of. by rewrite Hd.
Qed.

Lemma no_samples_throw (s0 : chart) (ds : list record) (s : chart) (xm ym : Qc) :
  Forall (λ d, values d = []) ds →
  points (Delaunay_from []) = [] →
  hovered (updateData s0 ds) s →
  flatData s = []
  ∧ ∃ s1, handleMouseMove s xm ym = Throws s1 ∧ iDelaunay s1 = Some JNaN.
Proof.
  intros Hds Hpoints Hs.
  destruct (hovered_same_chart s0 ds s Hs)
    as (_ & _ & _ & _ & _ & _ & Hflat & Hdel & _).
  rewrite updateData_flatData, flatten_spec, samples_of_no_values in Hflat by done.
  rewrite updateData_delaunay, updateData_flatData, flatten_spec,
    samples_of_no_values in Hdel by done.
  split; [exact Hflat|].
  unfold handleMouseMove. rewrite Hdel, Hflat. simpl fmap.
  rewrite find_Num, Hpoints. cbn [find_loop length].
  unfold _step. rewrite Hpoints.
  rewrite (bool_decide_true (length [] = 0%nat)), orb_true_r by done.
  simpl. eauto.
Qed.

(** X20. No sample, no hover.  When no visible record holds a value (no
    record is visible, or the table has no year column), there is no
    sample after the data update, and - with an index that has no point
    for no sample - every pointer move throws, whatever pointer events
    came before it since the update: the handler has stored [NaN] as its
    match and reads [flatData[NaN]]. *)
Theorem hover_without_samples (s0 : chart) (ds : list record) (s : chart)
    (xm ym : Qc) :
  Forall (λ d, values d = []) ds →
  points (Delaunay_from []) = [] →
  hovered (updateData s0 ds) s →
  flatData s = []
  ∧ ∃ s1, handleMouseMove s xm ym = Throws s1
          ∧ iDelaunay s1 = Some JNaN
          ∧ hovered (updateData s0 ds) s1.
Proof.
  intros Hds Hpoints Hs.
  destruct (no_samples_throw s0 ds s xm ym Hds Hpoints Hs)
    as (Hflat & s1 & Hs1 & Hi).
  split; [exact Hflat|].
  exists s1. split; [done|]. split; [done|].
  by apply (reachable_throws _ _ s (mousemove xm ym) s1).
Qed.

(** ** The page *)

Lemma filter_head_NoDup (r : string) (rest : list string) :
  NoDup (r :: rest) → filter (λ d, d ∈ [r]) (r :: rest) = [r].
Proof.
  intros [Hnotin _]%NoDup_cons.
  rewrite filter_cons, decide_True by left. f_equal.
  induction rest as [|r' rest IH]; [done|].
  apply not_elem_of_cons in Hnotin as [Hne Hnotin].
  rewrite filter_cons, decide_False; [by apply IH|].
  by intros ->%list_elem_of_singleton.
Qed.

Lemma main_in_sync (clientWidth : Qc) (csv : table) (p : page) :
  main clientWidth csv = Some p → in_sync csv p.
Proof.
  unfold main, in_sync.
  pose proof (processData_heads csv) as [Hnt Hrs].
  assert (Hnd : NoDup (processData csv).2) by apply dedupe_NoDup.
  destruct (processData csv) as [[[ds ys] nts] rs]. simpl in Hnt, Hrs, Hnd.
  destruct (nts !! 0%nat) as [nutrientType0|] eqn:Hnt0; [|done].
  destruct (rs !! 0%nat) as [region0|] eqn:Hrs0; [|done]. simpl.
  intros [= <-]. simpl.
  destruct (render_limit rs [region0] Hnd) as [Hlimit Hchecked].
  { unfold MAX_COUNT. simpl. lia. }
  assert (Hfirst : filter (λ d, d ∈ [region0]) rs = [region0]).
  { destruct rs as [|r rest]; [done|]. injection Hrs0 as ->.
    by apply filter_head_NoDup. }
  split; [done|]. split; [by eapply list_elem_of_lookup_2|].
  split; [by rewrite Hchecked, Hfirst|]. split; [done|]. split.
  { rewrite Hchecked, Hfirst. simpl.
    intros it [i Hi]%list_elem_of_lookup_1.
    apply list_lookup_imap_Some in Hi as (d & _ & ->). done. }
  split; [done|]. split; [done|].
  by exists (renderChart clientWidth ys ds).
Qed.

Lemma control_step_in_sync (csv : table) (p : page) (e : control_event) :
  in_sync csv p → in_sync csv (control_step p e).
Proof.
  unfold in_sync.
  assert (Hnd : NoDup (processData csv).2) by apply dedupe_NoDup.
  destruct (processData csv) as [[[ds ys] nts] rs]. simpl in Hnd.
  intros (Hdata & Htype & Hregions & Hlimit & Hcolor & Hradios & Hfiltered
          & s & Hyears & Hchart).
  destruct e as [k|k]; simpl.
  - destruct (items (pg_nutrientTypes p) !! k) as [it|] eqn:Hk.
    2:{ repeat (split; [done|]). by exists s. }
    simpl. rewrite Hdata. split; [done|]. split.
    { rewrite Hradios in Hk.
      apply list_lookup_imap_Some in Hk as (d & Hd & ->). simpl.
      by eapply list_elem_of_lookup_2. }
    split; [done|]. split; [done|]. split; [done|]. split; [done|].
    split; [done|].
    exists (app_chart (pg_app p)). split; [|done].
    by rewrite Hchart, updateData_years.
  - pose proof (click_limit rs (pg_regions p) k Hnd Hlimit) as Hlimit'.
    unfold RegionsControl.click in *.
    destruct (items (rc_fieldset (pg_regions p)) !! k) as [it|] eqn:Hk.
    2:{ repeat (split; [done|]). by exists s. }
    destruct (cb_disabled (input it)) as [dis|].
    { repeat (split; [done|]). by exists s. }
    set (c1 := {| rc_domain := _ |}) in *.
    assert (Hev : (RegionsControl.handleChange c1).2
                  = regions_changed (checked_values (RegionsControl.handleChange c1).1)).
    { rewrite handleChange_checked. simpl. by rewrite currentValues_checked. }
    assert (Hcol : ∀ it', it' ∈ items (rc_fieldset (RegionsControl.handleChange c1).1) →
      lb_color (label it')
      = control_colorScale (checked_values (RegionsControl.handleChange c1).1)
          (datum it')).
    { rewrite handleChange_checked. simpl.
      intros it' (it0 & -> & _)%list_elem_of_fmap. simpl.
      by rewrite currentValues_checked. }
    destruct (RegionsControl.handleChange c1) as [c2 ev]. simpl in *.
    subst ev. simpl. rewrite Hdata.
    split; [done|]. split; [done|]. split; [done|]. split; [done|].
    split; [done|]. split; [done|]. split; [done|].
    exists (app_chart (pg_app p)). split; [|done].
    by rewrite Hchart, updateData_years.
Qed.

Lemma control_steps_in_sync (clientWidth : Qc) (csv : table) (p0 : page)
    (es : list control_event) :
  main clientWidth csv = Some p0 → in_sync csv (control_steps p0 es).
Proof.
  intros Hp0%main_in_sync. unfold control_steps. revert p0 Hp0.
  induction es as [|e es IH]; intros p0 Hp0; [done|].
  simpl. apply IH. by apply control_step_in_sync.
Qed.

(** X6. The chart shows what the controls say.  From the page the
    callback makes of a table with rows, and after any sequence of picks
    of a nutrient type and clicks on region checkboxes: the full record
    set is still the one of the table; the selected type is one of the
    table's; the selected regions are the checked regions, in the order
    of the control, distinct and no more than [MAX_COUNT]; the records
    shown are those of that type and of these regions, in table order;
    the chart holds them as its data and has one line per record, in
    that order; and each has one value per year column. *)
Theorem page_in_sync (clientWidth : Qc) (csv : table) (p0 : page)
    (es : list control_event) :
  main clientWidth csv = Some p0 →
  let p := control_steps p0 es in
  let fs := app_filters (pg_app p) in
  app_data (pg_app p) = (processData csv).1.1.1
  ∧ f_nutrientType fs ∈ (processData csv).1.2
  ∧ f_regions fs = checked_values (pg_regions p)
  ∧ NoDup (f_regions fs)
  ∧ (length (f_regions fs) ≤ MAX_COUNT)%nat
  ∧ f_regions fs `sublist_of` (processData csv).2
  ∧ filteredData (pg_app p)
    = filter (λ r, nutrientType r = f_nutrientType fs ∧ region r ∈ f_regions fs)
        (app_data (pg_app p))
  ∧ data (app_chart (pg_app p)) = filteredData (pg_app p)
  ∧ ln_datum <$> gLine (app_chart (pg_app p)) = filteredData (pg_app p)
  ∧ years (app_chart (pg_app p)) = drop 3 (columns csv)
  ∧ Forall (λ r, length (values r) = length (drop 3 (columns csv)))
      (filteredData (pg_app p)).
Proof.
  intros Hp0 p fs.
  pose proof (control_steps_in_sync clientWidth csv p0 es Hp0) as Hsync.
  fold p in Hsync. unfold in_sync in Hsync.
  pose proof (processData_values_length csv) as Hlen.
  assert (Hnd : NoDup (processData csv).2) by apply dedupe_NoDup.
  assert (Hys : (processData csv).1.1.2 = drop 3 (columns csv)) by done.
  destruct (processData csv) as [[[ds ys] nts] rs]. simpl in *. subst ys.
  destruct Hsync as (Hdata & Htype & Hregions & (Hdatum & Hcount & _) & _ & _
                     & Hfiltered & s & Hyears & Hchart).
  assert (Hsub : checked_values (pg_regions p) `sublist_of` rs).
  { rewrite <- Hdatum. unfold checked_values. apply fmap_sublist, sublist_filter. }
  fold fs in Hregions, Htype, Hfiltered.
  split; [done|]. split; [done|]. split; [done|].
  split; [rewrite Hregions; by eapply sublist_NoDup|].
  split; [by rewrite Hregions|]. split; [by rewrite Hregions|].
  split; [by rewrite Hfiltered, Hdata, filterData_filter|].
  split; [by rewrite Hchart, updateData_data|].
  split; [by rewrite Hchart, updateData_gLine_datum|].
  split; [by rewrite Hchart, updateData_years|].
  rewrite Hfiltered. by apply filterData_Forall.
Qed.

(** X7. Nothing checked, nothing shown.  The regions control has no
    lower limit: on the page made of a table with rows, whenever the
    picks and clicks leave no region checked, no record is shown and the
    chart has no line; with an index that has no point for no sample,
    every pointer move over the chart then throws, until the next data
    update. *)
Theorem no_region_checked (clientWidth : Qc) (csv : table) (p0 : page)
    (es : list control_event) :
  main clientWidth csv = Some p0 →
  let p := control_steps p0 es in
  checked_values (pg_regions p) = [] →
  filteredData (pg_app p) = []
  ∧ gLine (app_chart (pg_app p)) = []
  ∧ (points (Delaunay_from []) = [] →
     ∀ s xm ym, hovered (app_chart (pg_app p)) s →
       ∃ s1, handleMouseMove s xm ym = Throws s1).
Proof.
  intros Hp0 p Hnone.
  pose proof (control_steps_in_sync clientWidth csv p0 es Hp0) as Hsync.
  fold p in Hsync. unfold in_sync in Hsync.
  destruct (processData csv) as [[[ds ys] nts] rs].
  destruct Hsync as (_ & _ & Hregions & _ & _ & _ & Hfiltered & s0 & _ & Hchart).
  assert (Hempty : filteredData (pg_app p) = []).
  { rewrite Hfiltered, filterData_filter, Hregions, Hnone.
    clear. induction ds as [|d ds IH]; [done|].
    rewrite filter_cons, decide_False; [done|].
    intros [_ Hin]. by apply elem_of_nil in Hin. }
  split; [exact Hempty|]. rewrite Hchart, Hempty.
  split; [apply updateData_gLine_nil|].
  intros Hpoints s xm ym Hs.
  destruct (no_samples_throw s0 [] s xm ym) as (_ & s1 & Hthrow & _);
    [constructor|done|done|].
  by exists s1.
Qed.

(** ** Colours *)

Lemma updateData_gLine_colour (s : chart) (ds : list record) (n : line_node) :
  n ∈ gLine (updateData s ds) →
  ∃ k, dedupe (region <$> ds) !! k = Some (region (ln_datum n))
       ∧ ln_stroke n = COLOR_SCHEME !! (k `mod` 2)%nat
       ∧ ln_fill n = COLOR_SCHEME !! (k `mod` 2)%nat.
Proof.
  intros [i Hi]%list_elem_of_lookup_1.
  pose proof (updateData_gLine_node s ds i n Hi) as [Hd _].
  assert (Hin : region (ln_datum n) ∈ dedupe (region <$> ds)).
  { apply dedupe_elem, list_elem_of_fmap_2. by eapply list_elem_of_lookup_2. }
  apply list_elem_of_lookup_1 in Hin as [k Hk]. exists k. split; [done|].
  destruct (updateData_gLine_colours s ds i k _ Hd Hk)
    as (n' & Hn' & _ & Hst & Hfi & _).
  assert (n' = n) as -> by congruence. done.
Qed.

Lemma palette_distinct (j k : nat) :
  (j < 2)%nat → (k < 2)%nat → j ≠ k → COLOR_SCHEME !! j ≠ COLOR_SCHEME !! k.
Proof.
  intros Hj Hk Hjk.
  destruct j as [|[|j]], k as [|[|k]]; try lia; simpl; congruence.
Qed.

(** X8. Two colours are enough, and the legend agrees with the chart
    when the records come in the order of the control.  On the page
    made of a table with rows, after any picks and clicks: every line
    has one palette colour as stroke and as label fill; lines of the
    same region have the same colour and lines of different regions
    have different colours; and if the regions of the records shown,
    in order of first appearance, are the checked regions in the order
    of the control, the label of each checked region in the control has
    the colour of the lines of that region. *)
Theorem colours_tell_regions (clientWidth : Qc) (csv : table) (p0 : page)
    (es : list control_event) :
  main clientWidth csv = Some p0 →
  let p := control_steps p0 es in
  let lines := gLine (app_chart (pg_app p)) in
  (∀ n, n ∈ lines →
     ∃ c, c ∈ COLOR_SCHEME ∧ ln_stroke n = Some c ∧ ln_fill n = Some c)
  ∧ (∀ a b, a ∈ lines → b ∈ lines →
       (region (ln_datum a) = region (ln_datum b) ↔ ln_stroke a = ln_stroke b))
  ∧ (dedupe (region <$> filteredData (pg_app p))
       = f_regions (app_filters (pg_app p)) →
     ∀ n it, n ∈ lines → it ∈ items (rc_fieldset (pg_regions p)) →
       datum it = region (ln_datum n) → lb_color (label it) = ln_stroke n).
Proof.
  intros Hp0 p lines.
  pose proof (control_steps_in_sync clientWidth csv p0 es Hp0) as Hsync.
  fold p in Hsync. unfold in_sync in Hsync.
  assert (Hnd : NoDup (processData csv).2) by apply dedupe_NoDup.
  destruct (processData csv) as [[[ds ys] nts] rs]. simpl in Hnd.
  destruct Hsync as (Hdata & _ & Hregions & (Hdatum & Hcount & _) & Hcolor & _
                     & Hfiltered & s & _ & Hchart).
  set (fs := app_filters (pg_app p)) in *.
  set (shown := filteredData (pg_app p)) in *.
  set (dom := dedupe (region <$> shown)).
  assert (Hcv : NoDup (f_regions fs)).
  { rewrite Hregions. eapply sublist_NoDup; [exact Hnd|]. rewrite <- Hdatum.
    unfold checked_values. apply fmap_sublist, sublist_filter. }
  assert (Hdom : (length dom ≤ 2)%nat).
  { transitivity (length (f_regions fs)); [|by rewrite Hregions].
    apply submseteq_length, NoDup_submseteq; [apply dedupe_NoDup|].
    intros r (d & -> & Hd)%dedupe_elem%list_elem_of_fmap.
    rewrite Hfiltered, filterData_filter in Hd.
    by apply list_elem_of_filter in Hd as [[_ ?] _]. }
  assert (Hline : ∀ n, n ∈ lines →
    ∃ k, (k < 2)%nat ∧ dom !! k = Some (region (ln_datum n))
         ∧ ln_stroke n = COLOR_SCHEME !! k ∧ ln_fill n = COLOR_SCHEME !! k).
  { intros n Hn. unfold lines in Hn. rewrite Hchart in Hn.
    apply updateData_gLine_colour in Hn as (k & Hk & Hst & Hfi). fold dom in Hk.
    assert (Hk2 : (k < 2)%nat) by (apply lookup_lt_Some in Hk; lia).
    rewrite Nat.mod_small in Hst, Hfi by done. by exists k. }
  split; [|split].
  - intros n (k & Hk2 & _ & -> & ->)%Hline.
    destruct (lookup_lt_is_Some_2 COLOR_SCHEME k Hk2) as [c Hc].
    exists c. split; [by eapply list_elem_of_lookup_2|done].
  - intros a b (j & Hj2 & Hj & -> & _)%Hline (k & Hk2 & Hk & -> & _)%Hline.
    split.
    + intros Hab. rewrite Hab in Hj.
      assert (j = k) as -> by (eapply NoDup_lookup; [apply dedupe_NoDup|done..]).
      done.
    + intros Hcol. destruct (decide (j = k)) as [->|Hjk]; [congruence|].
      by destruct (palette_distinct j k).
  - intros Horder n it (k & Hk2 & Hk & -> & _)%Hline Hit Hd.
    rewrite (Hcolor it Hit), <- Hregions, Hd.
    subst dom shown fs. rewrite Horder in Hk.
    rewrite (control_colorScale_known _ _ k Hcv Hk).
    by rewrite Nat.mod_small.
Qed.

(** X18. A marker has the colour of its series.  In a state that
    pointer events have led to since the last data update, a pointer
    move that returns with a new match fills every marker with the
    palette colour that the lines of the marker's region have. *)
Theorem marker_colours (s0 : chart) (ds : list record) (s s1 : chart)
    (xm ym : Qc) :
  hovered (updateData s0 ds) s →
  handleMouseMove s xm ym = Returns s1 →
  iDelaunay s1 ≠ iDelaunay s →
  ∀ m n, m ∈ gDot s1 → n ∈ gLine s1 →
    region (ln_datum n) = region (dn_datum m) →
    is_Some (dn_fill m) ∧ dn_fill m = ln_stroke n.
Proof.
  intros Hs Hmove Hnew m n Hm Hn Hregion.
  assert (Hs1 : hovered (updateData s0 ds) s1).
  { by apply (reachable_returns _ _ s (mousemove xm ym) s1). }
  destruct (hovered_same_chart s0 ds s Hs)
    as (_ & _ & Hdata & _ & _ & Hdom & _).
  rewrite updateData_data in Hdata. rewrite updateData_colorDomain in Hdom.
  destruct (hovered_same_chart s0 ds s1 Hs1)
    as (_ & _ & _ & _ & _ & _ & _ & _ & _ & _ & Hlines).
  apply list_elem_of_lookup_1 in Hn as [i Hi].
  destruct (Forall2_lookup_r _ _ _ _ _ Hlines Hi) as (n0 & Hn0 & Hdraw).
  destruct Hdraw as (Hdatum & _ & Hstroke & _). rewrite <- Hstroke.
  apply list_elem_of_lookup_2, updateData_gLine_colour in Hn0
    as (k & Hk & -> & _).
  rewrite Hdatum, Hregion in Hk. clear Hi Hlines Hdatum Hstroke Hregion n n0 i.
  unfold handleMouseMove in Hmove.
  destruct (find _ _ _ _) as [j|]; [|done].
  destruct (differs j (iDelaunay s)); [|by injection Hmove as <-].
  destruct (at_jsint (flatData s) j) as [[year value nutrient0]|]; [|done].
  rewrite Hdata, Hdom in Hmove.
  set (highlightedData := Array_filter _ ds) in Hmove.
  destruct (colorScale_each_known (dedupe (region <$> ds))
              (region <$> highlightedData)) as [_ Hfills].
  { apply dedupe_NoDup. }
  { apply Forall_forall. intros r (d & -> & Hd)%list_elem_of_fmap.
    apply dedupe_elem, list_elem_of_fmap_2. unfold highlightedData in Hd.
    rewrite Array_filter_filter in Hd. by apply list_elem_of_filter in Hd as [_ ?]. }
  destruct (colorScale_each _ _) as [fills domain1]. cbn [fst] in Hfills.
  injection Hmove as <-. cbn [with_overlay gDot] in Hm.
  apply list_elem_of_lookup_1 in Hm as [i Hi].
  apply lookup_zip_with_Some in Hi as (f & d & -> & Hf & Hd).
  cbn [dot dn_fill dn_datum] in *.
  rewrite (Hfills i (region d) k) in Hf; [|by rewrite list_lookup_fmap, Hd|done].
  injection Hf as <-. split; [|done].
  assert (Hlt : (k `mod` 2 < 2)%nat) by (apply Nat.mod_upper_bound; lia).
  change (is_Some (COLOR_SCHEME !! (k `mod` 2)%nat)).
  revert Hlt. generalize (k `mod` 2)%nat. intros c Hc.
  apply lookup_lt_is_Some_2. exact Hc.
Qed.

(** X19. The first move after a data update refreshes the overlay.
    The update resets the remembered match to [null]; as long as it is
    [null] (pointer events that match nothing leave it so), a pointer
    move that returns has found a sample of the updated list, remembers
    it, and replaces the markers by those of the visible records of that
    sample's nutrient: no marker of the data shown before is left. *)
Theorem first_move_refreshes (s0 : chart) (ds : list record) (s s1 : chart)
    (xm ym : Qc) :
  hovered (updateData s0 ds) s →
  iDelaunay s = None →
  handleMouseMove s xm ym = Returns s1 →
  ∃ c smp,
    iDelaunay s1 = Some (JInt c)
    ∧ at_Z (ds ≫= samples_of (years s0)) c = Some smp
    ∧ dn_datum <$> gDot s1 = filter (λ d, nutrient d = s_nutrient smp) ds
    ∧ Forall (λ n, ln_opacity n
                   = Some (if decide (nutrient (ln_datum n) = s_nutrient smp)
                           then of_Z 1 else Num (Q2Qc (1 # 10)))) (gLine s1).
Proof.
  intros Hs Hnull Hmove.
  destruct (hovered_same_chart s0 ds s Hs)
    as (_ & _ & Hdata & _ & _ & _ & Hflat & _).
  rewrite updateData_data in Hdata.
  rewrite updateData_flatData, flatten_spec in Hflat.
  unfold handleMouseMove in Hmove. rewrite Hnull in Hmove.
  destruct (find _ _ _ _) as [j|]; [|done].
  assert (Hdiff : differs j None = true) by by destruct j.
  rewrite Hdiff in Hmove.
  destruct (at_jsint (flatData s) j) as [[year value nutrient0]|] eqn:Hsmp; [|done].
  apply at_jsint_Some in Hsmp as Hc. destruct Hc as (c & -> & Hc).
  simpl in Hsmp. rewrite Hflat in Hsmp.
  rewrite Hdata in Hmove.
  set (highlightedData := Array_filter _ ds) in Hmove.
  pose proof (colorScale_each_length (colorDomain s) (region <$> highlightedData))
    as Hfills.
  destruct (colorScale_each _ _) as [fills domain1]. cbn [fst] in Hfills.
  rewrite length_fmap in Hfills.
  injection Hmove as <-. cbn [with_overlay iDelaunay gDot gLine].
  exists c, (Sample year value nutrient0). split; [done|]. split; [done|]. split.
  - rewrite zip_with_dot_datum by done.
    unfold highlightedData. rewrite Array_filter_filter.
    apply list_filter_iff. intros d. apply bool_decide_eq_true.
  - apply Forall_fmap, Forall_forall. intros n _. simpl.
    destruct (decide _);
      [by rewrite bool_decide_eq_true_2|by rewrite bool_decide_eq_false_2].
Qed.

End Further.

(** * The properties on the example tables *)

Import Platform Scenario.

Ltac by_compute :=
  match goal with
  | |- ?P => apply (bool_decide_eq_true_1 P); vm_compute; reflexivity
  end.

(** The example index stores the coordinate pairs it is given. *)
Lemma example_points_length (pts : list (num * num)) :
  length (points (Delaunay_from pts)) = (2 * length pts)%nat.
Proof.
  assert (Hflat : length (flat pts) = (2 * length pts)%nat).
  { induction pts as [|p pts IH]; [done|].
    change (flat (p :: pts)) with (p.1 :: p.2 :: flat pts).
    cbn [length]. rewrite IH. lia. }
  unfold Delaunay_from. by repeat case_match.
Qed.

(** ** The filter evaluator: scenario A *)

Example filterData_two_of_three :
  let east := Record_ "Vitamin" "Vitamin C" "East" [of_Z 90; of_Z 95] in
  filterData [north; east; south] (Filters "Vitamin" ["North"; "South"]%string)
  = [north; south].
Proof. reflexivity. Qed.

(** ** The y-domain: scenario B *)

Lemma yDomain_rule_witness :
  least (Qc_of_Z 100) (visible_values [south; north])
  ∧ greatest (Qc_of_Z 120) (visible_values [south; north])
  ∧ yDomain (updateData (app_chart app0) [south; north])
    = nice (Num (Qc_min (Qc_of_Z 90) (Qc_of_Z 100)), Num (Qc_of_Z 120)).
Proof.
  assert (Hlo : least (Qc_of_Z 100) (visible_values [south; north]))
    by by_compute.
  assert (Hhi : greatest (Qc_of_Z 120) (visible_values [south; north]))
    by by_compute.
  split; [exact Hlo|]. split; [exact Hhi|].
  destruct (yDomain_rule (app_chart app0) [south; north] _ _ Hlo Hhi)
    as [Hdomain _].
  exact Hdomain.
Defined.

Example yDomain_60_140 :
  let r := Record_ "Vitamin" "Vitamin C" "North" [of_Z 60; of_Z 140] in
  bool_decide (yDomain (updateData (app_chart app0) [r])
               = (of_Z 60, of_Z 140)) = true.
Proof. vm_compute. reflexivity. Qed.

Example yDomain_clamped_at_90 :
  let r := Record_ "Vitamin" "Vitamin C" "North" [of_Z 95; of_Z 132] in
  bool_decide (yDomain (updateData (app_chart app0) [r])
               = (of_Z 90, of_Z 135)) = true.
Proof. vm_compute. reflexivity. Qed.

(** ** The label pass: scenario C *)



(** C2 as stated fails when a series ends in a value that is not a
    number.  The comparator answers [NaN] for it, which the sort reads
    as equal, so the two series stay in data order; [Math.min] then
    gives [NaN] for the first label, and [NaN - 12] carries it to the
    second: the series that ends in 120 has its natural position at 30
    and no label near it, and its y attribute is [NaN].  The two labels
    are not 12 pixels apart. *)
Lemma nan_final_value_spoils_the_labels :
  let s' := updateData chart4 [unmeasured; north] in
  final_at s' 0 = Some NaN
  ∧ final_at s' 1 = Some (of_Z 120)
  ∧ label_order (data s') = [(0%nat, unmeasured); (1%nat, north)]
  ∧ label_layout s' = [(0%nat, NaN); (1%nat, NaN)]
  ∧ naturalY s' 1 = of_Z 30
  ∧ renderedY s' 1 = Some NaN
  ∧ ¬ (∀ i j yi yj, adjacent (label_layout s') (i, yi) (j, yj) →
         le_num (add yj (of_Z 12)) yi)
  ∧ ¬ (∀ i y, (i, y) ∈ label_layout s' → le_num y (naturalY s' i)).
Proof.
  intros s'.
  assert (Hlayout : label_layout s' = [(0%nat, NaN); (1%nat, NaN)]) by by_compute.
  split; [by_compute|]. split; [by_compute|]. split; [by_compute|].
  split; [exact Hlayout|]. split; [by_compute|]. split; [by_compute|].
  split.
  - intros Hgap. apply (Hgap 0%nat 1%nat NaN NaN). rewrite Hlayout.
    by exists 0%nat.
  - intros Hup. apply (Hup 1%nat NaN). rewrite Hlayout. right. left.
Qed.

(** Final values 100 and 104 are 10.8 pixels apart on this scale: the
    lower series keeps its natural position and the higher one is pushed
    to 12 pixels above it. *)
Example labels_100_104 :
  let s' := updateData chart3 [low; high] in
  bool_decide (naturalY s' 0 = of_Z 300
               ∧ naturalY s' 1 = Num (Q2Qc (2892 # 10))
               ∧ renderedY s' 0 = Some (of_Z 300)
               ∧ renderedY s' 1 = Some (of_Z 288)) = true.
Proof. vm_compute. reflexivity. Qed.

(** ** Series colours *)

(** C9 as stated fails: with both regions checked the series of the
    north is drawn in the second palette colour; after the south is
    unchecked, the north is still checked and its series is drawn in the
    first. *)
Lemma colour_changes_while_selected :
  "North"%string ∈ f_regions (app_filters app1)
  ∧ "North"%string ∈ f_regions (app_filters app2)
  ∧ strokes_of (app_chart app1) "North" = [Some "#ff7f0e"%string]
  ∧ strokes_of (app_chart app2) "North" = [Some "#1f77b4"%string].
Proof.
  split; [by_compute|]. split; [by_compute|]. split; by vm_compute.
Qed.

Lemma series_colour_by_position_witness :
  [south; north] !! 1%nat = Some north
  ∧ dedupe (region <$> [south; north]) !! 1%nat = Some (region north)
  ∧ ∃ node c,
      gLine (updateData (app_chart app0) [south; north]) !! 1%nat = Some node
      ∧ ln_datum node = north
      ∧ COLOR_SCHEME !! (1 `mod` 2)%nat = Some c
      ∧ ln_stroke node = Some c
      ∧ ln_fill node = Some c.
Proof.
  split; [reflexivity|]. split; [reflexivity|].
  destruct (series_colour_by_position (app_chart app0) [south; north] 1 1 north
              eq_refl eq_refl) as [Hnode _].
  exact Hnode.
Defined.

(** ** Non-numeric fields *)

(** C7 as stated fails: the field ["n/a"] becomes [NaN], and the path of
    the series is a single segment that passes the 2019 sample to the
    curve with a [NaN] y-coordinate; nothing is skipped and the path has
    no gap. *)
Lemma nan_sample_is_drawn :
  let '(ds, ys, _, _) := processData table1 in
  let s := updateData (renderChart width810 ys ds) ds in
  bool_decide
    (values <$> ds = [[of_Z 100; NaN; of_Z 110]]
     ∧ ln_d <$> gLine s
       = [[lineStart; point (of_Z 30) (of_Z 300); point (of_Z 330) NaN;
           point (of_Z 630) (of_Z 30); lineEnd]]) = true.
Proof. vm_compute. reflexivity. Qed.

Lemma non_numeric_field_witness :
  rows table1 !! 0%nat = Some row1
  ∧ drop 3 (columns table1) !! 1%nat = Some "2019"%string
  ∧ unary_plus (cells row1 !! "2019"%string) = NaN
  ∧ ∃ r, (processData table1).1.1.1 !! 0%nat = Some r
         ∧ values r !! 1%nat = Some NaN.
Proof.
  assert (Hnan : unary_plus (cells row1 !! "2019"%string) = NaN)
    by (vm_compute; reflexivity).
  split; [reflexivity|]. split; [reflexivity|]. split; [exact Hnan|].
  destruct (non_numeric_field_is_NaN_and_is_drawn table1 0 1 row1 "2019"
              eq_refl eq_refl Hnan) as (r & Hr & Hv & _).
  exists r. split; [exact Hr|exact Hv].
Defined.

(** ** Repeated pointer positions *)

Lemma same_position_no_update_witness :
  let s1 := returned (handleMouseMove chart2 (Qc_of_Z 330) (Qc_of_Z 300)) chart2 in
  handleMouseMove chart2 (Qc_of_Z 330) (Qc_of_Z 300) = Returns s1
  ∧ iDelaunay s1 = Some (JInt 0)
  ∧ handleMouseMove s1 (Qc_of_Z 330) (Qc_of_Z 300) = Returns s1.
Proof.
  intros s1.
  assert (Hmove : handleMouseMove chart2 (Qc_of_Z 330) (Qc_of_Z 300) = Returns s1)
    by (vm_compute; reflexivity).
  split; [exact Hmove|]. split; [vm_compute; reflexivity|].
  destruct (same_position_no_update chart2 s1 _ _ Hmove) as [Hagain _].
  exact Hagain.
Defined.

(** ** The flattened samples and the index over them *)

Lemma samples_index_and_hint_witness :
  (∃ d, d ∈ [vitC; vitD] ∧ values d ≠ [])
  ∧ flatData (updateData chart2 [vitC; vitD])
    = [Sample (Some "2019"%string) (of_Z 100) "Vitamin C";
       Sample (Some "2019"%string) (of_Z 110) "Vitamin D"]
  ∧ iDelaunay (updateData chart2 [vitC; vitD]) = None
  ∧ ∀ es, match run (updateData chart2 [vitC; vitD]) es with
          | Throws _ => False
          | _ => True
          end.
Proof.
  assert (Hsome : ∃ d, d ∈ [vitC; vitD] ∧ values d ≠ []).
  { exists vitC. split; [left|discriminate]. }
  destruct (@samples_index_and_hint env chart2 [vitC; vitD] Hsome
              example_points_length) as (Hflat & _ & _ & Hnull & Hrun).
  split; [exact Hsome|]. split; [exact Hflat|]. split; [exact Hnull|].
  intros es. specialize (Hrun es).
  destruct (run (updateData chart2 [vitC; vitD]) es); [exact I|exact Hrun|exact I].
Defined.

Example pointer_events_return :
  let q := Qc_of_Z 330 in
  match run chart2 [mouseenter; mousemove q (Qc_of_Z 40); mousemove q (Qc_of_Z 290);
                    mouseleave] with
  | Returns s => iDelaunay s = Some (JInt 0)
  | _ => False
  end.
Proof. vm_compute. reflexivity. Qed.

(** ** The nearest sample: scenario D *)







(** ** Entering and leaving the chart *)

(** C5, what the script does.  The first entry shows an empty overlay
    and there is no remembered index.  After a move onto the first
    sample and a leave, the next entry shows the overlay with the marker
    of that sample still in it and the index still remembered; a move
    back onto the same sample then changes nothing, so the marker is
    shown while both series stay at full opacity. *)
Theorem reentry_keeps_marker_and_index :
  let xm := Qc_of_Z 330 in
  let ym := Qc_of_Z 300 in
  (gDots_display (handleMouseEnter chart2) = None
   ∧ gDot (handleMouseEnter chart2) = []
   ∧ iDelaunay (handleMouseEnter chart2) = None)
  ∧ ∃ s4, run chart2 [mouseenter; mousemove xm ym; mouseleave; mouseenter]
            = Returns s4
          ∧ gDots_display s4 = None
          ∧ dn_datum <$> gDot s4 = [vitC]
          ∧ iDelaunay s4 = Some (JInt 0)
          ∧ handleMouseMove s4 xm ym = Returns s4
          ∧ bool_decide (ln_opacity <$> gLine s4 = [Some (of_Z 1); Some (of_Z 1)])
            = true.
Proof.
  intros xm ym. split.
  { split; [vm_compute; reflexivity|]. split; vm_compute; reflexivity. }
  eexists.
  split; [vm_compute; reflexivity|]. split; [vm_compute; reflexivity|].
  split; [vm_compute; reflexivity|]. split; [vm_compute; reflexivity|].
  split; vm_compute; reflexivity.
Qed.

(** ** An empty visible subset *)

Lemma empty_subset_witness :
  filteredData (handleFilterChange app0 (regions_changed [])) = []
  ∧ points (Delaunay_from []) = []
  ∧ ∃ s1, handleMouseMove (updateData (app_chart app0) []) (Qc_of_Z 100)
            (Qc_of_Z 100) = Throws s1.
Proof.
  split; [reflexivity|]. split; [reflexivity|].
  destruct (@empty_subset_pointer_move_throws env (app_chart app0)
              (Qc_of_Z 100) (Qc_of_Z 100) eq_refl)
    as (_ & _ & _ & s1 & Hthrow & _).
  exists s1. exact Hthrow.
Defined.

(** * The further properties on the example tables *)

Import Pages.

(** ** The controls *)

Lemma regions_limit_witness :
  NoDup three_regions
  ∧ (length ["North"%string] < MAX_COUNT)%nat
  ∧ checked_values
      (clicks (renderRegionsControl three_regions ["North"%string]) [1; 2]%nat)
    = ["North"; "South"]%string
  ∧ limit_kept three_regions
      (clicks (renderRegionsControl three_regions ["North"%string]) [1; 2]%nat).
Proof.
  assert (Hnd : NoDup three_regions) by by_compute.
  assert (Hlen : (length ["North"%string] < MAX_COUNT)%nat) by (vm_compute; lia).
  split; [exact Hnd|]. split; [exact Hlen|]. split; [vm_compute; reflexivity|].
  destruct (regions_limit three_regions ["North"%string] [1; 2]%nat Hnd Hlen)
    as [Hkept _].
  exact Hkept.
Defined.

Lemma regions_legend_witness :
  let c := clicks (renderRegionsControl three_regions ["North"%string]) [1%nat] in
  NoDup (datum <$> items (rc_fieldset c))
  ∧ (RegionsControl.handleChange c).2 = regions_changed ["North"; "South"]%string
  ∧ (λ it, lb_color (label it)) <$> items (rc_fieldset (RegionsControl.handleChange c).1)
    = [Some "#1f77b4"; Some "#ff7f0e"; Some "currentColor"]%string.
Proof.
  intros c.
  assert (Hnd : NoDup (datum <$> items (rc_fieldset c))) by by_compute.
  split; [exact Hnd|].
  destruct (regions_legend c Hnd) as (Hev & _).
  split; [rewrite Hev; vm_compute; reflexivity|vm_compute; reflexivity].
Defined.

Lemma nutrientType_radios_witness :
  NoDup ["Vitamin"; "Mineral"]%string
  ∧ (λ it, (ra_id (input it), ra_checked (input it), lb_for (label it)))
      <$> items (renderNutrientTypeControl ["Vitamin"; "Mineral"]%string
                   (Some "Vitamin"%string))
    = [("nutrientType1", Some "checked", "nutrientType1");
       ("nutrientType2", None, "nutrientType2")]%string
  ∧ NoDup ((λ it, ra_id (input it))
             <$> items (renderNutrientTypeControl ["Vitamin"; "Mineral"]%string
                          (Some "Vitamin"%string))).
Proof.
  assert (Hnd : NoDup ["Vitamin"; "Mineral"]%string) by by_compute.
  split; [exact Hnd|]. split; [vm_compute; reflexivity|].
  destruct (nutrientType_radios ["Vitamin"; "Mineral"]%string
              (Some "Vitamin"%string) Hnd) as (_ & Hids & _).
  exact Hids.
Defined.

(** ** The page *)

Lemma page_in_sync_witness :
  ∃ p0, main width810 table2 = Some p0
    ∧ let p := control_steps p0 [click_region 1; pick_nutrientType 1]%nat in
      app_filters (pg_app p) = Filters "Mineral" ["South"; "North"]%string
      ∧ nutrient <$> filteredData (pg_app p) = ["Iron"%string]
      ∧ ln_datum <$> gLine (app_chart (pg_app p)) = filteredData (pg_app p).
Proof.
  destruct (main width810 table2) as [p0|] eqn:Hmain; [|vm_compute in Hmain; done].
  exists p0. split; [reflexivity|]. intros p.
  destruct (page_in_sync width810 table2 p0
              [click_region 1; pick_nutrientType 1]%nat Hmain)
    as (_ & _ & _ & _ & _ & _ & _ & _ & Hlines & _).
  split; [|split; [|exact Hlines]].
  - unfold main in Hmain. injection Hmain as <-. vm_compute. reflexivity.
  - unfold main in Hmain. injection Hmain as <-. vm_compute. reflexivity.
Defined.

Lemma colours_tell_regions_witness :
  ∃ p0, main width810 table2 = Some p0
    ∧ let p := control_steps p0 [click_region 1]%nat in
      (λ n, (region (ln_datum n), ln_stroke n)) <$> gLine (app_chart (pg_app p))
      = [("South", Some "#1f77b4"); ("North", Some "#ff7f0e")]%string
      ∧ ∀ a b, a ∈ gLine (app_chart (pg_app p)) → b ∈ gLine (app_chart (pg_app p)) →
          (region (ln_datum a) = region (ln_datum b) ↔ ln_stroke a = ln_stroke b).
Proof.
  destruct (main width810 table2) as [p0|] eqn:Hmain; [|vm_compute in Hmain; done].
  exists p0. split; [reflexivity|]. intros p.
  destruct (colours_tell_regions width810 table2 p0 [click_region 1]%nat Hmain)
    as (_ & Hregions & _).
  split; [|exact Hregions].
  unfold main in Hmain. injection Hmain as <-. vm_compute. reflexivity.
Defined.

Lemma no_region_checked_witness :
  ∃ p0, main width810 table2 = Some p0
    ∧ let p := control_steps p0 [click_region 0]%nat in
      checked_values (pg_regions p) = []
      ∧ filteredData (pg_app p) = []
      ∧ gLine (app_chart (pg_app p)) = [].
Proof.
  destruct (main width810 table2) as [p0|] eqn:Hmain; [|vm_compute in Hmain; done].
  exists p0. split; [reflexivity|]. intros p.
  assert (Hnone : checked_values (pg_regions p) = []).
  { unfold main in Hmain. injection Hmain as <-. vm_compute. reflexivity. }
  split; [exact Hnone|].
  destruct (no_region_checked width810 table2 p0 [click_region 0]%nat Hmain Hnone)
    as (Hempty & Hlines & _).
  split; [exact Hempty|exact Hlines].
Defined.

(** The order of the records matters to the legend: with North and South
    checked and the minerals picked, the only record shown is of the
    North, whose line is blue while its label in the control is orange. *)
Example legend_can_disagree :
  ∃ p0, main width810 table2 = Some p0
    ∧ let p := control_steps p0 [click_region 1; pick_nutrientType 1]%nat in
      (λ it, (datum it, lb_color (label it))) <$> items (rc_fieldset (pg_regions p))
      = [("South", Some "#1f77b4"); ("North", Some "#ff7f0e")]%string
      ∧ (λ n, (region (ln_datum n), ln_stroke n)) <$> gLine (app_chart (pg_app p))
        = [("North", Some "#1f77b4")]%string.
Proof.
  eexists. split; [reflexivity|]. vm_compute. done.
Qed.

(** ** The chart between two data updates *)

Lemma chart2_hovered : hovered chart2 chart2_moved.
Proof.
  apply (reachable_returns _ _ chart2 (mousemove (Qc_of_Z 330) (Qc_of_Z 40))).
  - apply reachable_start.
  - vm_compute. reflexivity.
Qed.

Lemma chart2_moved_returns :
  handleMouseMove chart2 (Qc_of_Z 330) (Qc_of_Z 40) = Returns chart2_moved.
Proof. vm_compute. reflexivity. Qed.

Lemma chart2_moved_new : iDelaunay chart2_moved ≠ iDelaunay chart2.
Proof. by_compute. Qed.

Lemma labels_read_nutrient_witness :
  let s := updateData chart2_moved [vitD] in
  Forall (λ d, hyphen_free (region d)) [vitC; vitD]
  ∧ reachable (Forall (λ d, hyphen_free (region d))) chart2 s
  ∧ Forall (λ n, ln_text n = nutrient (ln_datum n)) (gLine s).
Proof.
  intros s.
  assert (Hfree : Forall (λ d, hyphen_free (region d)) [vitC; vitD])
    by (repeat constructor; unfold hyphen_free; by_compute).
  assert (Hfree' : Forall (λ d, hyphen_free (region d)) [vitD])
    by (repeat constructor; unfold hyphen_free; by_compute).
  assert (Hreach : reachable (Forall (λ d, hyphen_free (region d))) chart2 s).
  { apply reachable_update; [|exact Hfree'].
    apply (reachable_returns _ _ chart2 (mousemove (Qc_of_Z 330) (Qc_of_Z 40)));
      [apply reachable_start|exact chart2_moved_returns]. }
  split; [exact Hfree|]. split; [exact Hreach|].
  exact (labels_read_nutrient width810 years1 [vitC; vitD] [vitC; vitD] s
           Hfree Hreach).
Defined.

Lemma hover_keeps_the_drawing_witness :
  hovered chart2 chart2_moved
  ∧ same_chart chart2 chart2_moved
  ∧ data chart2_moved = [vitC; vitD].
Proof.
  split; [exact chart2_hovered|].
  destruct (hover_keeps_the_drawing (renderChart width810 years1 [vitC; vitD])
              [vitC; vitD] chart2_moved chart2_hovered) as (Hsame & Hdata & _).
  split; [exact Hsame|exact Hdata].
Defined.

Lemma pointer_move_overlay_witness :
  NoDup (years (renderChart width810 years1 [vitC; vitD]))
  ∧ Forall (λ d, length (values d) = length years1) [vitC; vitD]
  ∧ hovered chart2 chart2
  ∧ handleMouseMove chart2 (Qc_of_Z 330) (Qc_of_Z 40) = Returns chart2_moved
  ∧ iDelaunay chart2_moved ≠ iDelaunay chart2
  ∧ iDelaunay chart2_moved = Some (JInt 1)
  ∧ ∃ d, d ∈ [vitC; vitD]
         ∧ dn_datum <$> gDot chart2_moved
           = filter (λ d', nutrient d' = nutrient d) [vitC; vitD].
Proof.
  assert (Hnd : NoDup (years (renderChart width810 years1 [vitC; vitD])))
    by by_compute.
  assert (Hlen : Forall (λ d, length (values d)
                              = length (years (renderChart width810 years1 [vitC; vitD])))
                   [vitC; vitD]) by by_compute.
  assert (Hstart : hovered chart2 chart2) by apply reachable_start.
  split; [exact Hnd|]. split; [exact Hlen|]. split; [exact Hstart|].
  split; [exact chart2_moved_returns|]. split; [exact chart2_moved_new|].
  split; [vm_compute; reflexivity|].
  destruct (pointer_move_overlay (renderChart width810 years1 [vitC; vitD])
              [vitC; vitD] chart2 chart2_moved _ _ Hnd Hlen Hstart
              chart2_moved_returns chart2_moved_new)
    as (k & i & d & y & v & Hd & _ & _ & _ & _ & Hdots & _).
  exists d. split; [by eapply list_elem_of_lookup_2|exact Hdots].
Defined.

Lemma marker_colours_witness :
  hovered chart2 chart2
  ∧ handleMouseMove chart2 (Qc_of_Z 330) (Qc_of_Z 40) = Returns chart2_moved
  ∧ iDelaunay chart2_moved ≠ iDelaunay chart2
  ∧ ∀ m n, m ∈ gDot chart2_moved → n ∈ gLine chart2_moved →
      region (ln_datum n) = region (dn_datum m) →
      is_Some (dn_fill m) ∧ dn_fill m = ln_stroke n.
Proof.
  assert (Hstart : hovered chart2 chart2) by apply reachable_start.
  split; [exact Hstart|].
  split; [exact chart2_moved_returns|]. split; [exact chart2_moved_new|].
  exact (marker_colours (renderChart width810 years1 [vitC; vitD]) [vitC; vitD]
           chart2 chart2_moved _ _ Hstart chart2_moved_returns chart2_moved_new).
Defined.

Lemma first_move_refreshes_witness :
  hovered chart2 (handleMouseEnter chart2)
  ∧ iDelaunay (handleMouseEnter chart2) = None
  ∧ ∃ s1, handleMouseMove (handleMouseEnter chart2) (Qc_of_Z 330) (Qc_of_Z 40)
            = Returns s1
          ∧ iDelaunay s1 = Some (JInt 1)
          ∧ ∃ smp, dn_datum <$> gDot s1
                   = filter (λ d, nutrient d = s_nutrient smp) [vitC; vitD].
Proof.
  assert (Henter : hovered chart2 (handleMouseEnter chart2)).
  { apply (reachable_returns _ _ chart2 mouseenter); [apply reachable_start|done]. }
  assert (Hnull : iDelaunay (handleMouseEnter chart2) = None) by reflexivity.
  split; [exact Henter|]. split; [exact Hnull|].
  set (s1 := returned (handleMouseMove (handleMouseEnter chart2) (Qc_of_Z 330)
                         (Qc_of_Z 40)) chart2).
  assert (Hmove : handleMouseMove (handleMouseEnter chart2) (Qc_of_Z 330)
                    (Qc_of_Z 40) = Returns s1) by (vm_compute; reflexivity).
  exists s1. split; [exact Hmove|]. split; [vm_compute; reflexivity|].
  destruct (first_move_refreshes (renderChart width810 years1 [vitC; vitD])
              [vitC; vitD] (handleMouseEnter chart2) s1 _ _ Henter Hnull Hmove)
    as (c & smp & _ & _ & Hdots & _).
  exists smp. exact Hdots.
Defined.

Lemma hover_without_samples_witness :
  let s := updateData (renderChart width810 years1 [bare]) [bare] in
  Forall (λ d, values d = []) [bare]
  ∧ points (Delaunay_from []) = []
  ∧ hovered s s
  ∧ gLine s ≠ []
  ∧ ∃ s1, handleMouseMove s (Qc_of_Z 100) (Qc_of_Z 100) = Throws s1.
Proof.
  intros s.
  assert (Hbare : Forall (λ d, values d = []) [bare]) by by_compute.
  assert (Hstart : hovered s s) by apply reachable_start.
  split; [exact Hbare|]. split; [reflexivity|]. split; [exact Hstart|].
  split; [by_compute|].
  destruct (@hover_without_samples env (renderChart width810 years1 [bare]) [bare]
              s (Qc_of_Z 100) (Qc_of_Z 100) Hbare eq_refl Hstart)
    as (_ & s1 & Hthrow & _).
  exists s1. exact Hthrow.
Defined.

(** ** Scales and the threshold band *)

Lemma xScale_spreads_years_witness :
  let s := renderChart width810 years2 [] in
  years s !! 0%nat = Some "2018"%string
  ∧ last (years s) = Some "2019"%string
  ∧ StringToNumber "2018" = Num (Qc_of_Z 2018)
  ∧ StringToNumber "2019" = Num (Qc_of_Z 2019)
  ∧ xScale s (Some "2018"%string) = of_Z 30
  ∧ xScale s (Some "2019"%string) = Num (Qc_of_Z 810 - Qc_of_Z 180).
Proof.
  intros s.
  assert (Ha : StringToNumber "2018" = Num (Qc_of_Z 2018)) by by_compute.
  assert (Hb : StringToNumber "2019" = Num (Qc_of_Z 2019)) by by_compute.
  assert (Hab : Qc_of_Z 2018 ≠ Qc_of_Z 2019) by by_compute.
  split; [reflexivity|]. split; [reflexivity|]. split; [exact Ha|].
  split; [exact Hb|].
  destruct (@xScale_spreads_years env s "2018" "2019" _ _ eq_refl eq_refl Ha Hb)
    as (Hends & _).
  exact (Hends Hab).
Defined.

Lemma yScale_orientation_witness :
  yDomain chart2 = (of_Z 90, of_Z 110)
  ∧ Qc_of_Z 90 < Qc_of_Z 110
  ∧ yScale chart2 (Some (of_Z 90)) = of_Z 570
  ∧ yScale chart2 (Some (of_Z 110)) = of_Z 30.
Proof.
  assert (Hd : yDomain chart2 = (Num (Qc_of_Z 90), Num (Qc_of_Z 110))) by by_compute.
  assert (Hlt : Qc_of_Z 90 < Qc_of_Z 110) by by_compute.
  split; [exact Hd|]. split; [exact Hlt|].
  destruct (yScale_orientation chart2 _ _ Hd Hlt) as (Hlo & Hhi & _).
  split; [exact Hlo|exact Hhi].
Defined.

Lemma threshold_band_witness :
  yDomain chart2 = (of_Z 90, of_Z 110)
  ∧ Qc_of_Z 90 < Qc_of_Z 110
  ∧ Qc_of_Z 90 < Qc_of_Z 100
  ∧ thresholdRect chart2
    = {| rect_x := of_Z 30; rect_y := of_Z 300; rect_width := of_Z 600;
         rect_height := of_Z 270 |}
  ∧ ∃ y, yScale chart2 (Some (of_Z 100)) = Num y
         ∧ rect_height (thresholdRect chart2) = Num (Qc_of_Z 570 - y).
Proof.
  assert (Hd : yDomain chart2 = (Num (Qc_of_Z 90), Num (Qc_of_Z 110))) by by_compute.
  assert (Hlt : Qc_of_Z 90 < Qc_of_Z 110) by by_compute.
  assert (Hlo : Qc_of_Z 90 < Qc_of_Z 100) by by_compute.
  split; [exact Hd|]. split; [exact Hlt|]. split; [exact Hlo|].
  split; [by_compute|].
  destruct (threshold_band (renderChart width810 years1 [vitC; vitD]) [vitC; vitD]
              _ _ Hd Hlt Hlo) as (y & Hy & _ & _ & _ & _ & Hheight & _).
  exists y. split; [exact Hy|exact Hheight].
Defined.

Lemma no_number_no_scale_witness :
  let s' := updateData (renderChart width810 years1 [blank]) [blank] in
  visible_values [blank] = []
  ∧ nice (NaN, NaN) = (NaN, NaN)
  ∧ yDomain s' = (NaN, NaN)
  ∧ rect_height (thresholdRect s') = of_Z 0
  ∧ ln_y <$> gLine s' = [NaN].
Proof.
  intros s'.
  assert (Hnone : visible_values [blank] = []) by reflexivity.
  split; [exact Hnone|]. split; [reflexivity|].
  destruct (@no_number_no_scale env (renderChart width810 years1 [blank]) [blank]
              Hnone eq_refl) as (Hd & _ & Hrect & _).
  split; [exact Hd|]. split; [|vm_compute; reflexivity].
  fold s' in Hrect. rewrite Hrect. reflexivity.
Defined.
